(** * hdbscan.plots: layout and flat-cluster selection on a condensed tree

    A shallow embedding of [src/hdbscan/plots.py] (functions [get_leaves],
    [bfs_from_cluster_tree], [CondensedTree.get_plot_data] and
    [CondensedTree._select_clusters]) together with the properties of the
    specification that concern them, followed by [CondensedTree.plot], as
    the sequence of the calls it makes, and further properties of these
    functions.

    Numbers.  The Python code is duck-typed over numpy integers and floats.
    The embedding is generic over a carrier [F] with the operations the code
    uses: arithmetic and comparisons (interface [Scalar]) and, for
    [log_size], [np.log] and [np.exp] (interface [Transcendental]).  Cluster
    ids and point counts are [Z].  Two carriers are provided: the rationals
    [Q], on which everything computes, and the reals [R] with the natural
    logarithm, used for the statements in exact real arithmetic.

    Dictionaries are finite maps [gmap Z _]; exceptions are the error
    constructors of [res]; the [while] loop of [bfs_from_cluster_tree] runs
    on fuel. *)

From Stdlib Require Import ZArith QArith Reals Lia Lra String Classical.
From stdpp Require Import gmap list sorting.

Local Open Scope Z_scope.

(** ** Exceptions *)

Inductive exn : Type :=
| KeyError      (* lookup of a missing dictionary key *)
| ValueError    (* numpy reduction on an empty array, or a failed unpacking *)
| OutOfFuel.    (* a [while] loop did not finish within the given fuel *)

Inductive res (A : Type) : Type :=
| Ok (a : A)
| Err (e : exn).
Arguments Ok {A} a.
Arguments Err {A} e.

#[global] Instance res_ret : MRet res := λ A a, Ok a.
#[global] Instance res_bind : MBind res := λ A B f m,
  match m with Ok a => f a | Err e => Err e end.

(** [d[k]] on a Python dictionary. *)
Definition getitem {V : Type} (d : gmap Z V) (k : Z) : res V :=
  match d !! k with Some v => Ok v | None => Err KeyError end.

(** A [for] loop whose body may raise. *)
Fixpoint for_each {A S : Type} (body : A → S → res S) (l : list A) (s : S)
  : res S :=
  match l with
  | [] => Ok s
  | a :: l' => s' ← body a s; for_each body l' s'
  end.

(** ** The numeric interface *)

Class Scalar (F : Type) : Type := {
  s_ofZ  : Z → F;            (* an integer used as a number *)
  s_add  : F → F → F;
  s_sub  : F → F → F;
  s_mul  : F → F → F;
  s_div  : F → F → F;
  s_eqb  : F → F → bool;     (* [==] *)
  s_ltb  : F → F → bool;     (* [<] *)
  s_sign : F → F             (* [np.sign] *)
}.

(** [np.log] and [np.exp], used when [log_size] is [True]. *)
Class Transcendental (F : Type) : Type := {
  np_log : F → F;
  np_exp : F → F
}.

(** ** The condensed tree *)

Record CondensedTreeRecord (F : Type) : Type := mkRec {
  parent : Z;
  child : Z;
  lambda : F;
  child_size : Z
}.
Arguments mkRec {F} _ _ _ _.
Arguments parent {F} _.
Arguments child {F} _.
Arguments lambda {F} _.
Arguments child_size {F} _.

(** [cluster_bounds[c]], the list indexed by [CB_LEFT], [CB_RIGHT],
    [CB_BOTTOM], [CB_TOP]. *)
Record bounds (F : Type) : Type := mkBounds {
  cb_left : F;
  cb_right : F;
  cb_bottom : F;
  cb_top : F
}.
Arguments mkBounds {F} _ _ _ _.
Arguments cb_left {F} _.
Arguments cb_right {F} _.
Arguments cb_bottom {F} _.
Arguments cb_top {F} _.

(** The dictionary returned by [get_plot_data]. *)
Record plot_data (F : Type) : Type := mkPlot {
  bar_centers : list F;
  bar_tops : list F;
  bar_bottoms : list F;
  bar_widths : list F;
  line_xs : list (F * F);
  line_ys : list (F * F);
  cluster_bounds : gmap Z (bounds F)
}.
Arguments mkPlot {F} _ _ _ _ _ _ _.
Arguments bar_centers {F} _.
Arguments bar_tops {F} _.
Arguments bar_bottoms {F} _.
Arguments bar_widths {F} _.
Arguments line_xs {F} _.
Arguments line_ys {F} _.
Arguments cluster_bounds {F} _.

(** The four bar lists while they are being filled. *)
Record bars (F : Type) : Type := mkBars {
  b_centers : list F;
  b_tops : list F;
  b_bottoms : list F;
  b_widths : list F
}.
Arguments mkBars {F} _ _ _ _.
Arguments b_centers {F} _.
Arguments b_tops {F} _.
Arguments b_bottoms {F} _.
Arguments b_widths {F} _.

Section Plots.
Context {F : Type} `{Scalar F} `{Transcendental F}.

Local Abbreviation tree := (list (CondensedTreeRecord F)).

(** [condensed_tree[condensed_tree['child_size'] > 1]] *)
Definition cluster_tree_of (t : tree) : tree :=
  filter (λ r, 1 < child_size r) t.

(** [t[t['parent'] == c]] *)
Definition children_of (t : tree) (c : Z) : tree :=
  filter (λ r, parent r = c) t.

Definition get_leaves (condensed_tree : tree) : list Z :=
  let cluster_tree := cluster_tree_of condensed_tree in
  let clusters := child <$> cluster_tree in
  filter (λ c, length (children_of cluster_tree c) = 0%nat) clusters.

(** [np.in1d(tree['parent'], to_process)] selects the rows whose parent
    occurs in [to_process]. *)
Definition in1d_children (t : tree) (to_process : list Z) : list Z :=
  child <$> filter (λ r, parent r ∈ to_process) t.

(** The [while to_process] loop; each iteration costs one unit of fuel. *)
Fixpoint bfs_loop (fuel : nat) (t : tree) (to_process result : list Z)
  : res (list Z) :=
  match to_process with
  | [] => Ok result
  | _ :: _ =>
      match fuel with
      | O => Err OutOfFuel
      | S fuel' =>
          bfs_loop fuel' t (in1d_children t to_process) (result ++ to_process)
      end
  end.

Definition bfs_from_cluster_tree (fuel : nat) (t : tree) (bfs_root : Z)
  : res (list Z) :=
  bfs_loop fuel t [bfs_root] [].

(** [a.max()] and [a.min()] of an integer column; empty arrays raise. *)
Definition column_max (l : list Z) : res Z :=
  match l with
  | [] => Err ValueError
  | x :: l' => Ok (foldl Z.max x l')
  end.

Definition column_min (l : list Z) : res Z :=
  match l with
  | [] => Err ValueError
  | x :: l' => Ok (foldl Z.min x l')
  end.

(** [np.max] of a column of numbers. *)
Definition np_max (l : list F) : res F :=
  match l with
  | [] => Err ValueError
  | x :: l' => Ok (foldl (λ a b, if s_ltb a b then b else a) x l')
  end.

(** [np.sum] of an integer column. *)
Definition sum_sizes (t : tree) : Z :=
  foldr Z.add 0 (child_size <$> t).

(** [range(hi, lo - 1, -1)] *)
Definition range_down (hi lo : Z) : list Z :=
  (λ i : nat, hi - Z.of_nat i) <$> seq 0 (Z.to_nat (hi - lo + 1)).

(** [np.argsort]: the indices in ascending order of the keys; rows with
    equal keys stay in row order (a stable insertion sort).  numpy leaves
    the order of equal keys open; the lemmas on the bar widths
    ([bar_loop_linear], [bar_loop_log], [bar_counts_positive]) are stated
    for an arbitrary list of rows. *)
Fixpoint insert_sorted (p : nat * F) (l : list (nat * F)) : list (nat * F) :=
  match l with
  | [] => [p]
  | q :: l' =>
      if s_ltb (snd q) (snd p) then q :: insert_sorted p l'
      else p :: q :: l'
  end.

Definition np_argsort (l : list F) : list nat :=
  fst <$> foldr insert_sorted [] (zip (seq 0 (length l)) l).

(** [dict(zip(keys, values))]: a later pair overrides an earlier one. *)
Definition dict_of_zip {V : Type} (keys : list Z) (values : list V)
  : gmap Z V :=
  foldl (λ d kv, <[kv.1 := kv.2]> d) ∅ (zip keys values).

(** [np.mean([a, b])] *)
Definition mean2 (a b : F) : F := s_div (s_add a b) (s_ofZ 2).

(** [np.log(n)] if [log_size], else [n], for an integer [n]. *)
Definition size_value (log_size : bool) (n : Z) : F :=
  if log_size then np_log (s_ofZ n) else s_ofZ n.

(** *** Coordinates (lines 40-60) *)

Definition initial_x (t : tree) (leaf_separation : F) : gmap Z F :=
  let leaves := get_leaves t in
  dict_of_zip leaves
    ((λ x : nat, s_mul leaf_separation (s_ofZ (Z.of_nat x)))
       <$> seq 0 (length leaves)).

(** [split]: the rows with [parent == cluster] and [child_size > 1]
    (lines 52-54). *)
Definition split_rows (t : tree) (cluster : Z) : tree :=
  filter (λ r, parent r = cluster ∧ 1 < child_size r) t.

(** Body of the loop of lines 51-60. *)
Definition coords_step (t : tree) (cluster : Z)
    (xy : gmap Z F * gmap Z F) : res (gmap Z F * gmap Z F) :=
  let '(cluster_x_coords, cluster_y_coords) := xy in
  match split_rows t cluster with
  | [] | [_] => Ok xy
  | [rl; rr] =>
      xl ← getitem cluster_x_coords (child rl);
      xr ← getitem cluster_x_coords (child rr);
      Ok (<[cluster := mean2 xl xr]> cluster_x_coords,
          <[child rr := lambda rr]>
            (<[child rl := lambda rl]> cluster_y_coords))
  | _ => Err ValueError
  end.

(** Lines 40-60: [(last_leaf, root, cluster_x_coords, cluster_y_coords)]. *)
Definition cluster_coords (t : tree) (leaf_separation : F)
  : res (Z * Z * gmap Z F * gmap Z F) :=
  last_leaf ← column_max (parent <$> t);
  root ← column_min (parent <$> t);
  xy ← for_each (coords_step t) (range_down last_leaf root)
         (initial_x t leaf_separation, {[ root := s_ofZ 0 ]});
  Ok (last_leaf, root, xy.1, xy.2).

(** *** Bars and bounding boxes (lines 65-104) *)

(** Body of the loop over [np.argsort(c_children['lambda'])]. *)
Definition bar_step (log_size : bool) (center : F)
    (row : CondensedTreeRecord F) (st : F * F * bars F) : F * F * bars F :=
  let '(current_size, current_lambda, b) := st in
  let b' :=
    if negb (s_eqb (lambda row) current_lambda) then
      mkBars (b_centers b ++ [center])
             (b_tops b ++ [s_sub (lambda row) current_lambda])
             (b_bottoms b ++ [current_lambda])
             (b_widths b ++ [current_size])
    else b in
  let current_size' :=
    if log_size
    then np_log (s_sub (np_exp current_size) (s_ofZ (child_size row)))
    else s_sub current_size (s_ofZ (child_size row)) in
  (current_size', lambda row, b').

(** The rows [c_children[i]] for [i] in argsort order. *)
Definition rows_by_lambda (c_children : tree) : tree :=
  omap (λ i, c_children !! i) (np_argsort (lambda <$> c_children)).

(** Body of the loop of lines 77-104. *)
Definition bounds_step (t : tree) (log_size : bool) (scaling : F)
    (cluster_x_coords cluster_y_coords : gmap Z F) (c : Z)
    (st : gmap Z (bounds F) * bars F) : res (gmap Z (bounds F) * bars F) :=
  let '(cluster_bounds, b) := st in
  let c_children := children_of t c in
  let current_size := size_value log_size (sum_sizes c_children) in
  current_lambda ← getitem cluster_y_coords c;
  x ← getitem cluster_x_coords c;
  top ← np_max (lambda <$> c_children);
  let half := s_div current_size (s_ofZ 2) in
  let box := mkBounds (s_sub (s_mul x scaling) half)
                      (s_add (s_mul x scaling) half)
                      current_lambda top in
  let '(_, _, b') :=
    foldl (λ st row, bar_step log_size (s_mul x scaling) row st)
          (current_size, current_lambda, b) (rows_by_lambda c_children) in
  Ok (<[c := box]> cluster_bounds, b').

(** The point counts behind the bar widths of one cluster: the running
    size, as an integer, at each row whose lambda differs from the running
    lambda. *)
Fixpoint bar_counts (rows : tree) (current_size : Z) (current_lambda : F)
  : list Z :=
  match rows with
  | [] => []
  | row :: rows' =>
      (if negb (s_eqb (lambda row) current_lambda) then [current_size] else [])
      ++ bar_counts rows' (current_size - child_size row) (lambda row)
  end.

Definition cluster_counts (t : tree) (cluster_y_coords : gmap Z F) (c : Z)
  : list Z :=
  match cluster_y_coords !! c with
  | Some y =>
      let c_children := children_of t c in
      bar_counts (rows_by_lambda c_children) (sum_sizes c_children) y
  | None => []
  end.

(** *** Connector lines (lines 107-124) *)

Definition line_step (log_size : bool) (scaling : F)
    (cluster_x_coords cluster_y_coords : gmap Z F)
    (row : CondensedTreeRecord F) (st : list (F * F) * list (F * F))
  : res (list (F * F) * list (F * F)) :=
  let '(line_xs, line_ys) := st in
  let child_size := size_value log_size (child_size row) in
  xc ← getitem cluster_x_coords (child row);
  xp ← getitem cluster_x_coords (parent row);
  let sign := s_sign (s_sub xc xp) in
  yc ← getitem cluster_y_coords (child row);
  Ok (line_xs ++ [(s_mul xp scaling,
                   s_add (s_mul xc scaling)
                         (s_mul sign (s_div child_size (s_ofZ 2))))],
      line_ys ++ [(yc, yc)]).

Definition get_plot_data (t : tree) (leaf_separation : F) (log_size : bool)
  : res (plot_data F) :=
  '(last_leaf, root, cluster_x_coords, cluster_y_coords) ←
    cluster_coords t leaf_separation;
  let scaling := size_value log_size (sum_sizes (children_of t root)) in
  '(cluster_bounds, b) ←
    for_each (bounds_step t log_size scaling cluster_x_coords cluster_y_coords)
             (range_down last_leaf root) (∅, mkBars [] [] [] []);
  '(line_xs, line_ys) ←
    for_each (line_step log_size scaling cluster_x_coords cluster_y_coords)
             (cluster_tree_of t) ([], []);
  Ok (mkPlot (b_centers b) (b_tops b) (b_bottoms b) (b_widths b)
             line_xs line_ys cluster_bounds).

(** *** Cluster selection (lines 136-155) *)

(** [sorted(stability.keys(), reverse=True)[:-1]] *)
Definition node_list_of (stability : gmap Z F) : list Z :=
  removelast (merge_sort Z.ge (elements (dom stability))).

(** [[stability[child] for child in children]] *)
Fixpoint stabilities (stability : gmap Z F) (children : list Z)
  : res (list F) :=
  match children with
  | [] => Ok []
  | c :: cs =>
      v ← getitem stability c; vs ← stabilities stability cs; Ok (v :: vs)
  end.

(** [np.sum] of a list of numbers. *)
Definition np_sum (l : list F) : F := foldl s_add (s_ofZ 0) l.

(** The loop of lines 151-153. *)
Definition absorb (node : Z) (sub_nodes : list Z) (is_cluster : gmap Z bool)
  : gmap Z bool :=
  foldl (λ d sub_node,
           if decide (sub_node ≠ node) then <[sub_node := false]> d else d)
        is_cluster sub_nodes.

(** Body of the loop of lines 142-153. *)
Definition select_step (fuel : nat) (cluster_tree : tree) (node : Z)
    (st : gmap Z F * gmap Z bool) : res (gmap Z F * gmap Z bool) :=
  let '(stability, is_cluster) := st in
  vs ← stabilities stability (child <$> children_of cluster_tree node);
  let subtree_stability := np_sum vs in
  own ← getitem stability node;
  if s_ltb own subtree_stability then
    Ok (<[node := subtree_stability]> stability, <[node := false]> is_cluster)
  else
    sub_nodes ← bfs_from_cluster_tree fuel cluster_tree node;
    Ok (stability, absorb node sub_nodes is_cluster).

(** [{cluster : True for cluster in node_list}] *)
Definition all_selected (node_list : list Z) : gmap Z bool :=
  foldl (λ d cluster, <[cluster := true]> d) ∅ node_list.

(** [[cluster for cluster in is_cluster if is_cluster[cluster]]], in the
    order of the keys of the finite map. *)
Definition selected (is_cluster : gmap Z bool) : list Z :=
  fst <$> filter (λ kv, kv.2 = true) (map_to_list is_cluster).

(** The state [(stability, is_cluster)] when the loop of line 142 ends. *)
Definition select_loop (fuel : nat) (t : tree) (stability : gmap Z F)
  : res (gmap Z F * gmap Z bool) :=
  let node_list := node_list_of stability in
  for_each (select_step fuel (cluster_tree_of t)) node_list
           (stability, all_selected node_list).

(** [_select_clusters], with the result of [compute_stability] (a function
    of another module) as the argument [stability]. *)
Definition _select_clusters (fuel : nat) (t : tree) (stability : gmap Z F)
  : res (list Z) :=
  st ← select_loop fuel t stability;
  Ok (selected st.2).

(** *** Relations on the cluster tree used in the statements *)

(** [edge ct p c]: some record of [ct] has parent [p] and child [c]. *)
Definition edge (ct : tree) (p c : Z) : Prop :=
  ∃ r, r ∈ ct ∧ parent r = p ∧ child r = c.

(** Ids grow along the edges: every child has a larger id than its parent. *)
Definition ordered (ct : tree) : Prop := Forall (λ r, parent r < child r) ct.

(** [ranked ct rank lo hi]: the ranks, which lie between [lo] and [hi], grow
    along the edges, so the cluster tree has no cycle.  On an ordered tree
    the ids themselves are such a ranking. *)
Definition ranked (ct : tree) (rank : Z → Z) (lo hi : Z) : Prop :=
  Forall (λ r, lo ≤ rank (parent r) ∧ rank (parent r) < rank (child r) ∧
               rank (child r) ≤ hi) ct.

(** With [fuel] the loop of [bfs_from_cluster_tree] finishes from every
    node. *)
Definition bfs_total (fuel : nat) (ct : tree) : Prop :=
  ∀ n, ∃ out, bfs_from_cluster_tree fuel ct n = Ok out.

(** The trees [get_plot_data] is written for: the ids from [root] to
    [last_leaf] are exactly the clusters, each of them has rows of its own,
    the root splits into two clusters, every other cluster is a cluster
    child and splits into two clusters or none, and children have larger
    ids than their parents. *)
Definition binary_condensed_tree (t : tree) (last_leaf root : Z) : Prop :=
  column_max (parent <$> t) = Ok last_leaf ∧
  column_min (parent <$> t) = Ok root ∧
  ordered (cluster_tree_of t) ∧
  length (split_rows t root) = 2%nat ∧
  Forall (λ c, (0 < length (children_of t c))%nat ∧
               (length (split_rows t c) = 0%nat ∨
                length (split_rows t c) = 2%nat) ∧
               (c = root ∨ c ∈ child <$> cluster_tree_of t))
         (range_down last_leaf root).

(** The invariants of the data model as the specification words them: as
    above, except that a cluster may have 0, 1 or 2 cluster children (and
    so may the root); sizes are positive and a cluster has one parent. *)
Definition condensed_tree_wf (t : tree) (last_leaf root : Z) : Prop :=
  column_max (parent <$> t) = Ok last_leaf ∧
  column_min (parent <$> t) = Ok root ∧
  Forall (λ r, 0 < child_size r) t ∧
  ordered (cluster_tree_of t) ∧
  NoDup (child <$> cluster_tree_of t) ∧
  Forall (λ c, (0 < length (children_of t c))%nat ∧
               (length (split_rows t c) ≤ 2)%nat ∧
               (c = root ∨ c ∈ child <$> cluster_tree_of t))
         (range_down last_leaf root).

(** The state of the loop of lines 51-60 once the clusters [pre] are done:
    the leaves and the clusters of [pre] that split have an x coordinate,
    the root and the children of the splits of [pre] have a y coordinate. *)
Definition coords_ready (t : tree) (root : Z) (pre : list Z)
    (xy : gmap Z F * gmap Z F) : Prop :=
  (∀ c, c ∈ get_leaves t ∨ (c ∈ pre ∧ split_rows t c ≠ []) →
        is_Some (xy.1 !! c)) ∧
  is_Some (xy.2 !! root) ∧
  (∀ p r, p ∈ pre → r ∈ split_rows t p → is_Some (xy.2 !! child r)).

(** Fuel that suffices for [bfs_from_cluster_tree] on an ordered tree: the
    spread of the ids plus two. *)
Definition max_child (ct : tree) : Z := foldr Z.max 0 (child <$> ct).
Definition min_parent (ct : tree) : Z := foldr Z.min 0 (parent <$> ct).
Definition enough_fuel (ct : tree) : nat :=
  (Z.to_nat (max_child ct - min_parent ct) + 2)%nat.

(** *** Example trees *)

(** A complete condensed tree: root 0 splits into the clusters 1 (4 points)
    and 2 (2 points) at lambda 1, cluster 1 splits into 3 and 4 at lambda 2,
    and the clusters 2, 3 and 4 lose their points one by one. *)
Definition example_tree : tree :=
  [ mkRec 0 1 (s_ofZ 1) 4; mkRec 0 2 (s_ofZ 1) 2;
    mkRec 1 3 (s_ofZ 2) 2; mkRec 1 4 (s_ofZ 2) 2;
    mkRec 2 20 (s_ofZ 2) 1; mkRec 2 21 (s_ofZ 3) 1;
    mkRec 3 30 (s_ofZ 3) 1; mkRec 3 31 (s_ofZ 4) 1;
    mkRec 4 40 (s_ofZ 3) 1; mkRec 4 41 (s_ofZ 3) 1 ].

(** Root 0 has one cluster child, cluster 1 (2 points), and one point. *)
Definition one_child_tree : tree :=
  [ mkRec 0 1 (s_ofZ 1) 2; mkRec 0 5 (s_ofZ 1) 1;
    mkRec 1 6 (s_ofZ 2) 1; mkRec 1 7 (s_ofZ 2) 1 ].

(** A single cluster: every child of the root is a data point. *)
Definition single_cluster_tree : tree :=
  [ mkRec 0 1 (s_ofZ 1) 1; mkRec 0 2 (s_ofZ 2) 1 ].

End Plots.

(** ** The two carriers *)

(** Rationals: every operation computes.  There is no rational logarithm,
    so [Q] is a [Scalar] only; where [get_plot_data] is run on [Q] the
    [Transcendental] functions are arbitrary. *)
Definition Q_sign (q : Q) : Q :=
  match Qnum q with
  | Z0 => 0%Q
  | Zpos _ => 1%Q
  | Zneg _ => (-1)%Q
  end.

Definition Q_ltb (a b : Q) : bool := negb (Qle_bool b a).

#[global] Instance Q_scalar : Scalar Q := {|
  s_ofZ := inject_Z;
  s_add := Qplus;
  s_sub := Qminus;
  s_mul := Qmult;
  s_div := Qdiv;
  s_eqb := Qeq_bool;
  s_ltb := Q_ltb;
  s_sign := Q_sign
|}.

(** Reals, with the natural logarithm and the exponential. *)
Definition R_eqb (a b : R) : bool := if Req_dec_T a b then true else false.
Definition R_ltb (a b : R) : bool := if Rlt_dec a b then true else false.
Definition R_sign (a : R) : R :=
  if Rlt_dec 0 a then 1%R else if Rlt_dec a 0 then (-1)%R else 0%R.

#[global] Instance R_scalar : Scalar R := {|
  s_ofZ := IZR;
  s_add := Rplus;
  s_sub := Rminus;
  s_mul := Rmult;
  s_div := Rdiv;
  s_eqb := R_eqb;
  s_ltb := R_ltb;
  s_sign := R_sign
|}.

#[global] Instance R_transcendental : Transcendental R := {|
  np_log := ln;
  np_exp := exp
|}.

(** ** The concrete scenario of the specification *)

(** Root 0 splits into clusters 1 and 2 at lambda 0.5 (sizes 40 and 60);
    cluster 1 splits into 3 and 4 at lambda 1.0 (sizes 15 and 25). *)
Definition scenario_tree : list (CondensedTreeRecord Q) :=
  [ mkRec 0 1 (1 # 2)%Q 40; mkRec 0 2 (1 # 2)%Q 60;
    mkRec 1 3 1%Q 15; mkRec 1 4 1%Q 25 ].

(** The stability scores of the specification's example (the root, which
    [_select_clusters] drops from the candidates, gets 0). *)
Definition scenario_stability : gmap Z Q :=
  list_to_map [(0, 0%Q); (1, 5%Q); (2, 5%Q); (3, 2%Q); (4, 2%Q)].

(** The same with a tie at cluster 1: its children 3 and 4 sum to its own
    stability. *)
Definition tie_stability : gmap Z Q :=
  list_to_map [(0, 0%Q); (1, 4%Q); (2, 5%Q); (3, 2%Q); (4, 2%Q)].

(** What the code computes on [scenario_tree], for a separation [ls] of the
    leaves: the coordinates after the loop of lines 51-60 and the returned
    dictionary.  [last_leaf] is 1 (the largest parent), so the loops visit
    the clusters 1 and 0. *)
Definition scenario_x (ls : Q) : gmap Z Q :=
  let x2 := (ls * 0)%Q in
  let x3 := (ls * 1)%Q in
  let x4 := (ls * 2)%Q in
  let x1 := ((x3 + x4) / 2)%Q in
  let x0 := ((x1 + x2) / 2)%Q in
  list_to_map [(0, x0); (1, x1); (2, x2); (3, x3); (4, x4)].

Definition scenario_y : gmap Z Q :=
  list_to_map [(0, 0%Q); (1, (1 # 2)%Q); (2, (1 # 2)%Q); (3, 1%Q); (4, 1%Q)].

Definition scenario_plot (ls : Q) : plot_data Q :=
  let x2 := (ls * 0)%Q in
  let x3 := (ls * 1)%Q in
  let x4 := (ls * 2)%Q in
  let x1 := ((x3 + x4) / 2)%Q in
  let x0 := ((x1 + x2) / 2)%Q in
  {| bar_centers := [(x1 * 100)%Q; (x0 * 100)%Q];
     bar_tops := [(1 - (1 # 2))%Q; ((1 # 2) - 0)%Q];
     bar_bottoms := [(1 # 2)%Q; 0%Q];
     bar_widths := [40%Q; 100%Q];
     line_xs :=
       [ ((x0 * 100)%Q, (x1 * 100 + Q_sign (x1 - x0) * (40 / 2))%Q);
         ((x0 * 100)%Q, (x2 * 100 + Q_sign (x2 - x0) * (60 / 2))%Q);
         ((x1 * 100)%Q, (x3 * 100 + Q_sign (x3 - x1) * (15 / 2))%Q);
         ((x1 * 100)%Q, (x4 * 100 + Q_sign (x4 - x1) * (25 / 2))%Q) ];
     line_ys :=
       [ ((1 # 2)%Q, (1 # 2)%Q); ((1 # 2)%Q, (1 # 2)%Q);
         (1%Q, 1%Q); (1%Q, 1%Q) ];
     cluster_bounds :=
       list_to_map
         [ (1, mkBounds (x1 * 100 - 40 / 2)%Q (x1 * 100 + 40 / 2)%Q
                        (1 # 2)%Q 1%Q);
           (0, mkBounds (x0 * 100 - 100 / 2)%Q (x0 * 100 + 100 / 2)%Q
                        0%Q (1 # 2)%Q) ] |}.

(** ** Further definitions used in the statements *)

Section PlotsMore.
Context {F : Type} `{Scalar F} `{Transcendental F}.

(** The vertical part of the layout: the heights and bottoms of the bars,
    and the bottom and top of each bounding box. *)
Definition vertical_bars (b : bars F) : list F * list F :=
  (b_tops b, b_bottoms b).

Definition vertical_bounds (bs : gmap Z (bounds F)) : gmap Z (F * F) :=
  (λ box, (cb_bottom box, cb_top box)) <$> bs.

(** The four bar lists have one entry per bar. *)
Definition balanced (b : bars F) : Prop :=
  length (b_tops b) = length (b_centers b) ∧
  length (b_bottoms b) = length (b_centers b) ∧
  length (b_widths b) = length (b_centers b).

(** The [i]-th bar, as [axis.bar] reads it from the four lists. *)
Definition bar_at (b : bars F) (i : nat) (center height bottom width : F)
  : Prop :=
  b_centers b !! i = Some center ∧ b_tops b !! i = Some height ∧
  b_bottoms b !! i = Some bottom ∧ b_widths b !! i = Some width.

(** [keeps ct stability final n]: with the stabilities [final] that the
    loop of [_select_clusters] leaves behind, the children of [n] do not
    sum to more than the stability [n] started with, so the test of line
    147 fails at [n]. *)
Definition keeps (ct : list (CondensedTreeRecord F))
    (stability final : gmap Z F) (n : Z) : Prop :=
  ∃ vs own,
    stabilities final (child <$> children_of ct n) = Ok vs ∧
    stability !! n = Some own ∧
    s_ltb own (np_sum vs) = false.

(** [chosen_below ct stability final n a]: [a] is [n] or a descendant of
    [n], it keeps its own stability, and no node from [n] down to the parent
    of [a] does. *)
Definition chosen_below (ct : list (CondensedTreeRecord F))
    (stability final : gmap Z F) (n a : Z) : Prop :=
  rtc (edge ct) n a ∧ keeps ct stability final a ∧
  ∀ b, rtc (edge ct) n b → tc (edge ct) b a → ¬ keeps ct stability final b.

(** A candidate whose parent, if it has one, is not a candidate. *)
Definition top_candidate (ct : list (CondensedTreeRecord F))
    (stability : gmap Z F) (r : Z) : Prop :=
  r ∈ node_list_of stability ∧
  ∀ p, edge ct p r → p ∉ node_list_of stability.

End PlotsMore.

(** A bar lies within a bounding box (in exact real arithmetic). *)
Definition bar_in_box (box : bounds R) (center height bottom width : R)
  : Prop :=
  (cb_left box <= center - width / 2)%R ∧
  (center + width / 2 <= cb_right box)%R ∧
  (cb_bottom box <= bottom)%R ∧
  (bottom + height <= cb_top box)%R.

(** ** [CondensedTree.plot] (lines 157-230)

    matplotlib is not modelled: [plot] is embedded as the sequence of calls
    it makes on matplotlib objects, each recorded with its arguments, and
    the exceptions it can raise on the way.  Whether the two imports
    succeed is an input ([pyplot], [patches]); the result of
    [compute_stability] is the argument [stability], as for
    [_select_clusters].  The float constants [2.0] and [1.2] are the exact
    numbers 2 and 12/10 of the carrier. *)

(** What [plot] can raise: an exception of [get_plot_data],
    [_select_clusters], [max] or a dictionary lookup; a failed import; the
    use of the local variable [sm] before it was assigned. *)
Inductive plot_exn : Type :=
| Raised (e : exn)
| ImportError
| UnboundLocalError.

Inductive plot_res (A : Type) : Type :=
| Returns (a : A)
| Raises (e : plot_exn).
Arguments Returns {A} a.
Arguments Raises {A} e.

#[global] Instance plot_ret : MRet plot_res := λ A a, Returns a.
#[global] Instance plot_bind : MBind plot_res := λ A B f m,
  match m with Returns a => f a | Raises e => Raises e end.

(** A computation of the layout code inside [plot]. *)
Definition lift {A : Type} (m : res A) : plot_res A :=
  match m with Ok a => Returns a | Err e => Raises (Raised e) end.

(** [bar_colors]: the string ['black'], or the colours
    [[sm.to_rgba(x) for x in widths]] of the mappable [sm] with colour map
    [cmap] and norm [Normalize(0, vmax)]. *)
Inductive bar_colors (F : Type) : Type :=
| Named (name : string)
| Mapped (cmap : string) (vmax : F) (widths : list F).
Arguments Named {F} name.
Arguments Mapped {F} cmap vmax widths.

Inductive call (F : Type) : Type :=
| AxisBar (centers tops bottoms widths : list F) (color : bar_colors F)
| AxisPlot (xs ys : F * F)
| AddEllipse (center : F * F) (width height : F)
| Colorbar (cmap : string) (vmax : F) (ylabel : string)
| SetXticks
| HideSpine (side : string)
| InvertYaxis
| SetYlabel (label : string).
Arguments AxisBar {F} _ _ _ _ _.
Arguments AxisPlot {F} _ _.
Arguments AddEllipse {F} _ _ _.
Arguments Colorbar {F} _ _ _.
Arguments SetXticks {F}.
Arguments HideSpine {F} _.
Arguments InvertYaxis {F}.
Arguments SetYlabel {F} _.

Section PlotModel.
Context {F : Type} `{Scalar F} `{Transcendental F}.

(** Lines 198-215: the ellipse drawn for a bounding box. *)
Definition ellipse_call (c_bounds : bounds F) : call F :=
  let width := s_sub (cb_right c_bounds) (cb_left c_bounds) in
  let height := s_sub (cb_top c_bounds) (cb_bottom c_bounds) in
  let center := (mean2 (cb_left c_bounds) (cb_right c_bounds),
                 mean2 (cb_top c_bounds) (cb_bottom c_bounds)) in
  AddEllipse center (s_mul (s_ofZ 2) width)
             (s_mul (s_div (s_ofZ 12) (s_ofZ 10)) height).

(** Body of the loop of lines 197-215. *)
Definition ellipse_step (cluster_bounds : gmap Z (bounds F)) (c : Z)
    (calls : list (call F)) : res (list (call F)) :=
  c_bounds ← getitem cluster_bounds c;
  Ok (calls ++ [ellipse_call c_bounds]).

(** [plot]; the value is the list of the calls made, in order.  The axis
    they are made on ([axis], or [plt.gca()]) is not represented. *)
Definition plot (pyplot patches : bool) (fuel : nat)
    (t : list (CondensedTreeRecord F)) (stability : gmap Z F)
    (leaf_separation : F) (cmap : string)
    (select_clusters colorbar log_size : bool) : plot_res (list (call F)) :=
  if negb pyplot then Raises ImportError else
  plot_data ← lift (get_plot_data t leaf_separation log_size);
  '(sm, colors) ←
    (if negb (String.eqb cmap "none") then
       vmax ← lift (np_max (bar_widths plot_data));
       Returns (Some (cmap, vmax), Mapped cmap vmax (bar_widths plot_data))
     else Returns (None, Named "black"));
  let calls :=
    AxisBar (bar_centers plot_data) (bar_tops plot_data)
            (bar_bottoms plot_data) (bar_widths plot_data) colors
    :: zip_with AxisPlot (line_xs plot_data) (line_ys plot_data) in
  calls ←
    (if select_clusters then
       if negb patches then Raises ImportError else
       chosen_clusters ← lift (_select_clusters fuel t stability);
       lift (for_each (ellipse_step (cluster_bounds plot_data))
               chosen_clusters calls)
     else Returns calls);
  calls ←
    (if colorbar then
       match sm with
       | None => Raises UnboundLocalError
       | Some (cm, vmax) =>
           Returns (calls ++
                    [Colorbar cm vmax
                       (if log_size then "log(Number of points)"
                        else "Number of points")])
       end
     else Returns calls);
  Returns (calls ++ [SetXticks; HideSpine "right"; HideSpine "top";
                     HideSpine "bottom"; InvertYaxis;
                     SetYlabel "$\lambda$ value"]).

End PlotModel.

(** A point lies strictly inside the axis-parallel ellipse with the given
    centre, full width and full height (the arguments of matplotlib's
    [Ellipse]). *)
Definition inside_ellipse (center : R * R) (width height : R) (x y : R)
  : Prop :=
  (((x - center.1) / (width / 2)) * ((x - center.1) / (width / 2))
   + ((y - center.2) / (height / 2)) * ((y - center.2) / (height / 2)) < 1)%R.

(** ** Excess of mass *)

(** The summed stability of a list of clusters. *)
Definition mass (stability : gmap Z R) (A : list Z) : R :=
  foldr Rplus 0%R ((λ a, default 0%R (stability !! a)) <$> A).

(** No member of [A] is a proper descendant of another one. *)
Definition antichain {F : Type} (ct : list (CondensedTreeRecord F))
    (A : list Z) : Prop :=
  ∀ a b, a ∈ A → b ∈ A → ¬ tc (edge ct) a b.

(** The stabilities of the specification's scenario as real numbers, for
    the clusters 0..4 of [example_tree]. *)
Definition example_stability : gmap Z R :=
  list_to_map [(0, 0%R); (1, 5%R); (2, 5%R); (3, 2%R); (4, 2%R)].

(** A closed decidable proposition, settled by evaluating its decision
    procedure. *)
Ltac by_evaluation := apply (bool_decide_unpack _); vm_compute; exact I.

(** ** Loops *)

Lemma bind_Ok {A B : Type} (m : res A) (f : A → res B) (b : B) :
  m ≫= f = Ok b ↔ ∃ a, m = Ok a ∧ f a = Ok b.
Proof.
  destruct m as [a|e]; simpl; split.
  - eauto.
  - intros (a' & [= <-] & ?); done.
  - done.
  - intros (? & ? & ?); done.
Qed.

Lemma getitem_Ok {V : Type} (d : gmap Z V) (k : Z) (v : V) :
  getitem d k = Ok v ↔ d !! k = Some v.
Proof. unfold getitem. destruct (d !! k); naive_solver. Qed.

Lemma getitem_is_Some {V : Type} (d : gmap Z V) (k : Z) :
  is_Some (d !! k) → ∃ v, getitem d k = Ok v.
Proof. intros [v Hv]. exists v. by apply getitem_Ok. Qed.

Lemma for_each_cons {A S : Type} (body : A → S → res S) (a : A) (l : list A) (s : S) :
  for_each body (a :: l) s = body a s ≫= for_each body l.
Proof. done. Qed.

Lemma for_each_app {A S : Type} (body : A → S → res S) (l1 l2 : list A) (s : S) :
  for_each body (l1 ++ l2) s = for_each body l1 s ≫= for_each body l2.
Proof.
  revert s. induction l1 as [|a l1 IH]; intros s; simpl; [done|].
  destruct (body a s) as [s'|e]; simpl; [apply IH | done].
Qed.

Lemma for_each_split {A S : Type} (body : A → S → res S) (pre post : list A)
    (a : A) (s s3 : S) :
  for_each body (pre ++ a :: post) s = Ok s3 →
  ∃ s1 s2, for_each body pre s = Ok s1 ∧ body a s1 = Ok s2 ∧
           for_each body post s2 = Ok s3.
Proof.
  rewrite for_each_app. intros (s1 & Hpre & Hrun)%bind_Ok.
  rewrite for_each_cons in Hrun. apply bind_Ok in Hrun as (s2 & Ha & Hpost). eauto.
Qed.

Lemma for_each_invariant {A S : Type} (P : S → Prop) (body : A → S → res S)
    (l : list A) (s s' : S) :
  (∀ a s1 s2, a ∈ l → P s1 → body a s1 = Ok s2 → P s2) →
  P s → for_each body l s = Ok s' → P s'.
Proof.
  revert s. induction l as [|a l IH]; intros s Hstep Hs Hrun; simpl in Hrun.
  - by injection Hrun as <-.
  - apply bind_Ok in Hrun as (s1 & Hb & Hrun).
    eapply IH; [| |exact Hrun].
    + intros ????; apply Hstep. by right.
    + eapply Hstep; [by left|exact Hs|exact Hb].
Qed.

Lemma for_each_total {A S : Type} (P : S → Prop) (body : A → S → res S)
    (l : list A) (s : S) :
  (∀ a s1, a ∈ l → P s1 → ∃ s2, body a s1 = Ok s2 ∧ P s2) →
  P s → ∃ s', for_each body l s = Ok s' ∧ P s'.
Proof.
  revert s. induction l as [|a l IH]; intros s Hstep Hs; simpl.
  - eauto.
  - destruct (Hstep a s) as (s1 & -> & Hs1); [by left|done|]. simpl.
    apply IH; [|done]. intros ????; apply Hstep; [by right|done].
Qed.

Lemma for_each_prefix_total {A S : Type} (P : list A → S → Prop)
    (body : A → S → res S) (l : list A) (s : S) :
  P [] s →
  (∀ pre a post s1, l = pre ++ a :: post → P pre s1 →
     ∃ s2, body a s1 = Ok s2 ∧ P (pre ++ [a]) s2) →
  ∃ s', for_each body l s = Ok s' ∧ P l s'.
Proof.
  intros H0 Hstep.
  cut (∀ l2 l1 s1, l = l1 ++ l2 → P l1 s1 →
         ∃ s', for_each body l2 s1 = Ok s' ∧ P l s').
  { intros Hgen. apply (Hgen l [] s); done. }
  induction l2 as [|a l2 IH]; intros l1 s1 Hl Hs1; simpl.
  - rewrite app_nil_r in Hl. subst. eauto.
  - destruct (Hstep l1 a l2 s1 Hl Hs1) as (s2 & -> & Hs2). simpl.
    apply (IH (l1 ++ [a])); [|done]. by rewrite <- app_assoc.
Qed.

(** ** Breadth-first search on the cluster tree *)

Section Bfs.
Context {F : Type} `{Scalar F}.
Implicit Types (ct : list (CondensedTreeRecord F)).

Lemma elem_of_in1d_children ct (tp : list Z) (c : Z) :
  c ∈ in1d_children ct tp ↔ ∃ p, p ∈ tp ∧ edge ct p c.
Proof.
  unfold in1d_children, edge. rewrite list_elem_of_fmap. split.
  - intros (r & -> & Hr). apply list_elem_of_filter in Hr as [Hp Hr]. eauto 6.
  - intros (p & Hp & r & Hr & <- & <-). exists r. split; [done|].
    apply list_elem_of_filter. done.
Qed.

Lemma bfs_loop_complete fuel ct (tp acc out : list Z) :
  bfs_loop fuel ct tp acc = Ok out →
  (∀ x, x ∈ acc → x ∈ out) ∧
  (∀ x y, x ∈ tp → rtc (edge ct) x y → y ∈ out).
Proof.
  revert tp acc. induction fuel as [|fuel IH]; intros tp acc Hrun.
  - destruct tp; simpl in Hrun; [|done]. injection Hrun as <-.
    split; [done|]. intros x y Hx. by apply elem_of_nil in Hx.
  - destruct tp as [|z tp]; simpl in Hrun.
    { injection Hrun as <-. split; [done|]. intros x y Hx. by apply elem_of_nil in Hx. }
    apply IH in Hrun as [Hacc Hnext]. split.
    + intros x Hx. apply Hacc, elem_of_app. by left.
    + intros x y Hx Hxy. apply rtc_inv in Hxy as [<-|(w & Hxw & Hwy)].
      * apply Hacc, elem_of_app. by right.
      * apply (Hnext w); [|done]. apply elem_of_in1d_children. eauto.
Qed.

Lemma bfs_loop_sound fuel ct (tp acc out : list Z) :
  bfs_loop fuel ct tp acc = Ok out →
  ∀ y, y ∈ out → y ∈ acc ∨ ∃ x, x ∈ tp ∧ rtc (edge ct) x y.
Proof.
  revert tp acc. induction fuel as [|fuel IH]; intros tp acc Hrun y Hy.
  - destruct tp; simpl in Hrun; [|done]. injection Hrun as <-. by left.
  - destruct tp as [|z tp]; simpl in Hrun.
    { injection Hrun as <-. by left. }
    destruct (IH _ _ Hrun y Hy) as [Hin|(x & Hx & Hxy)].
    + apply elem_of_app in Hin as [?|?]; [by left|]. right. exists y. done.
    + apply elem_of_in1d_children in Hx as (p & Hp & Hpx). right.
      exists p. split; [done|]. by eapply rtc_l.
Qed.

Lemma bfs_complete fuel ct (n d : Z) (out : list Z) :
  bfs_from_cluster_tree fuel ct n = Ok out → rtc (edge ct) n d → d ∈ out.
Proof.
  intros Hrun Hnd. apply bfs_loop_complete in Hrun as [_ Hrun].
  apply (Hrun n); [by left|done].
Qed.

Lemma bfs_sound fuel ct (n d : Z) (out : list Z) :
  bfs_from_cluster_tree fuel ct n = Ok out → d ∈ out → rtc (edge ct) n d.
Proof.
  intros Hrun Hd. destruct (bfs_loop_sound _ _ _ _ _ Hrun d Hd) as [Hin|(x & Hx & Hxd)].
  - by apply elem_of_nil in Hin.
  - apply list_elem_of_singleton in Hx. by subst.
Qed.

Lemma ordered_edge ct (p c : Z) : ordered ct → edge ct p c → p < c.
Proof.
  intros Hord (r & Hr & <- & <-). unfold ordered in Hord.
  rewrite Forall_forall in Hord. by apply Hord.
Qed.

Lemma ordered_rtc ct (a b : Z) : ordered ct → rtc (edge ct) a b → a ≤ b.
Proof.
  intros Hord. induction 1 as [|x y z Hxy _ IH]; [lia|].
  apply (ordered_edge _ _ _ Hord) in Hxy. lia.
Qed.

Lemma ordered_tc ct (a b : Z) : ordered ct → tc (edge ct) a b → a < b.
Proof.
  intros Hord. induction 1 as [x y Hxy|x y z Hxy _ IH];
    apply (ordered_edge _ _ _ Hord) in Hxy; lia.
Qed.

Lemma max_child_ge ct r : r ∈ ct → child r ≤ max_child ct.
Proof.
  unfold max_child. induction ct as [|r' ct IH]; intros Hr.
  - by apply elem_of_nil in Hr.
  - apply elem_of_cons in Hr as [->|Hr]; rewrite fmap_cons; cbn [foldr]; [lia|].
    specialize (IH Hr). lia.
Qed.

Lemma min_parent_le ct r : r ∈ ct → min_parent ct ≤ parent r.
Proof.
  unfold min_parent. induction ct as [|r' ct IH]; intros Hr.
  - by apply elem_of_nil in Hr.
  - apply elem_of_cons in Hr as [->|Hr]; rewrite fmap_cons; cbn [foldr]; [lia|].
    specialize (IH Hr). lia.
Qed.

Lemma ranked_edge ct (rank : Z → Z) (lo hi p c : Z) :
  ranked ct rank lo hi → edge ct p c → lo ≤ rank p ∧ rank p < rank c ∧ rank c ≤ hi.
Proof.
  intros Hrk (r & Hr & <- & <-). unfold ranked in Hrk.
  rewrite Forall_forall in Hrk. by apply Hrk.
Qed.

Lemma ranked_tc ct (rank : Z → Z) (lo hi a b : Z) :
  ranked ct rank lo hi → tc (edge ct) a b → rank a < rank b.
Proof.
  intros Hrk. induction 1 as [x y Hxy|x y z Hxy _ IH];
    apply (ranked_edge _ _ _ _ _ _ Hrk) in Hxy; lia.
Qed.

Lemma ordered_ranked ct : ordered ct → ranked ct (λ x, x) (min_parent ct) (max_child ct).
Proof.
  unfold ordered, ranked. rewrite !Forall_forall. intros Hord r Hr.
  pose proof (Hord r Hr). pose proof (max_child_ge _ _ Hr).
  pose proof (min_parent_le _ _ Hr). lia.
Qed.

Lemma bfs_loop_terminates ct (rank : Z → Z) (lo hi : Z) :
  ranked ct rank lo hi →
  ∀ fuel tp acc l,
    (∀ x, x ∈ tp → l ≤ rank x) → (Z.to_nat (hi - l) + 2 ≤ fuel)%nat →
    ∃ out, bfs_loop fuel ct tp acc = Ok out.
Proof.
  intros Hrk. induction fuel as [|fuel IH]; intros tp acc l Hl Hfuel; [lia|].
  destruct tp as [|z tp]; simpl; [eauto|].
  destruct (in1d_children ct (z :: tp)) as [|c next] eqn:Hnext.
  { destruct fuel; simpl; eauto. }
  rewrite <- Hnext.
  assert (Hbnd : ∀ x, x ∈ in1d_children ct (z :: tp) → l + 1 ≤ rank x ≤ hi).
  { intros x Hx. apply elem_of_in1d_children in Hx as (p & Hp & Hpx).
    pose proof (ranked_edge _ _ _ _ _ _ Hrk Hpx). apply Hl in Hp. lia. }
  assert (l + 1 ≤ rank c ≤ hi) by (apply Hbnd; rewrite Hnext; by left).
  apply (IH _ _ (l + 1)); [intros x Hx; by apply Hbnd|lia].
Qed.

Lemma bfs_terminates_ranked ct (rank : Z → Z) (lo hi : Z) (fuel : nat) :
  ranked ct rank lo hi → (Z.to_nat (hi - lo) + 2 ≤ fuel)%nat → bfs_total fuel ct.
Proof.
  intros Hrk Hfuel n. unfold bfs_from_cluster_tree.
  destruct fuel as [|fuel]; [lia|]. simpl.
  destruct (in1d_children ct [n]) as [|c next] eqn:Hnext.
  { destruct fuel; simpl; eauto. }
  rewrite <- Hnext.
  assert (Hbnd : ∀ x, x ∈ in1d_children ct [n] → lo + 1 ≤ rank x ≤ hi).
  { intros x Hx. apply elem_of_in1d_children in Hx as (p & Hp & Hpx).
    pose proof (ranked_edge _ _ _ _ _ _ Hrk Hpx). lia. }
  assert (lo + 1 ≤ rank c ≤ hi) by (apply Hbnd; rewrite Hnext; by left).
  apply (bfs_loop_terminates ct rank lo hi Hrk fuel _ _ (lo + 1));
    [intros x Hx; by apply Hbnd|lia].
Qed.

Lemma bfs_terminates ct (fuel : nat) :
  ordered ct → (enough_fuel ct ≤ fuel)%nat → bfs_total fuel ct.
Proof.
  intros Hord Hfuel. eapply bfs_terminates_ranked; [by apply ordered_ranked|done].
Qed.

End Bfs.

(** ** Cluster selection *)

Section Select.
Context {F : Type} `{Scalar F}.
Implicit Types (ct t : list (CondensedTreeRecord F)).
Implicit Types (stability : gmap Z F) (is_cluster : gmap Z bool).

Lemma lookup_foldl_true (l : list Z) is_cluster (k : Z) :
  foldl (λ d cluster, <[cluster := true]> d) is_cluster l !! k
  = if decide (k ∈ l) then Some true else is_cluster !! k.
Proof.
  revert is_cluster. induction l as [|a l IH]; intros d; cbn [foldl].
  - rewrite decide_False; [done|]. apply not_elem_of_nil.
  - rewrite IH. destruct (decide (k ∈ l)) as [Hl|Hl].
    + rewrite decide_True; [done|by right].
    + destruct (decide (a = k)) as [->|Hne].
      * rewrite decide_True; [|by left]. apply lookup_insert_eq.
      * rewrite decide_False; [by apply lookup_insert_ne|].
        intros [?|?]%elem_of_cons; congruence.
Qed.

Lemma lookup_all_selected (l : list Z) (k : Z) :
  all_selected l !! k = if decide (k ∈ l) then Some true else None.
Proof. unfold all_selected. rewrite lookup_foldl_true. by rewrite lookup_empty. Qed.

Lemma lookup_absorb (node : Z) (sub_nodes : list Z) is_cluster (k : Z) :
  absorb node sub_nodes is_cluster !! k
  = if decide (k ∈ sub_nodes ∧ k ≠ node) then Some false else is_cluster !! k.
Proof.
  unfold absorb. revert is_cluster.
  induction sub_nodes as [|a l IH]; intros d; cbn [foldl].
  - rewrite decide_False; [done|]. intros [Hk _]. by apply elem_of_nil in Hk.
  - rewrite IH. destruct (decide (k ∈ l ∧ k ≠ node)) as [[Hl Hn]|Hl].
    + rewrite decide_True; [done|]. split; [by right|done].
    + destruct (decide (a ≠ node)) as [Ha|Ha].
      * destruct (decide (a = k)) as [->|Hne].
        -- rewrite decide_True; [|split; [by left|done]]. apply lookup_insert_eq.
        -- rewrite lookup_insert_ne by done. rewrite decide_False; [done|].
           rewrite elem_of_cons. intros [[->|?] ?]; [done|]. by apply Hl.
      * apply dec_stable in Ha. rewrite decide_False; [done|].
        rewrite elem_of_cons. intros [[->|?] ?]; [done|]. by apply Hl.
Qed.

Lemma elem_of_selected is_cluster (k : Z) :
  k ∈ selected is_cluster ↔ is_cluster !! k = Some true.
Proof.
  unfold selected. rewrite list_elem_of_fmap. split.
  - intros ([k' b] & -> & Hkv). apply list_elem_of_filter in Hkv as [Hb Hkv].
    simpl in *. subst b. by apply elem_of_map_to_list in Hkv.
  - intros Hk. exists (k, true). split; [done|].
    apply list_elem_of_filter. split; [done|]. by apply elem_of_map_to_list.
Qed.

(** *** The node list *)

Lemma node_list_prefix stability :
  ∃ rest, merge_sort Z.ge (elements (dom stability)) = node_list_of stability ++ rest.
Proof.
  unfold node_list_of. destruct (merge_sort Z.ge (elements (dom stability))) as [|a l] eqn:E.
  - by exists [].
  - rewrite <- E. exists [List.last (merge_sort Z.ge (elements (dom stability))) 0].
    apply app_removelast_last. by rewrite E.
Qed.

#[local] Instance Zge_total : Total Z.ge.
Proof. intros x y. lia. Qed.
#[local] Instance Zge_trans : Transitive Z.ge.
Proof. intros x y z. lia. Qed.

Lemma sorted_keys_NoDup stability :
  NoDup (merge_sort Z.ge (elements (dom stability))).
Proof.
  rewrite merge_sort_Permutation. apply NoDup_elements.
Qed.

Lemma node_list_NoDup stability : NoDup (node_list_of stability).
Proof.
  destruct (node_list_prefix stability) as [rest E].
  pose proof (sorted_keys_NoDup stability) as Hnd. rewrite E in Hnd.
  by apply NoDup_app in Hnd as (? & _ & _).
Qed.

Lemma node_list_dom stability (k : Z) :
  k ∈ node_list_of stability → k ∈ dom stability.
Proof.
  intros Hk. destruct (node_list_prefix stability) as [rest E].
  apply elem_of_elements. rewrite <- (merge_sort_Permutation Z.ge), E.
  apply elem_of_app. by left.
Qed.

(** The list is in strictly descending order. *)
Lemma node_list_descending stability (pre post : list Z) (n : Z) :
  node_list_of stability = pre ++ n :: post →
  (∀ m, m ∈ pre → n < m) ∧ (∀ m, m ∈ post → m < n).
Proof.
  intros Hsplit. destruct (node_list_prefix stability) as [rest E].
  pose proof (sorted_keys_NoDup stability) as Hnd.
  pose proof (StronglySorted_merge_sort Z.ge (elements (dom stability))) as Hs.
  rewrite E, Hsplit in Hnd, Hs. rewrite <- app_assoc in Hnd, Hs.
  split; intros m Hm.
  - apply NoDup_app in Hnd as (_ & Hdis & _).
    assert (m ≠ n) by (intros ->; apply (Hdis n Hm); by left).
    enough (Z.ge m n) by lia.
    apply (StronglySorted_app_1_elem_of _ _ _ _ _ Hs Hm). by left.
  - apply NoDup_app in Hnd as (_ & _ & Hnd). cbn [app] in Hnd.
    apply NoDup_cons in Hnd as [Hn _].
    assert (m ≠ n). { intros ->. apply Hn, elem_of_app. by left. }
    apply StronglySorted_app_1_r in Hs. cbn [app] in Hs.
    apply StronglySorted_cons in Hs as [Hs _]. rewrite Forall_forall in Hs.
    enough (Z.ge n m) by lia. apply Hs, elem_of_app. by left.
Qed.

(** The candidates are the keys of [stability] except the smallest one. *)
Lemma elem_of_node_list (stability : gmap Z F) (k : Z) :
  k ∈ node_list_of stability ↔
  k ∈ dom stability ∧ ∃ m, m ∈ dom stability ∧ m < k.
Proof.
  pose proof (sorted_keys_NoDup stability) as Hnd.
  pose proof (StronglySorted_merge_sort Z.ge (elements (dom stability))) as Hs.
  assert (Hdom : ∀ x, x ∈ merge_sort Z.ge (elements (dom stability)) ↔ x ∈ dom stability).
  { intros x. by rewrite merge_sort_Permutation, elem_of_elements. }
  unfold node_list_of.
  destruct (merge_sort Z.ge (elements (dom stability))) as [|a l] eqn:E
    using rev_ind.
  - split; [by intros ?%elem_of_nil|]. intros [Hk _]. by apply Hdom in Hk.
  - clear IHl. rewrite removelast_last.
    apply NoDup_app in Hnd as (_ & Hdis & _).
    setoid_rewrite <- Hdom. split.
    + intros Hk. split; [apply elem_of_app; by left|]. exists a. split.
      * apply elem_of_app. right. by left.
      * assert (k ≠ a) by (intros ->; apply (Hdis a Hk); by left).
        enough (Z.ge k a) by lia.
        apply (StronglySorted_app_1_elem_of _ _ _ _ _ Hs Hk). by left.
    + intros [Hk (m & Hm & Hlt)]. apply elem_of_app in Hk as [Hk|Hk]; [done|].
      apply list_elem_of_singleton in Hk as ->.
      apply elem_of_app in Hm as [Hm|Hm].
      * assert (Z.ge m a); [|lia].
        apply (StronglySorted_app_1_elem_of _ _ _ _ _ Hs Hm). by left.
      * apply list_elem_of_singleton in Hm. lia.
Qed.
(** *** One iteration *)

Lemma stabilities_total stability (cs : list Z) :
  (∀ c, c ∈ cs → c ∈ dom stability) → ∃ vs, stabilities stability cs = Ok vs.
Proof.
  induction cs as [|c cs IH]; intros Hcs; cbn [stabilities]; [eauto|].
  destruct (getitem_is_Some stability c) as [v ->].
  { apply elem_of_dom, Hcs. by left. }
  destruct IH as [vs ->]; [intros ??; apply Hcs; by right|]. simpl. eauto.
Qed.

(** What [select_step] does, read off the code. *)
Lemma select_step_Ok fuel ct (node : Z) stability is_cluster st' :
  select_step fuel ct node (stability, is_cluster) = Ok st' →
  ∃ vs own,
    stabilities stability (child <$> children_of ct node) = Ok vs ∧
    stability !! node = Some own ∧
    ((s_ltb own (np_sum vs) = true ∧
      st' = (<[node := np_sum vs]> stability, <[node := false]> is_cluster)) ∨
     (s_ltb own (np_sum vs) = false ∧
      ∃ sub_nodes, bfs_from_cluster_tree fuel ct node = Ok sub_nodes ∧
        st' = (stability, absorb node sub_nodes is_cluster))).
Proof.
  unfold select_step. intros Hrun.
  apply bind_Ok in Hrun as (vs & Hvs & Hrun).
  apply bind_Ok in Hrun as (own & Hown & Hrun).
  apply getitem_Ok in Hown. exists vs, own. split_and!; [done..|].
  destruct (s_ltb own (np_sum vs)).
  - left. injection Hrun as <-. done.
  - right. split; [done|].
    apply bind_Ok in Hrun as (subs & Hsubs & [= <-]). eauto.
Qed.

Lemma select_step_total fuel ct (node : Z) stability is_cluster :
  bfs_total fuel ct →
  Forall (λ r, child r ∈ dom stability) ct → node ∈ dom stability →
  ∃ st', select_step fuel ct node (stability, is_cluster) = Ok st'.
Proof.
  intros Hbfs Hdom Hnode. unfold select_step.
  destruct (stabilities_total stability (child <$> children_of ct node)) as [vs ->].
  { intros c (r & -> & Hr)%list_elem_of_fmap.
    apply list_elem_of_filter in Hr as [_ Hr].
    rewrite Forall_forall in Hdom. by apply Hdom. }
  destruct (getitem_is_Some stability node) as [own ->]; [by apply elem_of_dom|].
  simpl. destruct (s_ltb own (np_sum vs)); [eauto|].
  destruct (Hbfs node) as [subs ->]. simpl. eauto.
Qed.

Lemma select_step_dom fuel ct (node : Z) stability is_cluster stability' is_cluster' :
  select_step fuel ct node (stability, is_cluster) = Ok (stability', is_cluster') →
  dom stability' = dom stability.
Proof.
  intros (vs & own & _ & Hown & [[_ [= -> ->]]|[_ (subs & _ & [= -> ->])]])%select_step_Ok;
    [|done].
  apply dom_insert_lookup_L. by exists own.
Qed.

(** Only the entry of the current node of [stability] is written. *)
Lemma select_step_stability_ne fuel ct (node k : Z) stability is_cluster
    stability' is_cluster' :
  select_step fuel ct node (stability, is_cluster) = Ok (stability', is_cluster') →
  k ≠ node → stability' !! k = stability !! k.
Proof.
  intros (vs & own & _ & Hown & [[_ [= -> ->]]|[_ (subs & _ & [= -> ->])]])%select_step_Ok Hk;
    [|done].
  by rewrite lookup_insert_ne.
Qed.

(** A flag is only ever cleared. *)
Lemma select_step_false fuel ct (node k : Z) stability is_cluster
    stability' is_cluster' :
  select_step fuel ct node (stability, is_cluster) = Ok (stability', is_cluster') →
  is_cluster !! k = Some false → is_cluster' !! k = Some false.
Proof.
  intros (vs & own & _ & Hown & [[_ [= -> ->]]|[_ (subs & _ & [= -> ->])]])%select_step_Ok Hk.
  - rewrite lookup_insert. by case_decide.
  - rewrite lookup_absorb. by case_decide.
Qed.

Lemma select_step_true fuel ct (node k : Z) stability is_cluster
    stability' is_cluster' :
  select_step fuel ct node (stability, is_cluster) = Ok (stability', is_cluster') →
  is_cluster' !! k = Some true → is_cluster !! k = Some true.
Proof.
  intros (vs & own & _ & Hown & [[_ [= -> ->]]|[_ (subs & _ & [= -> ->])]])%select_step_Ok.
  - rewrite lookup_insert. by case_decide.
  - rewrite lookup_absorb. by case_decide.
Qed.

(** On an ordered tree an iteration touches no flag of a smaller id. *)
Lemma select_step_below fuel ct (node k : Z) stability is_cluster
    stability' is_cluster' :
  ordered ct →
  select_step fuel ct node (stability, is_cluster) = Ok (stability', is_cluster') →
  k < node → is_cluster' !! k = is_cluster !! k.
Proof.
  intros Hord (vs & own & _ & Hown & [[_ [= -> ->]]|[_ (subs & Hsubs & [= -> ->])]])%select_step_Ok Hk.
  - rewrite lookup_insert_ne; [done|lia].
  - rewrite lookup_absorb. rewrite decide_False; [done|]. intros [Hin _].
    apply (bfs_sound _ _ _ _ _ Hsubs) in Hin.
    apply (ordered_rtc _ _ _ Hord) in Hin. lia.
Qed.

(** *** The loop *)

Lemma select_run_false fuel ct (l : list Z) (k : Z) (st st' : gmap Z F * gmap Z bool) :
  for_each (select_step fuel ct) l st = Ok st' →
  st.2 !! k = Some false → st'.2 !! k = Some false.
Proof.
  intros Hrun Hk.
  apply (for_each_invariant (λ s, s.2 !! k = Some false) _ _ _ _) in Hrun; [done| |done].
  intros a [s1 i1] [s2 i2] _ H1 Hstep. by eapply select_step_false.
Qed.

Lemma select_run_true fuel ct (l : list Z) (k : Z) (st st' : gmap Z F * gmap Z bool) :
  for_each (select_step fuel ct) l st = Ok st' →
  st'.2 !! k = Some true → st.2 !! k = Some true.
Proof.
  revert st. induction l as [|a l IH]; intros st Hrun Hk; simpl in Hrun.
  - by injection Hrun as ->.
  - apply bind_Ok in Hrun as ([s1 i1] & Hstep & Hrun). destruct st as [s0 i0].
    eapply select_step_true; [done|]. by apply (IH _ Hrun).
Qed.

Lemma select_run_stability fuel ct (l : list Z) (k : Z) (st st' : gmap Z F * gmap Z bool) :
  for_each (select_step fuel ct) l st = Ok st' →
  k ∉ l → st'.1 !! k = st.1 !! k.
Proof.
  revert st. induction l as [|a l IH]; intros st Hrun Hk; simpl in Hrun.
  - by injection Hrun as ->.
  - apply bind_Ok in Hrun as ([s1 i1] & Hstep & Hrun). destruct st as [s0 i0].
    rewrite (IH _ Hrun) by (intros ?; apply Hk; by right).
    eapply select_step_stability_ne; [done|]. intros ->. apply Hk. by left.
Qed.

Lemma select_run_below fuel ct (l : list Z) (k : Z) (st st' : gmap Z F * gmap Z bool) :
  ordered ct →
  for_each (select_step fuel ct) l st = Ok st' →
  (∀ m, m ∈ l → k < m) → st'.2 !! k = st.2 !! k.
Proof.
  intros Hord. revert st. induction l as [|a l IH]; intros st Hrun Hk; simpl in Hrun.
  - by injection Hrun as ->.
  - apply bind_Ok in Hrun as ([s1 i1] & Hstep & Hrun). destruct st as [s0 i0].
    rewrite (IH _ Hrun) by (intros ??; apply Hk; by right).
    eapply select_step_below; [done..|]. apply Hk. by left.
Qed.

Lemma select_run_total fuel ct (l : list Z) stability0 (st : gmap Z F * gmap Z bool) :
  bfs_total fuel ct →
  Forall (λ r, child r ∈ dom stability0) ct →
  (∀ n, n ∈ l → n ∈ dom stability0) →
  dom st.1 = dom stability0 →
  ∃ st', for_each (select_step fuel ct) l st = Ok st' ∧ dom st'.1 = dom stability0.
Proof.
  intros Hbfs Hdom Hl Hst.
  apply (for_each_total (λ s, dom s.1 = dom stability0)); [|done].
  intros a [s1 i1] Ha Hs1. simpl in Hs1.
  destruct (select_step_total fuel ct a s1 i1) as [[s2 i2] Hstep];
    [done|by rewrite Hs1|rewrite Hs1; by apply Hl|].
  exists (s2, i2). split; [done|]. simpl.
  rewrite <- Hs1. by eapply select_step_dom.
Qed.

(** The run of [select_loop], cut at the iteration of a node [n]. *)
Lemma select_loop_split fuel t stability (pre post : list Z) (n : Z) :
  let ct := cluster_tree_of t in
  ordered ct → (enough_fuel ct ≤ fuel)%nat →
  Forall (λ r, child r ∈ dom stability) ct →
  node_list_of stability = pre ++ n :: post →
  ∃ st1 st2 st3,
    for_each (select_step fuel ct) pre
      (stability, all_selected (node_list_of stability)) = Ok st1 ∧
    select_step fuel ct n st1 = Ok st2 ∧
    for_each (select_step fuel ct) post st2 = Ok st3 ∧
    select_loop fuel t stability = Ok st3 ∧
    st1.2 !! n = Some true.
Proof.
  intros ct Hord Hfuel Hdom Hsplit.
  pose proof (bfs_terminates ct fuel Hord Hfuel) as Hbfs.
  assert (Hin : ∀ k, k ∈ pre ++ n :: post → k ∈ dom stability).
  { intros k Hk. apply node_list_dom. by rewrite Hsplit. }
  destruct (select_run_total fuel ct pre stability
              (stability, all_selected (node_list_of stability)))
    as ([s1 i1] & Hpre & Hd1); [done..| |done|].
  { intros k Hk. apply Hin, elem_of_app. by left. }
  destruct (select_run_total fuel ct [n] stability (s1, i1))
    as ([s2 i2] & Hn & Hd2); [done..| |done|].
  { intros k Hk%list_elem_of_singleton. subst. apply Hin, elem_of_app. right. by left. }
  destruct (select_run_total fuel ct post stability (s2, i2))
    as ([s3 i3] & Hpost & Hd3); [done..| |done|].
  { intros k Hk. apply Hin, elem_of_app. right. by right. }
  simpl in Hn. apply bind_Ok in Hn as (st2 & Hn & [= ->]).
  exists (s1, i1), (s2, i2), (s3, i3). split_and!; [done..| |].
  - unfold select_loop. fold ct. cbv zeta. rewrite Hsplit in Hpre |- *.
    rewrite for_each_app, Hpre. simpl. by rewrite Hn.
  - destruct (node_list_descending _ _ _ _ Hsplit) as [Hlt _].
    rewrite (select_run_below _ _ _ n _ _ Hord Hpre Hlt). simpl.
    rewrite lookup_all_selected, decide_True; [done|].
    rewrite Hsplit. apply elem_of_app. right. by left.
Qed.

(** A node whose iteration has run is not returned together with one of its
    proper descendants. *)
Lemma select_step_excludes fuel ct (n d : Z) (st1 st2 : gmap Z F * gmap Z bool) :
  select_step fuel ct n st1 = Ok st2 → tc (edge ct) n d → d ≠ n →
  st2.2 !! n = Some false ∨ st2.2 !! d = Some false.
Proof.
  intros Hn Hnd Hne. destruct st1 as [s1 i1].
  apply select_step_Ok in Hn
    as (vs & own & _ & _ & [[_ ->]|[_ (subs & Hsubs & ->)]]); simpl.
  - left. apply lookup_insert_eq.
  - right. rewrite lookup_absorb, decide_True; [done|]. split.
    + eapply bfs_complete; [done|]. by apply tc_rtc.
    + done.
Qed.

(** C1.  [_select_clusters] returns, and at the iteration of each node [n]
    of the node list (the keys of [stability] in descending order without
    the smallest one, the root), with [own = stability[n]] and [vs] the
    current stabilities of the direct cluster-children of [n]:
    if [np.sum(vs) > own], then [n] is not in the returned list and
    [stability[n]] holds that sum in the state in which every later node
    (hence every ancestor of [n]) is evaluated, and at the end;
    otherwise the flag of [n] is still set after its iteration and no proper
    descendant of [n] in the cluster tree is in the returned list. *)
Theorem select_clusters_decision fuel t stability (pre post : list Z) (n : Z) :
  let ct := cluster_tree_of t in
  let init := (stability, all_selected (node_list_of stability)) in
  ordered ct → (enough_fuel ct ≤ fuel)%nat →
  Forall (λ r, child r ∈ dom stability) ct →
  node_list_of stability = pre ++ n :: post →
  ∃ (stability1 : gmap Z F) (is_cluster1 : gmap Z bool) (vs : list F) (own : F)
    (stability3 : gmap Z F) (is_cluster3 : gmap Z bool),
    for_each (select_step fuel ct) pre init = Ok (stability1, is_cluster1) ∧
    stabilities stability1 (child <$> children_of ct n) = Ok vs ∧
    stability1 !! n = Some own ∧
    select_loop fuel t stability = Ok (stability3, is_cluster3) ∧
    _select_clusters fuel t stability = Ok (selected is_cluster3) ∧
    if s_ltb own (np_sum vs)
    then
      ((n ∉ selected is_cluster3) ∧
       ∀ post1 post2 st, post = post1 ++ post2 →
         for_each (select_step fuel ct) (pre ++ n :: post1) init = Ok st →
         st.1 !! n = Some (np_sum vs))
    else
      ((∃ st2, for_each (select_step fuel ct) (pre ++ [n]) init = Ok st2 ∧
               st2.2 !! n = Some true) ∧
       ∀ d, tc (edge ct) n d → d ∉ selected is_cluster3).
Proof.
  intros ct init Hord Hfuel Hdom Hsplit.
  destruct (select_loop_split fuel t stability pre post n Hord Hfuel Hdom Hsplit)
    as ([s1 i1] & st2 & [s3 i3] & Hpre & Hn & Hpost & Hloop & Hflag).
  fold ct in Hpre, Hn, Hpost. fold init in Hpre. simpl in Hflag.
  destruct (select_step_Ok _ _ _ _ _ _ Hn) as (vs & own & Hvs & Hown & Hcases).
  exists s1, i1, vs, own, s3, i3. split_and!; [done..| |].
  { unfold _select_clusters. by rewrite Hloop. }
  destruct (s_ltb own (np_sum vs)).
  - destruct Hcases as [[_ ->]|[? _]]; [|done]. split.
    + rewrite elem_of_selected.
      pose proof (select_run_false _ _ _ n _ _ Hpost) as Hf. simpl in Hf.
      rewrite Hf; [done|]. apply lookup_insert_eq.
    + intros post1 post2 st -> Hrun.
      rewrite for_each_app, Hpre in Hrun. cbn [mbind res_bind] in Hrun.
      rewrite for_each_cons, Hn in Hrun. cbn [mbind res_bind] in Hrun. rewrite (select_run_stability _ _ _ n _ _ Hrun).
      * simpl. apply lookup_insert_eq.
      * pose proof (node_list_NoDup stability) as Hnd. rewrite Hsplit in Hnd.
        apply NoDup_app in Hnd as (_ & _ & Hnd). apply NoDup_cons in Hnd as [Hnd _].
        intros ?. apply Hnd, elem_of_app. by left.
  - destruct Hcases as [[? _]|[_ (subs & Hsubs & ->)]]; [done|]. split.
    + exists (s1, absorb n subs i1). split.
      * rewrite for_each_app, Hpre. cbn [mbind res_bind].
        by rewrite for_each_cons, Hn.
      * simpl. rewrite lookup_absorb, decide_False; [done|]. by intros [_ ?].
    + intros d Hd. rewrite elem_of_selected.
      assert (d ≠ n) by (apply (ordered_tc _ _ _ Hord) in Hd; lia).
      destruct (select_step_excludes _ _ _ d _ _ Hn Hd) as [Hf|Hf]; [done|..];
        simpl in Hf.
      * rewrite lookup_absorb, decide_False in Hf; [congruence|]. by intros [_ ?].
      * apply (select_run_false _ _ _ d _ _ Hpost) in Hf. simpl in Hf. congruence.
Qed.

(** C2.  On a cluster tree without cycles (some ranking of the ids grows
    along its edges; the ids themselves do when children have larger ids
    than their parents) whose cluster children all have a stability,
    [_select_clusters] returns, and no returned cluster is a proper ancestor
    of another returned cluster: the result is an antichain of the cluster
    tree. *)
Theorem select_clusters_antichain fuel t stability (rank : Z → Z) (lo hi : Z) :
  let ct := cluster_tree_of t in
  ranked ct rank lo hi → (Z.to_nat (hi - lo) + 2 ≤ fuel)%nat →
  Forall (λ r, child r ∈ dom stability) ct →
  ∃ out, _select_clusters fuel t stability = Ok out ∧
    ∀ a b, a ∈ out → b ∈ out → ¬ tc (edge ct) a b.
Proof.
  intros ct Hrk Hfuel Hdom.
  pose proof (bfs_terminates_ranked ct rank lo hi fuel Hrk Hfuel) as Hbfs.
  destruct (select_run_total fuel ct (node_list_of stability) stability
              (stability, all_selected (node_list_of stability)))
    as ([s3 i3] & Hloop & _); [done..|apply node_list_dom|done|].
  exists (selected i3). split.
  { unfold _select_clusters, select_loop. fold ct. cbv zeta. by rewrite Hloop. }
  intros a b Ha Hb Hab. apply elem_of_selected in Ha, Hb.
  assert (Ha0 : a ∈ node_list_of stability).
  { apply (select_run_true _ _ _ a _ _ Hloop) in Ha. simpl in Ha.
    rewrite lookup_all_selected in Ha. by case_decide. }
  apply list_elem_of_split in Ha0 as (pre & post & Hsplit).
  rewrite Hsplit in Hloop at 1.
  apply for_each_split in Hloop as (st1 & st2 & _ & Hn & Hpost).
  assert (b ≠ a) by (apply (ranked_tc _ _ _ _ _ _ Hrk) in Hab; intros ->; lia).
  destruct (select_step_excludes _ _ _ b _ _ Hn Hab) as [Hf|Hf]; [done|..];
    apply (select_run_false _ _ _ _ _ _ Hpost) in Hf; simpl in Hf; congruence.
Qed.

End Select.

(** *** Selection on the rationals *)

Lemma Q_ltb_tie (a b : Q) : (a == b)%Q → Q_ltb b a = false.
Proof.
  intros Hab. unfold Q_ltb. apply negb_false_iff, Qle_bool_iff.
  rewrite Hab. apply Qle_refl.
Qed.

(** C6.  When, at the iteration of a node [n], the summed stability of the
    direct cluster-children of [n] equals [stability[n]], the parent wins:
    the flag of [n] stays set, [stability] is left as it is, and every
    proper descendant of [n] in the cluster tree is deselected at once and
    is not in the list [_select_clusters] returns. *)
Theorem select_clusters_tie fuel (t : list (CondensedTreeRecord Q))
    (stability : gmap Z Q) (pre post : list Z) (n : Z)
    (stability1 : gmap Z Q) (is_cluster1 : gmap Z bool) (vs : list Q) (own : Q) :
  let ct := cluster_tree_of t in
  let init := (stability, all_selected (node_list_of stability)) in
  ordered ct → (enough_fuel ct ≤ fuel)%nat →
  Forall (λ r, child r ∈ dom stability) ct →
  node_list_of stability = pre ++ n :: post →
  for_each (select_step fuel ct) pre init = Ok (stability1, is_cluster1) →
  stabilities stability1 (child <$> children_of ct n) = Ok vs →
  stability1 !! n = Some own →
  (np_sum vs == own)%Q →
  ∃ is_cluster2 out,
    for_each (select_step fuel ct) (pre ++ [n]) init = Ok (stability1, is_cluster2) ∧
    is_cluster2 !! n = Some true ∧
    _select_clusters fuel t stability = Ok out ∧
    ∀ d, tc (edge ct) n d → is_cluster2 !! d = Some false ∧ d ∉ out.
Proof.
  intros ct init Hord Hfuel Hdom Hsplit Hpre Hvs Hown Htie.
  destruct (select_loop_split fuel t stability pre post n Hord Hfuel Hdom Hsplit)
    as (st1 & st2 & [s3 i3] & Hpre' & Hn & Hpost & Hloop & Hflag).
  fold ct in Hpre', Hn, Hpost. fold init in Hpre'.
  rewrite Hpre in Hpre'. injection Hpre' as <-. simpl in Hflag.
  destruct (select_step_Ok _ _ _ _ _ _ Hn) as (vs' & own' & Hvs' & Hown' & Hcases).
  rewrite Hvs in Hvs'. injection Hvs' as <-.
  rewrite Hown in Hown'. injection Hown' as <-.
  destruct Hcases as [[Hlt _]|[_ (subs & Hsubs & ->)]].
  { change (Q_ltb own (np_sum vs) = true) in Hlt.
    rewrite (Q_ltb_tie _ _ Htie) in Hlt. done. }
  exists (absorb n subs is_cluster1), (selected i3). split_and!.
  - rewrite for_each_app, Hpre. cbn [mbind res_bind]. by rewrite for_each_cons, Hn.
  - rewrite lookup_absorb, decide_False; [done|]. by intros [_ ?].
  - unfold _select_clusters. by rewrite Hloop.
  - intros d Hd.
    assert (Hf : absorb n subs is_cluster1 !! d = Some false).
    { rewrite lookup_absorb, decide_True; [done|]. split.
      - eapply bfs_complete; [done|]. by apply tc_rtc.
      - apply (ordered_tc _ _ _ Hord) in Hd. lia. }
    split; [done|]. rewrite elem_of_selected.
    apply (select_run_false _ _ _ d _ _ Hpost) in Hf. simpl in Hf. congruence.
Qed.

(** *** The selection example of the specification *)

Example scenario_selection :
  _select_clusters 10 scenario_tree scenario_stability = Ok [2; 1].
Proof. vm_compute. reflexivity. Qed.

Lemma scenario_ordered : ordered (cluster_tree_of scenario_tree).
Proof. unfold ordered. by_evaluation. Defined.

Lemma scenario_fuel : (enough_fuel (cluster_tree_of scenario_tree) ≤ 10)%nat.
Proof. vm_compute. lia. Defined.

Lemma scenario_stability_dom :
  Forall (λ r, child r ∈ dom scenario_stability) (cluster_tree_of scenario_tree).
Proof. by_evaluation. Defined.

Lemma tie_stability_dom :
  Forall (λ r, child r ∈ dom tie_stability) (cluster_tree_of scenario_tree).
Proof. by_evaluation. Defined.

Lemma select_clusters_decision_witness :
  ∃ is_cluster3,
    _select_clusters 10 scenario_tree scenario_stability = Ok (selected is_cluster3) ∧
    ∀ d, tc (edge (cluster_tree_of scenario_tree)) 1 d → d ∉ selected is_cluster3.
Proof.
  destruct (select_clusters_decision 10 scenario_tree scenario_stability
              [4; 3; 2] [] 1 scenario_ordered scenario_fuel scenario_stability_dom)
    as (s1 & i1 & vs & own & s3 & i3 & Hpre & Hvs & Hown & _ & Hsel & Hdec).
  { vm_compute. reflexivity. }
  vm_compute in Hpre. injection Hpre as <- <-.
  vm_compute in Hvs. injection Hvs as <-.
  vm_compute in Hown. injection Hown as <-.
  exists i3. split; [exact Hsel|]. exact (proj2 Hdec).
Defined.

Lemma scenario_ranked : ranked (cluster_tree_of scenario_tree) (λ x, x) 0 4.
Proof. unfold ranked. by_evaluation. Defined.

Lemma select_clusters_antichain_witness :
  ∃ out, _select_clusters 10 scenario_tree scenario_stability = Ok out ∧
    ∀ a b, a ∈ out → b ∈ out → ¬ tc (edge (cluster_tree_of scenario_tree)) a b.
Proof.
  apply (select_clusters_antichain 10 scenario_tree scenario_stability
           (λ x, x) 0 4 scenario_ranked); [vm_compute; lia|].
  exact scenario_stability_dom.
Defined.

Lemma select_clusters_tie_witness :
  ∃ is_cluster2 out,
    for_each (select_step 10 (cluster_tree_of scenario_tree)) ([4; 3; 2] ++ [1])
      (tie_stability, all_selected (node_list_of tie_stability))
    = Ok (tie_stability, is_cluster2) ∧
    is_cluster2 !! 1 = Some true ∧
    _select_clusters 10 scenario_tree tie_stability = Ok out ∧
    ∀ d, tc (edge (cluster_tree_of scenario_tree)) 1 d →
         is_cluster2 !! d = Some false ∧ d ∉ out.
Proof.
  apply (select_clusters_tie 10 scenario_tree tie_stability [4; 3; 2] [] 1
           tie_stability (all_selected [4; 3; 2; 1]) [2%Q; 2%Q] 4%Q
           scenario_ordered scenario_fuel tie_stability_dom).
  - vm_compute. reflexivity.
  - vm_compute. reflexivity.
  - vm_compute. reflexivity.
  - vm_compute. reflexivity.
  - vm_compute. reflexivity.
Defined.

(** ** Layout *)

Lemma elem_of_range_down (hi lo c : Z) : c ∈ range_down hi lo ↔ lo ≤ c ≤ hi.
Proof.
  unfold range_down. rewrite list_elem_of_fmap. split.
  - intros (i & -> & Hi). apply elem_of_seq in Hi. lia.
  - intros Hc. exists (Z.to_nat (hi - c)). split; [lia|].
    apply elem_of_seq. lia.
Qed.

Lemma range_down_NoDup (hi lo : Z) : NoDup (range_down hi lo).
Proof.
  unfold range_down. apply NoDup_fmap_2; [|apply NoDup_seq].
  intros i j. lia.
Qed.

Lemma length_range_down (hi lo : Z) :
  length (range_down hi lo) = Z.to_nat (hi - lo + 1).
Proof. unfold range_down. by rewrite length_fmap, length_seq. Qed.

(** The range is walked downwards. *)
Lemma range_down_descending (hi lo c : Z) (pre post : list Z) :
  range_down hi lo = pre ++ c :: post →
  (∀ m, m ∈ pre → c < m) ∧ (∀ m, m ∈ post → m < c).
Proof.
  unfold range_down. intros Hsplit.
  apply fmap_app_inv in Hsplit as (is1 & is2 & -> & Hc & Hseq).
  symmetry in Hc. apply fmap_cons_inv in Hc as (i & is3 & -> & -> & ->).
  assert (Hs : StronglySorted lt (is1 ++ i :: is3)).
  { rewrite <- Hseq. clear. generalize 0%nat.
    induction (Z.to_nat (hi - lo + 1)) as [|n IH]; intros s; simpl; constructor.
    - apply IH.
    - apply Forall_forall. intros j Hj%elem_of_seq. lia. }
  split; intros m (j & -> & Hj)%list_elem_of_fmap.
  - enough (j < i)%nat by lia.
    apply (StronglySorted_app_1_elem_of _ _ _ _ _ Hs Hj). by left.
  - apply StronglySorted_app_1_r, StronglySorted_cons in Hs as [Hs _].
    rewrite Forall_forall in Hs. apply Hs in Hj. lia.
Qed.

Lemma foldl_max_ge (x : Z) (l : list Z) :
  x ≤ foldl Z.max x l ∧ ∀ y, y ∈ l → y ≤ foldl Z.max x l.
Proof.
  revert x. induction l as [|a l IH]; intros x; simpl.
  - split; [lia|]. intros y Hy. by apply elem_of_nil in Hy.
  - destruct (IH (Z.max x a)) as [H1 H2]. split; [lia|].
    intros y [->|Hy]%elem_of_cons; [lia|by apply H2].
Qed.

Lemma foldl_min_le (x : Z) (l : list Z) :
  foldl Z.min x l ≤ x ∧ ∀ y, y ∈ l → foldl Z.min x l ≤ y.
Proof.
  revert x. induction l as [|a l IH]; intros x; simpl.
  - split; [lia|]. intros y Hy. by apply elem_of_nil in Hy.
  - destruct (IH (Z.min x a)) as [H1 H2]. split; [lia|].
    intros y [->|Hy]%elem_of_cons; [lia|by apply H2].
Qed.

Lemma column_max_ge (l : list Z) (m y : Z) : column_max l = Ok m → y ∈ l → y ≤ m.
Proof.
  destruct l as [|x l]; [done|]. intros [= <-] Hy.
  destruct (foldl_max_ge x l) as [H1 H2].
  apply elem_of_cons in Hy as [->|Hy]; [done|by apply H2].
Qed.

Lemma column_min_le (l : list Z) (m y : Z) : column_min l = Ok m → y ∈ l → m ≤ y.
Proof.
  destruct l as [|x l]; [done|]. intros [= <-] Hy.
  destruct (foldl_min_le x l) as [H1 H2].
  apply elem_of_cons in Hy as [->|Hy]; [done|by apply H2].
Qed.

Lemma column_min_elem (l : list Z) (m : Z) : column_min l = Ok m → m ∈ l.
Proof.
  destruct l as [|x l]; [done|]. intros [= <-]. revert x.
  induction l as [|a l IH]; intros x; cbn [foldl]; [by left|].
  pose proof (IH (Z.min x a)) as Hx. apply elem_of_cons in Hx as [Hx|Hx].
  - rewrite Hx. destruct (Z.min_spec x a) as [[_ ->]|[_ ->]]; [by left|right; by left].
  - right. by right.
Qed.

Lemma lookup_foldl_insert {V : Type} (l : list (Z * V)) (d : gmap Z V) (k : Z) :
  is_Some (d !! k) ∨ k ∈ l.*1 →
  is_Some (foldl (λ (d : gmap Z V) kv, <[kv.1:=kv.2]> d) d l !! k).
Proof.
  revert d. induction l as [|[k' v] l IH]; intros d [Hd|Hin]; simpl.
  - done.
  - by apply elem_of_nil in Hin.
  - apply IH. left. rewrite lookup_insert. case_decide; [by eexists|done].
  - apply IH. rewrite fmap_cons in Hin. apply elem_of_cons in Hin as [->|Hin].
    + left. simpl. rewrite lookup_insert_eq. by eexists.
    + by right.
Qed.

Lemma lookup_dict_of_zip {V : Type} (keys : list Z) (values : list V) (k : Z) :
  length keys = length values → k ∈ keys → is_Some (dict_of_zip keys values !! k).
Proof.
  unfold dict_of_zip. intros Hlen Hk. apply lookup_foldl_insert. right.
  rewrite fst_zip; [done|lia].
Qed.

Section Layout.
Context {F : Type} `{Scalar F} `{Transcendental F}.
Implicit Types (t : list (CondensedTreeRecord F)).

Lemma split_rows_cluster_tree t (c : Z) :
  split_rows t c = children_of (cluster_tree_of t) c.
Proof.
  unfold split_rows, children_of, cluster_tree_of.
  by rewrite list_filter_filter.
Qed.

Lemma elem_of_split_rows t (c : Z) (r : CondensedTreeRecord F) :
  r ∈ split_rows t c ↔ r ∈ cluster_tree_of t ∧ parent r = c.
Proof.
  rewrite split_rows_cluster_tree. unfold children_of.
  rewrite list_elem_of_filter. tauto.
Qed.

Lemma elem_of_cluster_tree t (r : CondensedTreeRecord F) :
  r ∈ cluster_tree_of t ↔ r ∈ t ∧ 1 < child_size r.
Proof. unfold cluster_tree_of. rewrite list_elem_of_filter. tauto. Qed.

Lemma elem_of_get_leaves t (c : Z) :
  c ∈ get_leaves t ↔ c ∈ child <$> cluster_tree_of t ∧ split_rows t c = [].
Proof.
  unfold get_leaves. rewrite list_elem_of_filter, split_rows_cluster_tree.
  rewrite length_zero_iff_nil. tauto.
Qed.

Lemma initial_x_leaf t (leaf_separation : F) (c : Z) :
  c ∈ get_leaves t → is_Some (initial_x t leaf_separation !! c).
Proof.
  intros Hc. unfold initial_x. apply lookup_dict_of_zip; [|done].
  by rewrite length_fmap, length_seq.
Qed.

(** *** [get_plot_data] returns on binary condensed trees *)

Section Binary.
Variables (t : list (CondensedTreeRecord F)) (last_leaf root : Z).
Hypothesis Hwf : binary_condensed_tree t last_leaf root.

Lemma binary_parent_range (r : CondensedTreeRecord F) :
  r ∈ t → parent r ∈ range_down last_leaf root.
Proof using Hwf.
  pose proof Hwf as (Hmax & Hmin & _). intros Hr.
  assert (parent r ∈ parent <$> t) by (apply list_elem_of_fmap; eauto).
  apply elem_of_range_down. split.
  - by eapply column_min_le.
  - by eapply column_max_ge.
Qed.

Lemma binary_range (c : Z) :
  c ∈ range_down last_leaf root →
  children_of t c ≠ [] ∧
  (split_rows t c = [] ∨ ∃ rl rr, split_rows t c = [rl; rr]) ∧
  (c = root ∨ c ∈ child <$> cluster_tree_of t).
Proof using Hwf.
  pose proof Hwf as (_ & _ & _ & _ & Hall). rewrite Forall_forall in Hall.
  intros (Hne & Hlen & Hc)%Hall. split_and!; [|  |done].
  { intros E. rewrite E in Hne. simpl in Hne. lia. }
  destruct (split_rows t c) as [|rl [|rr [|??]]]; simpl in Hlen; eauto;
    destruct Hlen; done.
Qed.

(** A cluster with cluster children lies in the range and has two of them. *)
Lemma binary_internal (c : Z) :
  split_rows t c ≠ [] →
  c ∈ range_down last_leaf root ∧ ∃ rl rr, split_rows t c = [rl; rr].
Proof using Hwf.
  intros Hne. assert (Hc : c ∈ range_down last_leaf root).
  { destruct (split_rows t c) as [|r l] eqn:E; [done|].
    assert (Hr : r ∈ split_rows t c) by (rewrite E; by left).
    apply elem_of_split_rows in Hr as [Hr Hp]. apply elem_of_cluster_tree in Hr as [Hr _].
    rewrite <- Hp. by apply binary_parent_range. }
  split; [done|]. destruct (binary_range c Hc) as (_ & [?|?] & _); done.
Qed.

Lemma coords_step_ready (pre post : list Z) (c : Z) (xy : gmap Z F * gmap Z F) :
  range_down last_leaf root = pre ++ c :: post →
  coords_ready t root pre xy →
  ∃ xy', coords_step t c xy = Ok xy' ∧ coords_ready t root (pre ++ [c]) xy'.
Proof using Hwf.
  intros Hsplit (Hx & Hroot & Hy). destruct xy as [xs ys]. simpl in *.
  assert (Hc : c ∈ range_down last_leaf root).
  { rewrite Hsplit. apply elem_of_app. right. by left. }
  unfold coords_step.
  destruct (binary_range c Hc) as (_ & [E|(rl & rr & E)] & _); rewrite E.
  - exists (xs, ys). split; [done|]. split_and!; simpl; [|done|].
    + intros k [Hk|[Hk Hne]]; apply Hx; [by left|].
      apply elem_of_app in Hk as [Hk|Hk%list_elem_of_singleton]; [by right|].
      subst k. done.
    + intros p r Hp Hr.
      apply elem_of_app in Hp as [Hp|Hp%list_elem_of_singleton]; [by eapply Hy|].
      subst p. rewrite E in Hr. by apply elem_of_nil in Hr.
  - assert (Hchild : ∀ r, r ∈ split_rows t c → is_Some (xs !! child r)).
    { intros r Hr. apply Hx. apply elem_of_split_rows in Hr as [Hr Hp].
      destruct (decide (split_rows t (child r) = [])) as [Hleaf|Hint].
      - left. apply elem_of_get_leaves. split; [|done].
        apply list_elem_of_fmap. eauto.
      - right. split; [|done]. destruct (binary_internal _ Hint) as [Hin _].
        pose proof Hwf as (_ & _ & Hord & _).
        assert (c < child r).
        { subst c. unfold ordered in Hord. rewrite Forall_forall in Hord. by apply Hord. }
        rewrite Hsplit in Hin. apply elem_of_app in Hin as [Hin|Hin]; [done|].
        apply elem_of_cons in Hin as [?|Hin]; [lia|].
        destruct (range_down_descending _ _ _ _ _ Hsplit) as [_ Hlt].
        apply Hlt in Hin. lia. }
    destruct (getitem_is_Some xs (child rl)) as [xl ->].
    { apply Hchild. rewrite E. by left. }
    destruct (getitem_is_Some xs (child rr)) as [xr ->].
    { apply Hchild. rewrite E. right. by left. }
    cbn [mbind res_bind]. eexists. split; [done|]. split_and!; simpl.
    + intros k Hk. rewrite lookup_insert. case_decide; [by eexists|].
      apply Hx. destruct Hk as [Hk|[Hk Hne]]; [by left|]. right. split; [|done].
      apply elem_of_app in Hk as [Hk|Hk%list_elem_of_singleton]; done.
    + rewrite !lookup_insert. repeat case_decide; by eauto.
    + intros p r Hp Hr. rewrite !lookup_insert.
      apply elem_of_app in Hp as [Hp|Hp%list_elem_of_singleton].
      * repeat case_decide; eauto.
      * subst p. rewrite E in Hr.
        apply elem_of_cons in Hr as [->|Hr].
        { repeat case_decide; by eauto. }
        apply list_elem_of_singleton in Hr as ->. rewrite decide_True; by eauto.
Qed.

Lemma cluster_coords_ready (leaf_separation : F) :
  ∃ xs ys, cluster_coords t leaf_separation = Ok (last_leaf, root, xs, ys) ∧
           coords_ready t root (range_down last_leaf root) (xs, ys).
Proof using Hwf.
  unfold cluster_coords. pose proof Hwf as (-> & -> & _). cbn [mbind res_bind].
  destruct (for_each_prefix_total (coords_ready t root) (coords_step t)
              (range_down last_leaf root)
              (initial_x t leaf_separation, {[root := s_ofZ 0]}))
    as ([xs ys] & -> & Hready).
  - split_and!; simpl.
    + intros c [Hc|[Hc _]]; [by apply initial_x_leaf|]. by apply elem_of_nil in Hc.
    + rewrite lookup_singleton_eq. by eexists.
    + intros p r Hp. by apply elem_of_nil in Hp.
  - intros pre c post xy Hsplit Hxy. by eapply coords_step_ready.
  - cbn [mbind res_bind]. eauto.
Qed.

(** Every lookup of lines 77-124 is defined. *)
Lemma coords_ready_lookups (xs ys : gmap Z F) :
  coords_ready t root (range_down last_leaf root) (xs, ys) →
  (∀ c, c ∈ range_down last_leaf root → is_Some (xs !! c) ∧ is_Some (ys !! c)) ∧
  (∀ row, row ∈ cluster_tree_of t →
     is_Some (xs !! child row) ∧ is_Some (xs !! parent row) ∧
     is_Some (ys !! child row)).
Proof using Hwf.
  intros (Hx & Hroot & Hy). simpl in *.
  assert (Hrow : ∀ row, row ∈ cluster_tree_of t →
            parent row ∈ range_down last_leaf root ∧ row ∈ split_rows t (parent row)).
  { intros row Hrow. split.
    - apply binary_parent_range. by apply elem_of_cluster_tree in Hrow as [? _].
    - by apply elem_of_split_rows. }
  assert (Hxc : ∀ c, c ∈ child <$> cluster_tree_of t → is_Some (xs !! c)).
  { intros c Hc. apply Hx. destruct (decide (split_rows t c = [])) as [Hleaf|Hint].
    - left. by apply elem_of_get_leaves.
    - right. split; [|done]. by apply binary_internal. }
  assert (Hyc : ∀ c, c ∈ child <$> cluster_tree_of t → is_Some (ys !! c)).
  { intros c (row & -> & Hr)%list_elem_of_fmap. destruct (Hrow row Hr). by eapply Hy. }
  split.
  - intros c Hc. destruct (binary_range c Hc) as (_ & Hsp & [->|Hchild]).
    + split; [|done]. apply Hx. right. split; [done|].
      pose proof Hwf as (_ & _ & _ & Hlen & _). by destruct (split_rows t root).
    + split; [by apply Hxc|by apply Hyc].
  - intros row Hr. destruct (Hrow row Hr) as [Hp Hin]. split_and!.
    + apply Hxc, list_elem_of_fmap. eauto.
    + apply Hx. right. split; [done|]. intros E. rewrite E in Hin.
      by apply elem_of_nil in Hin.
    + apply Hyc, list_elem_of_fmap. eauto.
Qed.

End Binary.

Lemma np_max_total (l : list F) : l ≠ [] → ∃ m, np_max l = Ok m.
Proof. destruct l; [done|]. simpl. eauto. Qed.

Lemma bounds_step_total t (log_size : bool) (scaling : F) (xs ys : gmap Z F)
    (c : Z) (st : gmap Z (bounds F) * bars F) :
  is_Some (xs !! c) → is_Some (ys !! c) → children_of t c ≠ [] →
  ∃ st', bounds_step t log_size scaling xs ys c st = Ok st'.
Proof.
  intros Hx Hy Hne. unfold bounds_step. destruct st as [bs b].
  destruct (getitem_is_Some _ _ Hy) as [y ->].
  destruct (getitem_is_Some _ _ Hx) as [x ->].
  destruct (np_max_total (lambda <$> children_of t c)) as [m ->].
  { by destruct (children_of t c). }
  cbn [mbind res_bind].
  destruct (foldl _ _ _) as [[? ?] b']. eauto.
Qed.

Lemma line_step_total (log_size : bool) (scaling : F) (xs ys : gmap Z F)
    (row : CondensedTreeRecord F) (st : list (F * F) * list (F * F)) :
  is_Some (xs !! child row) → is_Some (xs !! parent row) →
  is_Some (ys !! child row) →
  ∃ st', line_step log_size scaling xs ys row st = Ok st'.
Proof.
  intros Hc Hp Hy. unfold line_step. destruct st as [lx ly].
  destruct (getitem_is_Some _ _ Hc) as [xc ->].
  destruct (getitem_is_Some _ _ Hp) as [xp ->].
  destruct (getitem_is_Some _ _ Hy) as [yc ->].
  cbn [mbind res_bind]. eauto.
Qed.

(** [get_plot_data] returns on a binary condensed tree, whatever the
    separation of the leaves and the size mode. *)
Lemma get_plot_data_total t (last_leaf root : Z) (leaf_separation : F)
    (log_size : bool) :
  binary_condensed_tree t last_leaf root →
  ∃ xs ys data,
    cluster_coords t leaf_separation = Ok (last_leaf, root, xs, ys) ∧
    (∀ c, c ∈ range_down last_leaf root → is_Some (xs !! c) ∧ is_Some (ys !! c)) ∧
    (∀ row, row ∈ cluster_tree_of t →
       is_Some (xs !! child row) ∧ is_Some (xs !! parent row) ∧
       is_Some (ys !! child row)) ∧
    get_plot_data t leaf_separation log_size = Ok data.
Proof.
  intros Hwf.
  destruct (cluster_coords_ready t last_leaf root Hwf leaf_separation)
    as (xs & ys & Hcoords & Hready).
  destruct (coords_ready_lookups t last_leaf root Hwf xs ys Hready) as [Hrange Hrows].
  exists xs, ys. unfold get_plot_data. rewrite Hcoords. cbn [mbind res_bind].
  match goal with |- context [for_each ?body (range_down _ _) ?s] =>
    destruct (for_each_total (λ _, True) body (range_down last_leaf root) s)
      as ([bs b] & -> & _); [|done|] end.
  { intros c st Hc _. destruct (Hrange c Hc) as [Hx Hy].
    destruct (bounds_step_total t log_size
                (size_value log_size (sum_sizes (children_of t root))) xs ys c st)
      as [st' ->]; [done..| |eauto].
    by destruct (binary_range t last_leaf root Hwf c Hc). }
  cbn [mbind res_bind].
  match goal with |- context [for_each ?body (cluster_tree_of t) ?s] =>
    destruct (for_each_total (λ _, True) body (cluster_tree_of t) s)
      as ([lx ly] & -> & _); [|done|] end.
  { intros row st Hrow _. destruct (Hrows row Hrow) as (Hc & Hp & Hy).
    destruct (line_step_total log_size
                (size_value log_size (sum_sizes (children_of t root))) xs ys row st)
      as [st' ->]; eauto. }
  cbn [mbind res_bind]. eauto 10.
Qed.

End Layout.

(** *** Trees on which [get_plot_data] raises *)

(** C4 does not hold of the code.  On a tree with a single cluster, whose
    cluster tree has no leaf, [get_plot_data] does not return empty bar and
    line sequences but raises [KeyError]: the root never gets an x
    coordinate and [cluster_x_coords[root]] of line 88 fails. *)
Theorem get_plot_data_single_cluster {F : Type} `{Scalar F} `{Transcendental F}
    (leaf_separation : F) (log_size : bool) :
  get_leaves (single_cluster_tree (F := F)) = [] ∧
  cluster_coords single_cluster_tree leaf_separation
  = Ok (0, 0, ∅, {[0 := s_ofZ 0]}) ∧
  get_plot_data single_cluster_tree leaf_separation log_size = Err KeyError.
Proof. done. Qed.

Lemma one_child_tree_wf {F : Type} `{Scalar F} :
  condensed_tree_wf (one_child_tree (F := F)) 1 0.
Proof.
  split_and!; [done|done|..].
  - repeat constructor.
  - repeat constructor.
  - by_evaluation.
  - apply Forall_forall. intros c [Hc|[Hc|Hc%elem_of_nil]%elem_of_cons]%elem_of_cons; [| |done];
      subst c; (split_and!; [vm_compute; lia|vm_compute; lia|]).
    + right. by_evaluation.
    + by left.
Qed.

Lemma get_plot_data_one_child {F : Type} `{Scalar F} `{Transcendental F}
    (leaf_separation : F) (log_size : bool) :
  get_plot_data one_child_tree leaf_separation log_size = Err KeyError.
Proof. done. Qed.

(** C3, as stated, fails: a tree that satisfies the invariants of the data
    model and has a cluster with exactly one cluster child makes
    [get_plot_data] raise. *)
Lemma get_plot_data_wf_counterexample :
  ¬ (∀ (t : list (CondensedTreeRecord R)) (last_leaf root : Z)
       (leaf_separation : R) (log_size : bool),
       condensed_tree_wf t last_leaf root →
       ∃ data, get_plot_data t leaf_separation log_size = Ok data).
Proof.
  intros Hclaim.
  destruct (Hclaim one_child_tree 1 0 1%R false one_child_tree_wf) as [data Hdata].
  by rewrite get_plot_data_one_child in Hdata.
Qed.

Lemma example_tree_binary {F : Type} `{Scalar F} :
  binary_condensed_tree (example_tree (F := F)) 4 0.
Proof.
  split_and!; [done|done|repeat constructor|done|].
  apply Forall_forall. intros c Hc. apply elem_of_range_down in Hc.
  assert (Hcases : c = 0 ∨ c = 1 ∨ c = 2 ∨ c = 3 ∨ c = 4) by lia.
  destruct Hcases as [->|[->|[->|[->| ->]]]];
    (split_and!; [vm_compute; lia|vm_compute; auto|]);
    first [by left|right; by_evaluation].
Qed.

(** C3, amended.  On a binary condensed tree (consecutive cluster ids from
    [root] to [last_leaf], each with rows of its own, the root with two
    cluster children and every other cluster a cluster child with two
    cluster children or none, children with larger ids than their parents)
    [get_plot_data] returns, and every coordinate it looks up for the bars,
    the bounding boxes and the lines is defined. *)
Theorem get_plot_data_returns {F : Type} `{Scalar F} `{Transcendental F}
    (t : list (CondensedTreeRecord F)) (last_leaf root : Z)
    (leaf_separation : F) (log_size : bool) :
  binary_condensed_tree t last_leaf root →
  ∃ xs ys data,
    cluster_coords t leaf_separation = Ok (last_leaf, root, xs, ys) ∧
    (∀ c, c ∈ range_down last_leaf root → is_Some (xs !! c) ∧ is_Some (ys !! c)) ∧
    (∀ row, row ∈ cluster_tree_of t →
       is_Some (xs !! child row) ∧ is_Some (xs !! parent row) ∧
       is_Some (ys !! child row)) ∧
    get_plot_data t leaf_separation log_size = Ok data.
Proof. apply get_plot_data_total. Qed.

Lemma get_plot_data_returns_witness :
  ∃ data, get_plot_data (example_tree (F := R)) 1%R true = Ok data.
Proof.
  destruct (get_plot_data_returns (example_tree (F := R)) 4 0 1%R true
              example_tree_binary) as (xs & ys & data & _ & _ & _ & Hdata).
  by exists data.
Defined.

(** *** What a returned layout tells about the run *)

Section Returned.
Context {F : Type} `{Scalar F} `{Transcendental F}.
Implicit Types (t : list (CondensedTreeRecord F)).

Lemma cluster_coords_Ok t (leaf_separation : F) (last_leaf root : Z)
    (xs ys : gmap Z F) :
  cluster_coords t leaf_separation = Ok (last_leaf, root, xs, ys) →
  column_max (parent <$> t) = Ok last_leaf ∧
  column_min (parent <$> t) = Ok root ∧
  for_each (coords_step t) (range_down last_leaf root)
    (initial_x t leaf_separation, {[root := s_ofZ 0]}) = Ok (xs, ys).
Proof.
  unfold cluster_coords. intros Hrun.
  apply bind_Ok in Hrun as (l & Hl & Hrun).
  apply bind_Ok in Hrun as (r & Hr & Hrun).
  apply bind_Ok in Hrun as ([xs' ys'] & Hxy & [= <- <- <- <-]). done.
Qed.

Lemma get_plot_data_Ok t (leaf_separation : F) (log_size : bool)
    (data : plot_data F) :
  get_plot_data t leaf_separation log_size = Ok data →
  ∃ last_leaf root xs ys bs b lx ly,
    let scaling := size_value log_size (sum_sizes (children_of t root)) in
    cluster_coords t leaf_separation = Ok (last_leaf, root, xs, ys) ∧
    for_each (bounds_step t log_size scaling xs ys) (range_down last_leaf root)
      (∅, mkBars [] [] [] []) = Ok (bs, b) ∧
    for_each (line_step log_size scaling xs ys) (cluster_tree_of t) ([], [])
      = Ok (lx, ly) ∧
    data = mkPlot (b_centers b) (b_tops b) (b_bottoms b) (b_widths b) lx ly bs.
Proof.
  unfold get_plot_data. intros Hrun.
  apply bind_Ok in Hrun as ([[[last_leaf root] xs] ys] & Hcoords & Hrun).
  apply bind_Ok in Hrun as ([bs b] & Hbounds & Hrun).
  apply bind_Ok in Hrun as ([lx ly] & Hlines & [= <-]).
  exists last_leaf, root, xs, ys, bs, b, lx, ly. done.
Qed.

(** Only the root and cluster children ever get a y coordinate. *)
Lemma coords_step_y_keys t (c k : Z) (xy xy' : gmap Z F * gmap Z F) :
  coords_step t c xy = Ok xy' → is_Some (xy'.2 !! k) →
  is_Some (xy.2 !! k) ∨ k ∈ child <$> cluster_tree_of t.
Proof.
  unfold coords_step. destruct xy as [xs ys].
  destruct (split_rows t c) as [|rl [|rr [|??]]] eqn:E; [by intros [= <-]; left..| |done].
  intros Hrun. apply bind_Ok in Hrun as (xl & _ & Hrun).
  apply bind_Ok in Hrun as (xr & _ & [= <-]). simpl.
  assert (Hin : ∀ r, r ∈ split_rows t c → child r ∈ child <$> cluster_tree_of t).
  { intros r [Hr _]%elem_of_split_rows. apply list_elem_of_fmap. eauto. }
  rewrite !lookup_insert. repeat case_decide; subst; intros Hk.
  - right. apply Hin. rewrite E. right. by left.
  - right. apply Hin. rewrite E. by left.
  - by left.
Qed.

Lemma cluster_coords_y_keys t (leaf_separation : F) (last_leaf root k : Z)
    (xs ys : gmap Z F) :
  cluster_coords t leaf_separation = Ok (last_leaf, root, xs, ys) →
  is_Some (ys !! k) → k = root ∨ k ∈ child <$> cluster_tree_of t.
Proof.
  intros (_ & _ & Hrun)%cluster_coords_Ok.
  refine (for_each_invariant
            (λ xy, is_Some (xy.2 !! k) → k = root ∨ k ∈ child <$> cluster_tree_of t)
            _ _ _ (xs, ys) _ _ Hrun).
  - intros c xy1 xy2 _ IH Hstep Hk.
    destruct (coords_step_y_keys _ _ _ _ _ Hstep Hk); auto.
  - simpl. rewrite lookup_singleton. case_decide; [by left|]. by intros [].
Qed.

Lemma bounds_step_Ok t (log_size : bool) (scaling : F) (xs ys : gmap Z F) (c : Z)
    (bs bs' : gmap Z (bounds F)) (b b' : bars F) :
  bounds_step t log_size scaling xs ys c (bs, b) = Ok (bs', b') →
  ∃ y x top,
    ys !! c = Some y ∧ xs !! c = Some x ∧
    np_max (lambda <$> children_of t c) = Ok top ∧
    dom bs' = {[c]} ∪ dom bs ∧
    ∃ size' lambda',
      foldl (λ st row, bar_step log_size (s_mul x scaling) row st)
        (size_value log_size (sum_sizes (children_of t c)), y, b)
        (rows_by_lambda (children_of t c)) = (size', lambda', b').
Proof.
  unfold bounds_step. intros Hrun.
  apply bind_Ok in Hrun as (y & Hy%getitem_Ok & Hrun).
  apply bind_Ok in Hrun as (x & Hx%getitem_Ok & Hrun).
  apply bind_Ok in Hrun as (top & Htop & Hrun).
  destruct (foldl _ _ _) as [[size' lambda'] b''] eqn:E.
  injection Hrun as <- <-. exists y, x, top. split_and!; [done..| |].
  - apply dom_insert_L.
  - eauto.
Qed.

Lemma bounds_loop_dom t (log_size : bool) (scaling : F) (xs ys : gmap Z F)
    (l : list Z) (st st' : gmap Z (bounds F) * bars F) :
  for_each (bounds_step t log_size scaling xs ys) l st = Ok st' →
  dom st'.1 = list_to_set l ∪ dom st.1 ∧ ∀ c, c ∈ l → is_Some (ys !! c).
Proof.
  revert st. induction l as [|c l IH]; intros [bs b] Hrun.
  - injection Hrun as <-. split.
    + by rewrite list_to_set_nil, (left_id_L ∅ (∪)).
    + intros c Hc. by apply elem_of_nil in Hc.
  - rewrite for_each_cons in Hrun. apply bind_Ok in Hrun as ([bs1 b1] & Hstep & Hrun).
    apply bounds_step_Ok in Hstep as (y & x & top & Hy & _ & _ & Hdom & _).
    apply IH in Hrun as [Hdom' Hys]. cbn [fst snd] in *. split.
    + rewrite Hdom', Hdom. apply set_eq. intros k.
      rewrite !elem_of_union, !elem_of_list_to_set, elem_of_cons, elem_of_singleton.
      tauto.
    + intros k [->|Hk]%elem_of_cons; [by eexists|by apply Hys].
Qed.

(** The boxes are one per id from the largest parent down to the root. *)
Lemma cluster_bounds_range t (leaf_separation : F) (log_size : bool)
    (data : plot_data F) :
  get_plot_data t leaf_separation log_size = Ok data →
  ∃ last_leaf root,
    column_max (parent <$> t) = Ok last_leaf ∧
    column_min (parent <$> t) = Ok root ∧
    dom (cluster_bounds data) = list_to_set (range_down last_leaf root) ∧
    size (cluster_bounds data) = Z.to_nat (last_leaf - root + 1).
Proof.
  intros (last_leaf & root & xs & ys & bs & b & lx & ly & Hcoords & Hbounds & _ & ->)%get_plot_data_Ok.
  pose proof (cluster_coords_Ok _ _ _ _ _ _ Hcoords) as (Hmax & Hmin & _).
  apply bounds_loop_dom in Hbounds as [Hdom _]. cbn [fst cluster_bounds] in *.
  rewrite dom_empty_L, (right_id_L ∅ (∪)) in Hdom.
  exists last_leaf, root. split_and!; [done..|].
  rewrite <- size_dom, Hdom, size_list_to_set by apply range_down_NoDup.
  apply length_range_down.
Qed.

End Returned.

(** C7, amended.  When every cluster child also occurs as a parent (every
    cluster has rows of its own), the bounding boxes [get_plot_data] returns
    are one per cluster-tree node: the keys of [cluster_bounds] are the root
    and the children of the rows with [child_size > 1], and their number is
    the number of these clusters. *)
Theorem cluster_bounds_count {F : Type} `{Scalar F} `{Transcendental F}
    (t : list (CondensedTreeRecord F)) (leaf_separation : F) (log_size : bool)
    (data : plot_data F) :
  Forall (λ r, child r ∈ parent <$> t) (cluster_tree_of t) →
  get_plot_data t leaf_separation log_size = Ok data →
  ∃ root, column_min (parent <$> t) = Ok root ∧
    dom (cluster_bounds data) = {[root]} ∪ list_to_set (child <$> cluster_tree_of t) ∧
    size (cluster_bounds data)
    = size ({[root]} ∪ list_to_set (child <$> cluster_tree_of t) : gset Z).
Proof.
  intros Hparents Hrun.
  apply get_plot_data_Ok in Hrun
    as (last_leaf & root & xs & ys & bs & b & lx & ly & Hcoords & Hbounds & _ & ->).
  pose proof (cluster_coords_Ok _ _ _ _ _ _ Hcoords) as (Hmax & Hmin & _).
  apply bounds_loop_dom in Hbounds as [Hdom Hys]. simpl in *.
  exists root. split; [done|].
  assert (Heq : dom bs = {[root]} ∪ list_to_set (child <$> cluster_tree_of t)).
  { rewrite Hdom, dom_empty_L, (right_id_L ∅ (∪)).
    apply set_eq. intros c.
    rewrite elem_of_list_to_set, elem_of_range_down, elem_of_union,
      elem_of_singleton, elem_of_list_to_set.
    split.
    - intros Hc. apply (cluster_coords_y_keys _ _ _ _ _ _ _ Hcoords).
      by apply Hys, elem_of_range_down.
    - assert (Hrange : ∀ p, p ∈ parent <$> t → root ≤ p ≤ last_leaf).
      { intros p Hp. split; [by eapply column_min_le|by eapply column_max_ge]. }
      intros [->|(r & -> & Hr)%list_elem_of_fmap].
      + apply Hrange. by eapply column_min_elem.
      + rewrite Forall_forall in Hparents. by apply Hrange, Hparents. }
  split; [done|]. by rewrite <- Heq, size_dom.
Qed.

Lemma example_tree_parents {F : Type} `{Scalar F} :
  Forall (λ r, child r ∈ parent <$> example_tree (F := F))
         (cluster_tree_of example_tree).
Proof. by_evaluation. Qed.

Lemma cluster_bounds_count_witness :
  ∃ data, get_plot_data (example_tree (F := R)) 1%R false = Ok data ∧
          size (cluster_bounds data) = 5%nat.
Proof.
  destruct (get_plot_data_total (example_tree (F := R)) 4 0 1%R false
              example_tree_binary) as (xs & ys & data & _ & _ & _ & Hdata).
  exists data. split; [done|].
  destruct (cluster_bounds_count example_tree 1%R false data
              example_tree_parents Hdata) as (root & Hroot & _ & ->).
  injection Hroot as <-. by vm_compute.
Defined.

(** ** Bar widths *)

Section Bars.
Context {F : Type} `{Scalar F} `{Transcendental F}.
Implicit Types (t rows : list (CondensedTreeRecord F)).

Lemma insert_sorted_Permutation (p : nat * F) (l : list (nat * F)) :
  insert_sorted p l ≡ₚ p :: l.
Proof.
  induction l as [|q l IH]; simpl; [done|].
  destruct (s_ltb q.2 p.2); [|done]. rewrite IH. apply Permutation_swap.
Qed.

Lemma np_argsort_Permutation (l : list F) : np_argsort l ≡ₚ seq 0 (length l).
Proof.
  unfold np_argsort.
  assert (Hsort : ∀ ps : list (nat * F), foldr insert_sorted [] ps ≡ₚ ps).
  { induction ps as [|p ps IH]; simpl; [done|].
    by rewrite insert_sorted_Permutation, IH. }
  rewrite Hsort, fst_zip; [done|]. by rewrite length_seq.
Qed.

Lemma omap_lookup_seq {A : Type} (l : list A) :
  omap (λ i, l !! i) (seq 0 (length l)) = l.
Proof.
  induction l as [|a l IH]; [done|]. cbn [length seq]. rewrite <- fmap_S_seq.
  cbn. f_equal. etrans; [|exact IH].
  generalize (seq 0 (length l)). intros js.
  induction js as [|i js IHjs]; [done|]. cbn. by rewrite IHjs.
Qed.

Lemma rows_by_lambda_Permutation rows : rows_by_lambda rows ≡ₚ rows.
Proof.
  unfold rows_by_lambda. rewrite np_argsort_Permutation, length_fmap.
  by rewrite omap_lookup_seq.
Qed.

Lemma sum_sizes_Permutation rows rows' :
  rows ≡ₚ rows' → sum_sizes rows = sum_sizes rows'.
Proof.
  unfold sum_sizes. intros Hp. apply foldr_permutation_proper; [apply _..| |by rewrite Hp].
  intros a b c. lia.
Qed.

Lemma Forall_children_of (P : CondensedTreeRecord F → Prop) t (c : Z) :
  Forall P t → Forall P (children_of t c).
Proof.
  rewrite !Forall_forall. intros Hall r [_ Hr]%list_elem_of_filter. by apply Hall.
Qed.

Lemma sum_sizes_cons (row : CondensedTreeRecord F) rows :
  sum_sizes (row :: rows) = child_size row + sum_sizes rows.
Proof. done. Qed.

Lemma bar_counts_positive rows (S : Z) (current_lambda : F) :
  Forall (λ r, 1 ≤ child_size r) rows → sum_sizes rows ≤ S →
  Forall (λ n, 1 ≤ n) (bar_counts rows S current_lambda).
Proof.
  revert S current_lambda. induction rows as [|row rows IH]; intros S lam Hpos HS;
    cbn [bar_counts]; [done|].
  apply Forall_cons in Hpos as [Hrow Hpos]. rewrite sum_sizes_cons in HS.
  assert (0 ≤ sum_sizes rows).
  { clear -Hpos. induction Hpos as [|r l Hr _ IH']; [done|]. rewrite sum_sizes_cons. lia. }
  apply Forall_app. split.
  - destruct (negb _); [|done]. apply Forall_singleton. lia.
  - apply IH; [done|lia].
Qed.

(** Each count is the size of the rows not yet processed, the row at which
    the bar is emitted included. *)
Lemma bar_counts_suffix rows (current_lambda : F) (n : Z) :
  n ∈ bar_counts rows (sum_sizes rows) current_lambda →
  ∃ rest, rest ≠ [] ∧ rest `suffix_of` rows ∧ n = sum_sizes rest.
Proof.
  revert current_lambda. induction rows as [|row rows IH]; intros lam;
    cbn [bar_counts]; [by intros ?%elem_of_nil|].
  intros [Hn|Hn]%elem_of_app.
  - destruct (negb _); [|by apply elem_of_nil in Hn].
    apply list_elem_of_singleton in Hn as ->. by exists (row :: rows).
  - rewrite sum_sizes_cons in Hn.
    replace (child_size row + sum_sizes rows - child_size row)
      with (sum_sizes rows) in Hn by lia.
    apply IH in Hn as (rest & Hne & Hsuf & ->). exists rest.
    split_and!; [done| |done]. by apply suffix_cons_r.
Qed.

(** The inner loop in linear mode appends the counts as numbers. *)
Lemma bar_loop_linear (center : F) rows (S : Z) (current_lambda : F) (b : bars F) :
  (∀ a c : Z, s_sub (s_ofZ a) (s_ofZ c) = s_ofZ (a - c)) →
  b_widths (foldl (λ st row, bar_step false center row st)
              (s_ofZ S, current_lambda, b) rows).2
  = b_widths b ++ (s_ofZ <$> bar_counts rows S current_lambda).
Proof.
  intros Hsub. revert S current_lambda b.
  induction rows as [|row rows IH]; intros S lam b; cbn [foldl bar_counts].
  - by rewrite app_nil_r.
  - unfold bar_step at 2. rewrite Hsub, IH, fmap_app, app_assoc. f_equal.
    destruct (negb _); simpl; [done|by rewrite app_nil_r].
Qed.

End Bars.

(** In log mode, on the reals, it appends their logarithms. *)
Lemma bar_loop_log (center : R) (rows : list (CondensedTreeRecord R)) (S : Z)
    (current_lambda : R) (b : bars R) :
  Forall (λ r, 1 ≤ child_size r) rows → sum_sizes rows ≤ S →
  b_widths (foldl (λ st row, bar_step true center row st)
              (ln (IZR S), current_lambda, b) rows).2
  = b_widths b ++ ((λ n, ln (IZR n)) <$> bar_counts rows S current_lambda).
Proof.
  revert S current_lambda b.
  induction rows as [|row rows IH]; intros S lam b Hpos HS; cbn [foldl bar_counts].
  - by rewrite app_nil_r.
  - apply Forall_cons in Hpos as [Hrow Hpos]. rewrite sum_sizes_cons in HS.
    assert (0 ≤ sum_sizes rows).
    { clear -Hpos. induction Hpos as [|r l Hr _ IH']; [done|]. rewrite sum_sizes_cons. lia. }
    unfold bar_step at 2. cbn [np_log np_exp R_transcendental s_sub s_ofZ R_scalar].
    rewrite exp_ln by (apply IZR_lt; lia). rewrite <- minus_IZR.
    rewrite IH by (done || lia). rewrite fmap_app, app_assoc. f_equal.
    destruct (negb _); simpl; [done|by rewrite app_nil_r].
Qed.

Lemma R_sub_ofZ (a c : Z) : s_sub (s_ofZ a) (s_ofZ c) = s_ofZ (a - c) :> R.
Proof. simpl. by rewrite minus_IZR. Qed.

Lemma Q_sub_ofZ (a c : Z) : s_sub (s_ofZ a) (s_ofZ c) = s_ofZ (a - c) :> Q.
Proof. simpl. unfold Qminus, Qplus, Qopp, inject_Z. simpl. f_equal. lia. Qed.

Section BarsOuter.
Context {F : Type} `{Scalar F} `{Transcendental F}.
Implicit Types (t rows : list (CondensedTreeRecord F)).

Lemma bounds_step_lookups t (log_size : bool) (scaling : F) (xs ys : gmap Z F)
    (c : Z) (st st' : gmap Z (bounds F) * bars F) :
  bounds_step t log_size scaling xs ys c st = Ok st' →
  is_Some (xs !! c) ∧ is_Some (ys !! c) ∧ children_of t c ≠ [].
Proof.
  destruct st as [bs b], st' as [bs' b'].
  intros (y & x & top & Hy & Hx & Htop & _)%bounds_step_Ok.
  split_and!; [by eexists..|]. intros E. by rewrite E in Htop.
Qed.

Lemma bounds_loop_lookups t (log_size : bool) (scaling : F) (xs ys : gmap Z F)
    (l : list Z) (st st' : gmap Z (bounds F) * bars F) :
  for_each (bounds_step t log_size scaling xs ys) l st = Ok st' →
  ∀ c, c ∈ l → is_Some (xs !! c) ∧ is_Some (ys !! c) ∧ children_of t c ≠ [].
Proof.
  revert st. induction l as [|c l IH]; intros st Hrun k Hk.
  - by apply elem_of_nil in Hk.
  - rewrite for_each_cons in Hrun. apply bind_Ok in Hrun as (st1 & Hstep & Hrun).
    apply elem_of_cons in Hk as [->|Hk]; [by eapply bounds_step_lookups|by eapply IH].
Qed.

Lemma bounds_loop_linear t (scaling : F) (xs ys : gmap Z F) (l : list Z)
    (st st' : gmap Z (bounds F) * bars F) :
  (∀ a c : Z, s_sub (s_ofZ a) (s_ofZ c) = s_ofZ (a - c)) →
  for_each (bounds_step t false scaling xs ys) l st = Ok st' →
  b_widths st'.2 = b_widths st.2 ++ (s_ofZ <$> (l ≫= cluster_counts t ys)).
Proof.
  intros Hsub. revert st. induction l as [|c l IH]; intros [bs b] Hrun.
  - injection Hrun as <-. by rewrite app_nil_r.
  - rewrite for_each_cons in Hrun. apply bind_Ok in Hrun as ([bs1 b1] & Hstep & Hrun).
    apply IH in Hrun as ->. cbn [snd].
    apply bounds_step_Ok in Hstep
      as (y & x & top & Hy & _ & _ & _ & size' & lambda' & Hloop).
    pose proof (bar_loop_linear (s_mul x scaling) (rows_by_lambda (children_of t c))
                  (sum_sizes (children_of t c)) y b Hsub) as Hw.
    cbn [size_value] in Hloop. rewrite Hloop in Hw. cbn [snd] in Hw.
    rewrite Hw, bind_cons, fmap_app, app_assoc. unfold cluster_counts at 2.
    by rewrite Hy.
Qed.

Lemma line_loop_lookups (log_size : bool) (scaling : F) (xs ys : gmap Z F)
    rows (st st' : list (F * F) * list (F * F)) :
  for_each (line_step log_size scaling xs ys) rows st = Ok st' →
  ∀ row, row ∈ rows →
    is_Some (xs !! child row) ∧ is_Some (xs !! parent row) ∧ is_Some (ys !! child row).
Proof.
  revert st. induction rows as [|r rows IH]; intros [lx ly] Hrun row Hrow.
  - by apply elem_of_nil in Hrow.
  - rewrite for_each_cons in Hrun. apply bind_Ok in Hrun as (st1 & Hstep & Hrun).
    apply elem_of_cons in Hrow as [->|Hrow]; [|by eapply IH].
    unfold line_step in Hstep.
    apply bind_Ok in Hstep as (xc & Hxc%getitem_Ok & Hstep).
    apply bind_Ok in Hstep as (xp & Hxp%getitem_Ok & Hstep).
    apply bind_Ok in Hstep as (yc & Hyc%getitem_Ok & _). eauto.
Qed.

Lemma cluster_counts_positive t (ys : gmap Z F) (c : Z) :
  Forall (λ r, 1 ≤ child_size r) t → Forall (λ n, 1 ≤ n) (cluster_counts t ys c).
Proof.
  intros Hpos. unfold cluster_counts. destruct (ys !! c) as [y|]; [|done].
  apply bar_counts_positive.
  - rewrite rows_by_lambda_Permutation. by apply Forall_children_of.
  - by rewrite (sum_sizes_Permutation _ _ (rows_by_lambda_Permutation _)).
Qed.

Lemma cluster_counts_suffix t (ys : gmap Z F) (c n : Z) :
  n ∈ cluster_counts t ys c →
  ∃ rest, rest ≠ [] ∧ rest `suffix_of` rows_by_lambda (children_of t c) ∧
          n = sum_sizes rest.
Proof.
  unfold cluster_counts. destruct (ys !! c) as [y|]; [|by intros ?%elem_of_nil].
  rewrite <- (sum_sizes_Permutation _ _ (rows_by_lambda_Permutation (children_of t c))).
  apply bar_counts_suffix.
Qed.

End BarsOuter.

Lemma bounds_step_log (t : list (CondensedTreeRecord R)) (scaling : R)
    (xs ys : gmap Z R) (c : Z) (st : gmap Z (bounds R) * bars R) :
  Forall (λ r, 1 ≤ child_size r) t →
  is_Some (xs !! c) → is_Some (ys !! c) → children_of t c ≠ [] →
  ∃ st', bounds_step t true scaling xs ys c st = Ok st' ∧
    b_widths st'.2
    = b_widths st.2 ++ ((λ n, ln (IZR n)) <$> cluster_counts t ys c).
Proof.
  intros Hpos [x Hx] [y Hy] Hne. destruct st as [bs b]. unfold bounds_step.
  rewrite (proj2 (getitem_Ok _ _ _) Hy), (proj2 (getitem_Ok _ _ _) Hx).
  destruct (np_max_total (lambda <$> children_of t c)) as [top ->].
  { by destruct (children_of t c). }
  cbn [mbind res_bind].
  pose proof (bar_loop_log (s_mul x scaling) (rows_by_lambda (children_of t c))
                (sum_sizes (children_of t c)) y b) as Hw.
  cbn [size_value np_log R_transcendental s_ofZ R_scalar].
  destruct (foldl _ _ _) as [[size' lambda'] b1] eqn:Hloop.
  eexists. split; [done|]. cbn [snd] in *. rewrite Hw.
  - unfold cluster_counts. by rewrite Hy.
  - rewrite rows_by_lambda_Permutation. by apply Forall_children_of.
  - by rewrite (sum_sizes_Permutation _ _ (rows_by_lambda_Permutation _)).
Qed.

Lemma bounds_loop_log (t : list (CondensedTreeRecord R)) (scaling : R)
    (xs ys : gmap Z R) (l : list Z) (st : gmap Z (bounds R) * bars R) :
  Forall (λ r, 1 ≤ child_size r) t →
  (∀ c, c ∈ l → is_Some (xs !! c) ∧ is_Some (ys !! c) ∧ children_of t c ≠ []) →
  ∃ st', for_each (bounds_step t true scaling xs ys) l st = Ok st' ∧
    b_widths st'.2
    = b_widths st.2 ++ ((λ n, ln (IZR n)) <$> (l ≫= cluster_counts t ys)).
Proof.
  intros Hpos. revert st. induction l as [|c l IH]; intros st Hl.
  - eexists. split; [done|]. by rewrite app_nil_r.
  - destruct (Hl c) as (Hx & Hy & Hne); [by left|].
    destruct (bounds_step_log t scaling xs ys c st Hpos Hx Hy Hne) as (st1 & Hstep & Hw1).
    destruct (IH st1) as (st' & Hrun & Hw); [intros k Hk; apply Hl; by right|].
    exists st'. split.
    + by rewrite for_each_cons, Hstep.
    + by rewrite Hw, Hw1, bind_cons, fmap_app, app_assoc.
Qed.

(** Without [log_size] the bar widths are positive integers, on every
    carrier on which the subtraction of integers is exact. *)
Lemma bar_widths_counts {F : Type} `{Scalar F} `{Transcendental F}
    (t : list (CondensedTreeRecord F)) (leaf_separation : F) (data : plot_data F) :
  (∀ a c : Z, s_sub (s_ofZ a) (s_ofZ c) = s_ofZ (a - c)) →
  Forall (λ r, 1 ≤ child_size r) t →
  get_plot_data t leaf_separation false = Ok data →
  ∃ counts, bar_widths data = s_ofZ <$> counts ∧ Forall (λ n, 1 ≤ n) counts.
Proof.
  intros Hsub Hpos Hrun.
  apply get_plot_data_Ok in Hrun
    as (last_leaf & root & xs & ys & bs & b & lx & ly & _ & Hbounds & _ & ->).
  pose proof (bounds_loop_linear _ _ _ _ _ _ _ Hsub Hbounds) as Hw.
  cbn [snd b_widths app] in Hw. eexists. split; [exact Hw|].
  apply Forall_bind, Forall_forall. intros c _. by apply cluster_counts_positive.
Qed.

Lemma bar_widths_positive_Q (L : Transcendental Q)
    (t : list (CondensedTreeRecord Q)) (leaf_separation : Q) (data : plot_data Q) :
  Forall (λ r, 1 ≤ child_size r) t →
  get_plot_data t leaf_separation false = Ok data →
  Forall (λ w, (0 < w)%Q) (bar_widths data).
Proof.
  intros Hpos Hrun.
  destruct (bar_widths_counts t leaf_separation data Q_sub_ofZ Hpos Hrun)
    as (counts & -> & Hcounts).
  apply Forall_fmap. eapply Forall_impl; [exact Hcounts|].
  intros n Hn. change (0 < inject_Z n)%Q. unfold Qlt, inject_Z. cbn [Qnum Qden].
  cbv beta in Hn. lia.
Qed.

(** C8.  In exact real arithmetic, when the run with [log_size=False]
    returns, so does the run with [log_size=True] on the same tree, with as
    many bars, and each of its bar widths is the natural logarithm of the
    point count that is the bar width at the same position of the other
    run. *)
Theorem log_size_bar_widths (t : list (CondensedTreeRecord R))
    (leaf_separation : R) (data : plot_data R) :
  Forall (λ r, 1 ≤ child_size r) t →
  get_plot_data t leaf_separation false = Ok data →
  ∃ data', get_plot_data t leaf_separation true = Ok data' ∧
    length (bar_widths data') = length (bar_widths data) ∧
    Forall2 (λ w' w, ∃ n : Z, 1 ≤ n ∧ w = IZR n ∧ w' = ln (IZR n))
            (bar_widths data') (bar_widths data).
Proof.
  intros Hpos Hrun.
  apply get_plot_data_Ok in Hrun
    as (last_leaf & root & xs & ys & bs & b & lx & ly & Hcoords & Hbounds & Hlines & ->).
  pose proof (bounds_loop_lookups _ _ _ _ _ _ _ _ Hbounds) as Hlook.
  pose proof (bounds_loop_linear _ _ _ _ _ _ _ R_sub_ofZ Hbounds) as Hw.
  pose proof (line_loop_lookups _ _ _ _ _ _ _ Hlines) as Hrows.
  cbn [snd b_widths app] in Hw.
  destruct (bounds_loop_log t (size_value true (sum_sizes (children_of t root)))
              xs ys (range_down last_leaf root) (∅, mkBars [] [] [] []) Hpos Hlook)
    as ([bs' b'] & Hbounds' & Hw').
  cbn [snd b_widths app] in Hw'.
  destruct (for_each_total (λ _, True)
              (line_step true (size_value true (sum_sizes (children_of t root))) xs ys)
              (cluster_tree_of t) ([], [])) as ([lx' ly'] & Hlines' & _); [|done|].
  { intros row st Hrow _. destruct (Hrows row Hrow) as (Hc & Hp & Hy).
    destruct (line_step_total true (size_value true (sum_sizes (children_of t root)))
                xs ys row st Hc Hp Hy) as [st' ->]. eauto. }
  eexists. split.
  { unfold get_plot_data. rewrite Hcoords. cbn [mbind res_bind].
    rewrite Hbounds'. cbn [mbind res_bind]. rewrite Hlines'. done. }
  cbn [bar_widths]. rewrite Hw, Hw'. split; [by rewrite !length_fmap|].
  apply Forall2_fmap, Forall_Forall2_diag.
  assert (Hcounts : Forall (λ n, 1 ≤ n)
                      (range_down last_leaf root ≫= cluster_counts t ys)).
  { apply Forall_bind, Forall_forall. intros c _. by apply cluster_counts_positive. }
  eapply Forall_impl; [exact Hcounts|]. intros n Hn. by exists n.
Qed.

(** C10.  Without [log_size], every bar width [get_plot_data] returns is
    strictly positive: it is the summed [child_size] of the rows of its
    cluster that are not yet processed when the bar is emitted, a non-empty
    tail of the rows in argsort order. *)
Theorem bar_widths_positive (t : list (CondensedTreeRecord R))
    (leaf_separation : R) (data : plot_data R) :
  Forall (λ r, 1 ≤ child_size r) t →
  get_plot_data t leaf_separation false = Ok data →
  Forall (λ w, (0 < w)%R ∧
               ∃ c rest, rest ≠ [] ∧
                 rest `suffix_of` rows_by_lambda (children_of t c) ∧
                 w = IZR (sum_sizes rest))
         (bar_widths data).
Proof.
  intros Hpos Hrun.
  apply get_plot_data_Ok in Hrun
    as (last_leaf & root & xs & ys & bs & b & lx & ly & Hcoords & Hbounds & Hlines & ->).
  pose proof (bounds_loop_linear _ _ _ _ _ _ _ R_sub_ofZ Hbounds) as Hw.
  cbn [snd b_widths app] in Hw. cbn [bar_widths]. rewrite Hw.
  apply Forall_fmap, Forall_forall. intros n Hn.
  apply list_elem_of_bind in Hn as (c & Hn & _).
  pose proof (cluster_counts_positive t ys c Hpos) as Hge.
  rewrite Forall_forall in Hge. apply Hge in Hn as Hn1.
  apply cluster_counts_suffix in Hn as (rest & Hne & Hsuf & ->).
  split; [apply IZR_lt; lia|]. by exists c, rest.
Qed.

Lemma example_tree_sizes {F : Type} `{Scalar F} :
  Forall (λ r, 1 ≤ child_size r) (example_tree (F := F)).
Proof. apply Forall_forall. intros r Hr. repeat (apply elem_of_cons in Hr as [->|Hr]; [simpl; lia|]). by apply elem_of_nil in Hr. Qed.

Lemma log_size_bar_widths_witness :
  ∃ data data',
    get_plot_data (example_tree (F := R)) 1%R false = Ok data ∧
    get_plot_data (example_tree (F := R)) 1%R true = Ok data' ∧
    length (bar_widths data') = length (bar_widths data).
Proof.
  destruct (get_plot_data_total (example_tree (F := R)) 4 0 1%R false
              example_tree_binary) as (xs & ys & data & _ & _ & _ & Hdata).
  destruct (log_size_bar_widths example_tree 1%R data example_tree_sizes Hdata)
    as (data' & Hdata' & Hlen & _).
  by exists data, data'.
Defined.

Lemma bar_widths_positive_witness :
  ∃ data,
    get_plot_data (example_tree (F := R)) 1%R false = Ok data ∧
    Forall (λ w, (0 < w)%R) (bar_widths data).
Proof.
  destruct (get_plot_data_total (example_tree (F := R)) 4 0 1%R false
              example_tree_binary) as (xs & ys & data & _ & _ & _ & Hdata).
  exists data. split; [done|].
  eapply Forall_impl; [exact (bar_widths_positive example_tree 1%R data
                               example_tree_sizes Hdata)|].
  by intros w [Hw _].
Defined.

(** ** The concrete scenario *)

Lemma scenario_coords (ls : Q) :
  cluster_coords scenario_tree ls = Ok (1, 0, scenario_x ls, scenario_y).
Proof. vm_compute. reflexivity. Qed.

Lemma scenario_plot_data (L : Transcendental Q) (ls : Q) :
  get_plot_data scenario_tree ls false = Ok (scenario_plot ls).
Proof. vm_compute. reflexivity. Qed.

(** One connector line per row of the cluster tree, on every tree. *)
Lemma line_loop_length {F : Type} `{Scalar F} `{Transcendental F}
    (log_size : bool) (scaling : F) (xs ys : gmap Z F)
    (rows : list (CondensedTreeRecord F)) (st st' : list (F * F) * list (F * F)) :
  for_each (line_step log_size scaling xs ys) rows st = Ok st' →
  length st'.1 = (length st.1 + length rows)%nat ∧
  length st'.2 = (length st.2 + length rows)%nat.
Proof.
  revert st. induction rows as [|row rows IH]; intros [lx ly] Hrun.
  - injection Hrun as <-. simpl. lia.
  - rewrite for_each_cons in Hrun. apply bind_Ok in Hrun as (st1 & Hstep & Hrun).
    apply IH in Hrun as [-> ->]. unfold line_step in Hstep.
    apply bind_Ok in Hstep as (xc & _ & Hstep).
    apply bind_Ok in Hstep as (xp & _ & Hstep).
    apply bind_Ok in Hstep as (yc & _ & [= <-]).
    cbn [fst snd length]. rewrite !length_app. simpl. lia.
Qed.

Lemma line_count {F : Type} `{Scalar F} `{Transcendental F}
    (t : list (CondensedTreeRecord F)) (leaf_separation : F) (log_size : bool)
    (data : plot_data F) :
  get_plot_data t leaf_separation log_size = Ok data →
  length (line_xs data) = length (cluster_tree_of t) ∧
  length (line_ys data) = length (cluster_tree_of t).
Proof.
  intros (last_leaf & root & xs & ys & bs & b & lx & ly & _ & _ & Hlines & ->)%get_plot_data_Ok.
  apply line_loop_length in Hlines. by cbn in Hlines.
Qed.

(** C5, as stated, fails: the code emits a connector line for each of the
    four rows of the cluster tree, not two. *)
Lemma scenario_lines_counterexample :
  ¬ (∀ (L : Transcendental Q) (leaf_separation : Q) (data : plot_data Q),
       get_plot_data scenario_tree leaf_separation false = Ok data →
       length (line_xs data) = 2%nat).
Proof.
  intros Hclaim.
  pose proof (Hclaim {| np_log := λ q, q; np_exp := λ q, q |} 1%Q _
                (scenario_plot_data _ _)) as Hlen.
  vm_compute in Hlen. discriminate.
Qed.

(** C5, amended.  On the four rows of the scenario, for every separation
    [ls] of the leaves: the leaves are 2, 3, 4 with x coordinates 0, [ls]
    and [2 ls]; the x coordinate of cluster 1 is the mean of those of 3 and
    4; clusters 1 and 2 have y coordinate 0.5; the loops visit the clusters
    1 and 0 ([last_leaf] is the largest parent, 1) and emit one bar and one
    bounding box for each of them, none for cluster 2; and there are four
    connector lines, one per row (0→1, 0→2, 1→3, 1→4). *)
Theorem scenario_layout (L : Transcendental Q) (ls : Q) :
  get_leaves scenario_tree = [2; 3; 4] ∧
  cluster_coords scenario_tree ls = Ok (1, 0, scenario_x ls, scenario_y) ∧
  (∃ x2 x3 x4 x1,
     scenario_x ls !! 2 = Some x2 ∧ scenario_x ls !! 3 = Some x3 ∧
     scenario_x ls !! 4 = Some x4 ∧ scenario_x ls !! 1 = Some x1 ∧
     (x2 == 0 ∧ x3 == ls ∧ x4 == 2 * ls)%Q ∧ x1 = mean2 x3 x4) ∧
  scenario_y !! 1 = Some (1 # 2)%Q ∧ scenario_y !! 2 = Some (1 # 2)%Q ∧
  get_plot_data scenario_tree ls false = Ok (scenario_plot ls) ∧
  (∃ x1 x0,
     scenario_x ls !! 1 = Some x1 ∧ scenario_x ls !! 0 = Some x0 ∧
     bar_centers (scenario_plot ls) = [(x1 * 100)%Q; (x0 * 100)%Q]) ∧
  bar_widths (scenario_plot ls) = [40%Q; 100%Q] ∧
  bar_bottoms (scenario_plot ls) = [(1 # 2)%Q; 0%Q] ∧
  dom (cluster_bounds (scenario_plot ls)) = {[1; 0]} ∧
  length (line_xs (scenario_plot ls)) = 4%nat ∧
  line_ys (scenario_plot ls)
  = [((1 # 2)%Q, (1 # 2)%Q); ((1 # 2)%Q, (1 # 2)%Q); (1%Q, 1%Q); (1%Q, 1%Q)].
Proof.
  split; [done|]. split; [apply scenario_coords|]. split.
  { exists (ls * 0)%Q, (ls * 1)%Q, (ls * 2)%Q, (((ls * 1) + (ls * 2)) / 2)%Q.
    split_and!; [done..| | | |done]; ring. }
  split; [done|]. split; [done|]. split; [apply scenario_plot_data|].
  split; [by eexists _, _|]. split_and!; done.
Qed.

Lemma scenario_tree_wf : condensed_tree_wf scenario_tree 1 0.
Proof.
  split_and!; [done|done|..].
  - repeat constructor.
  - repeat constructor.
  - by_evaluation.
  - apply Forall_forall. intros c Hc. apply elem_of_range_down in Hc.
    assert (Hcases : c = 0 ∨ c = 1) by lia.
    destruct Hcases as [->| ->]; (split_and!; [vm_compute; lia|vm_compute; lia|]).
    + by left.
    + right. by_evaluation.
Qed.

(** C7, as stated, fails: the loop of lines 77-104 builds a box for each id
    from [last_leaf], the largest parent, down to the root.  On the rows of
    the scenario, which satisfy the invariants of the data model, these are
    the clusters 1 and 0, while the cluster tree has five nodes. *)
Lemma cluster_bounds_count_counterexample :
  ¬ (∀ (L : Transcendental Q) (t : list (CondensedTreeRecord Q))
       (last_leaf root : Z) (leaf_separation : Q) (log_size : bool)
       (data : plot_data Q),
       condensed_tree_wf t last_leaf root →
       get_plot_data t leaf_separation log_size = Ok data →
       size (cluster_bounds data)
       = size ({[root]} ∪ list_to_set (child <$> cluster_tree_of t) : gset Z)).
Proof.
  intros Hclaim.
  pose proof (Hclaim {| np_log := λ q, q; np_exp := λ q, q |} scenario_tree 1 0
                1%Q false _ scenario_tree_wf (scenario_plot_data _ _)) as Hsize.
  vm_compute in Hsize. discriminate.
Qed.
(** ** Further properties of [bfs_from_cluster_tree] and [get_leaves] *)

Section BfsMore.
Context {F : Type} `{Scalar F}.
Implicit Types (ct t : list (CondensedTreeRecord F)).

Lemma bfs_loop_prefix fuel ct (tp acc out : list Z) :
  bfs_loop fuel ct tp acc = Ok out → acc `prefix_of` out.
Proof.
  revert tp acc. induction fuel as [|fuel IH]; intros tp acc Hrun.
  - destruct tp; simpl in Hrun; [|done]. by injection Hrun as <-.
  - destruct tp as [|z tp]; simpl in Hrun; [by injection Hrun as <-|].
    apply IH in Hrun. etrans; [|exact Hrun]. by apply prefix_app_r.
Qed.

(** From a node that reaches a cycle, an edge leads to another such node. *)
Lemma reaches_cycle_step ct (x a : Z) :
  rtc (edge ct) x a → tc (edge ct) a a →
  ∃ y, edge ct x y ∧ rtc (edge ct) y a.
Proof.
  intros Hxa Haa. apply rtc_inv in Hxa as [<-|(y & Hxy & Hya)]; [|eauto].
  inversion Haa as [? ? Hxx|? y ? Hxy Hyx]; subst.
  - exists x. done.
  - exists y. split; [done|]. by apply tc_rtc.
Qed.

Lemma bfs_loop_cycle fuel ct (tp acc : list Z) (a : Z) :
  tc (edge ct) a a → (∃ x, x ∈ tp ∧ rtc (edge ct) x a) →
  bfs_loop fuel ct tp acc = Err OutOfFuel.
Proof.
  intros Haa. revert tp acc. induction fuel as [|fuel IH]; intros tp acc (x & Hx & Hxa).
  - destruct tp; [by apply elem_of_nil in Hx|done].
  - destruct tp as [|z tp]; [by apply elem_of_nil in Hx|]. simpl. apply IH.
    destruct (reaches_cycle_step ct x a Hxa Haa) as (y & Hxy & Hya).
    exists y. split; [|done]. apply elem_of_in1d_children. eauto.
Qed.

Lemma NoDup_fmap_inj_on {A B : Type} (f : A → B) (l : list A) (x y : A) :
  NoDup (f <$> l) → x ∈ l → y ∈ l → f x = f y → x = y.
Proof.
  induction l as [|a l IH]; intros Hnd Hx Hy Hxy; [by apply elem_of_nil in Hx|].
  rewrite fmap_cons in Hnd. apply NoDup_cons in Hnd as [Ha Hnd].
  apply elem_of_cons in Hx as [->|Hx], Hy as [->|Hy]; [done| | |by apply IH].
  - exfalso. apply Ha. rewrite Hxy. apply list_elem_of_fmap. eauto.
  - exfalso. apply Ha. rewrite <- Hxy. apply list_elem_of_fmap. eauto.
Qed.

Lemma in1d_children_NoDup ct (tp : list Z) :
  NoDup (child <$> ct) → NoDup (in1d_children ct tp).
Proof.
  intros Hnd. unfold in1d_children.
  eapply sublist_NoDup; [exact Hnd|apply fmap_sublist, sublist_filter].
Qed.

Lemma ranked_rtc ct (rank : Z → Z) (lo hi a b : Z) :
  ranked ct rank lo hi → rtc (edge ct) a b → rank a ≤ rank b.
Proof.
  intros Hrk [->|Hab%(ranked_tc _ _ _ _ _ _ Hrk)]%rtc_tc; lia.
Qed.

Lemma bfs_loop_NoDup ct (rank : Z → Z) (lo hi n : Z) :
  ranked ct rank lo hi → NoDup (child <$> ct) →
  ∀ fuel tp acc out,
    NoDup (acc ++ tp) →
    (∀ x, x ∈ acc ++ tp → rtc (edge ct) n x) →
    (∀ r, r ∈ ct → child r ∈ acc ++ tp → child r ≠ n → parent r ∈ acc) →
    bfs_loop fuel ct tp acc = Ok out → NoDup out.
Proof.
  intros Hrk Hnd. induction fuel as [|fuel IH]; intros tp acc out Hnd1 Hreach Hpar Hrun.
  - destruct tp; simpl in Hrun; [|done]. injection Hrun as <-. by rewrite app_nil_r in Hnd1.
  - destruct tp as [|z tp]; simpl in Hrun.
    { injection Hrun as <-. by rewrite app_nil_r in Hnd1. }
    assert (Hfresh : ∀ x, x ∈ in1d_children ct (z :: tp) → x ∉ acc ++ z :: tp).
    { intros x Hx Hin.
      apply elem_of_in1d_children in Hx as (p & Hp & r & Hr & <- & <-).
      destruct (decide (child r = n)) as [Hn|Hn].
      - assert (rtc (edge ct) n (parent r)) as Hnp.
        { apply Hreach, elem_of_app. by right. }
        apply (ranked_rtc _ _ _ _ _ _ Hrk) in Hnp.
        unfold ranked in Hrk. rewrite Forall_forall in Hrk.
        specialize (Hrk r Hr). rewrite Hn in Hrk. lia.
      - apply NoDup_app in Hnd1 as (_ & Hdis & _).
        apply (Hdis (parent r)); [by apply Hpar|done]. }
    eapply IH; [| | |exact Hrun].
    + apply NoDup_app. split_and!; [done| |by apply in1d_children_NoDup].
      intros x Hx Hx'. by apply (Hfresh x).
    + intros x [Hx|Hx]%elem_of_app; [by apply Hreach|].
      apply elem_of_in1d_children in Hx as (p & Hp & Hpx).
      eapply rtc_r; [|exact Hpx]. apply Hreach, elem_of_app. by right.
    + intros r Hr [Hc|Hc]%elem_of_app Hne; [|].
      * apply elem_of_app in Hc as Hc'. destruct Hc' as [Hc'|Hc'].
        -- apply elem_of_app. left. by apply Hpar.
        -- apply elem_of_app. left. by apply Hpar.
      * apply elem_of_in1d_children in Hc as (p & Hp & r' & Hr' & <- & Hcc).
        rewrite (NoDup_fmap_inj_on child ct r r' Hnd Hr Hr' (eq_sym Hcc)).
        apply elem_of_app. by right.
Qed.

(** X1.  On a cluster tree without cycles, [bfs_from_cluster_tree] returns,
    given enough fuel, a list that starts with [bfs_root] and whose members
    are exactly the nodes reachable from [bfs_root] along the edges. *)
Theorem bfs_descendants ct (rank : Z → Z) (lo hi : Z) (fuel : nat) (n : Z) :
  ranked ct rank lo hi → (Z.to_nat (hi - lo) + 2 ≤ fuel)%nat →
  ∃ rest, bfs_from_cluster_tree fuel ct n = Ok (n :: rest) ∧
    ∀ d, d ∈ n :: rest ↔ rtc (edge ct) n d.
Proof.
  intros Hrk Hfuel.
  destruct (bfs_terminates_ranked ct rank lo hi fuel Hrk Hfuel n) as [out Hrun].
  assert (Hpre : [n] `prefix_of` out).
  { unfold bfs_from_cluster_tree in Hrun. destruct fuel as [|fuel]; [done|].
    simpl in Hrun. by apply bfs_loop_prefix in Hrun. }
  destruct Hpre as [rest ->]. exists rest. split; [done|].
  intros d. split; [by apply (bfs_sound fuel)|by apply (bfs_complete fuel)].
Qed.

(** X2.  If a cycle of the tree can be reached from [bfs_root], the loop of
    [bfs_from_cluster_tree] never ends: whatever the fuel, it runs out. *)
Theorem bfs_cycle_diverges ct (n a : Z) (fuel : nat) :
  rtc (edge ct) n a → tc (edge ct) a a →
  bfs_from_cluster_tree fuel ct n = Err OutOfFuel.
Proof.
  intros Hna Haa. apply (bfs_loop_cycle _ _ _ _ a Haa).
  exists n. split; [by left|done].
Qed.

(** X3.  On a tree without cycles in which every node is the child of at
    most one row, the result of [bfs_from_cluster_tree] lists no node
    twice. *)
Theorem bfs_no_duplicates ct (rank : Z → Z) (lo hi : Z) (fuel : nat) (n : Z)
    (out : list Z) :
  ranked ct rank lo hi → NoDup (child <$> ct) →
  bfs_from_cluster_tree fuel ct n = Ok out → NoDup out.
Proof.
  intros Hrk Hnd Hrun.
  apply (bfs_loop_NoDup ct rank lo hi n Hrk Hnd fuel [n] [] out); [| | |done].
  - apply NoDup_singleton.
  - intros x Hx. apply list_elem_of_singleton in Hx. by subst.
  - intros r _ Hc Hne. by apply list_elem_of_singleton in Hc.
Qed.

(** Every node of an acyclic cluster tree has a leaf below it. *)
Lemma leaf_below t (rank : Z → Z) (lo hi : Z) :
  ranked (cluster_tree_of t) rank lo hi →
  ∀ (k : nat) (c : Z),
    c ∈ child <$> cluster_tree_of t → (Z.to_nat (hi - rank c) ≤ k)%nat →
    ∃ l, l ∈ get_leaves t ∧ rtc (edge (cluster_tree_of t)) c l.
Proof.
  intros Hrk. induction k as [|k IH]; intros c Hc Hk.
  - exists c. split; [|done]. apply elem_of_get_leaves. split; [done|].
    destruct (split_rows t c) as [|r rows] eqn:Hsplit; [done|exfalso].
    assert (Hr : r ∈ split_rows t c) by (rewrite Hsplit; by left).
    apply elem_of_split_rows in Hr as [Hr <-].
    unfold ranked in Hrk. rewrite Forall_forall in Hrk. specialize (Hrk r Hr). lia.
  - destruct (split_rows t c) as [|r rows] eqn:Hsplit.
    { exists c. split; [|done]. by apply elem_of_get_leaves. }
    assert (Hr : r ∈ split_rows t c) by (rewrite Hsplit; by left).
    apply elem_of_split_rows in Hr as [Hr <-].
    pose proof Hrk as Hrk'. unfold ranked in Hrk'. rewrite Forall_forall in Hrk'.
    specialize (Hrk' r Hr).
    destruct (IH (child r)) as (l & Hl & Hreach).
    + apply list_elem_of_fmap. eauto.
    + lia.
    + exists l. split; [done|]. eapply rtc_l; [|exact Hreach]. exists r. done.
Qed.

(** X4.  In a cluster tree without cycles every cluster, parent or child of
    a row, has a descendant (possibly itself) that [get_leaves] returns. *)
Theorem get_leaves_below t (rank : Z → Z) (lo hi : Z) (r : CondensedTreeRecord F)
    (c : Z) :
  ranked (cluster_tree_of t) rank lo hi →
  r ∈ cluster_tree_of t → c = parent r ∨ c = child r →
  ∃ l, l ∈ get_leaves t ∧ rtc (edge (cluster_tree_of t)) c l.
Proof.
  intros Hrk Hr Hc.
  destruct (leaf_below t rank lo hi Hrk (Z.to_nat (hi - rank (child r))) (child r))
    as (l & Hl & Hreach); [apply list_elem_of_fmap; eauto|done|].
  exists l. split; [done|]. destruct Hc as [->| ->]; [|done].
  eapply rtc_l; [|exact Hreach]. exists r. done.
Qed.

End BfsMore.

Lemma bfs_descendants_witness :
  ∃ rest, bfs_from_cluster_tree 10 (cluster_tree_of scenario_tree) 1 = Ok (1 :: rest) ∧
    ∀ d, d ∈ 1 :: rest ↔ rtc (edge (cluster_tree_of scenario_tree)) 1 d.
Proof.
  apply (bfs_descendants _ (λ x, x) 0 4 10 1 scenario_ranked). simpl. lia.
Defined.

Lemma bfs_cycle_diverges_witness :
  bfs_from_cluster_tree 10 [mkRec 1 2 1%Q 5; mkRec 2 1 1%Q 5] 1 = Err OutOfFuel.
Proof.
  apply (bfs_cycle_diverges _ 1 1 10); [done|].
  eapply tc_l; [|apply tc_once].
  - exists (mkRec 1 2 1%Q 5). split; [by left|done].
  - exists (mkRec 2 1 1%Q 5). split; [by right; left|done].
Defined.

Lemma bfs_no_duplicates_witness :
  bfs_from_cluster_tree 10 (cluster_tree_of scenario_tree) 1 = Ok [1; 3; 4] ∧
  NoDup [1; 3; 4].
Proof.
  assert (Hrun : bfs_from_cluster_tree 10 (cluster_tree_of scenario_tree) 1
                 = Ok [1; 3; 4]) by (vm_compute; reflexivity).
  split; [exact Hrun|].
  apply (bfs_no_duplicates (cluster_tree_of scenario_tree) (λ x, x) 0 4 10 1 [1; 3; 4]
           scenario_ranked); [by_evaluation|exact Hrun].
Defined.

Lemma get_leaves_below_witness :
  ∃ l, l ∈ get_leaves scenario_tree ∧ rtc (edge (cluster_tree_of scenario_tree)) 0 l.
Proof.
  apply (get_leaves_below scenario_tree (λ x, x) 0 4 (mkRec 0 1 (1 # 2)%Q 40) 0
           scenario_ranked).
  - apply elem_of_cluster_tree. split; [by left|done].
  - by left.
Defined.
(** ** The coordinates computed by lines 40-60 *)

Lemma foldl_insert_notin {V : Type} (l : list (Z * V)) (d : gmap Z V) (k : Z) :
  k ∉ l.*1 → foldl (λ (d : gmap Z V) kv, <[kv.1:=kv.2]> d) d l !! k = d !! k.
Proof.
  revert d. induction l as [|[k0 v0] l IH]; intros d Hk; simpl; [done|].
  rewrite fmap_cons in Hk. apply not_elem_of_cons in Hk as [Hne Hk].
  rewrite IH by done. simpl. by rewrite lookup_insert_ne.
Qed.

(** [dict(zip(...))]: the last pair with a given key decides its value. *)
Lemma foldl_insert_last {V : Type} (l : list (Z * V)) (d : gmap Z V) (i : nat)
    (k : Z) (v : V) :
  l !! i = Some (k, v) → (∀ j v', (i < j)%nat → l !! j ≠ Some (k, v')) →
  foldl (λ (d : gmap Z V) kv, <[kv.1:=kv.2]> d) d l !! k = Some v.
Proof.
  revert d i. induction l as [|[k0 v0] l IH]; intros d i Hi Hlast; [done|].
  destruct i as [|i]; simpl in *.
  - injection Hi as -> ->. rewrite foldl_insert_notin; [by rewrite lookup_insert_eq|].
    intros Hin. apply list_elem_of_fmap in Hin as ([k' v'] & Hk & Hin). simpl in Hk. subst k'.
    apply list_elem_of_lookup in Hin as [j Hj].
    apply (Hlast (S j) v'); [lia|done].
  - apply (IH _ i); [done|]. intros j v' Hj. apply (Hlast (S j) v'). lia.
Qed.

Section Coordinates.
Context {F : Type} `{Scalar F}.
Implicit Types (t : list (CondensedTreeRecord F)).

Lemma initial_x_lookup t (leaf_separation : F) (i : nat) (l : Z) :
  get_leaves t !! i = Some l →
  (∀ j, (i < j)%nat → get_leaves t !! j ≠ Some l) →
  initial_x t leaf_separation !! l
  = Some (s_mul leaf_separation (s_ofZ (Z.of_nat i))).
Proof.
  intros Hi Hlast. unfold initial_x, dict_of_zip.
  apply (foldl_insert_last _ _ i).
  - apply lookup_zip_with_Some. eexists _, _. split_and!; [done|exact Hi|].
    rewrite list_lookup_fmap, lookup_seq_lt; [done|].
    by apply lookup_lt_Some in Hi.
  - intros j v' Hj Hz. apply lookup_zip_with_Some in Hz as (k' & v'' & [= <- <-] & Hk & _).
    by apply (Hlast j).
Qed.

Lemma coords_step_Ok t (c : Z) (xs ys : gmap Z F) (xy' : gmap Z F * gmap Z F) :
  coords_step t c (xs, ys) = Ok xy' →
  ((length (split_rows t c) ≤ 1)%nat ∧ xy' = (xs, ys)) ∨
  ∃ rl rr xl xr,
    split_rows t c = [rl; rr] ∧
    xs !! child rl = Some xl ∧ xs !! child rr = Some xr ∧
    xy' = (<[c := mean2 xl xr]> xs,
           <[child rr := lambda rr]> (<[child rl := lambda rl]> ys)).
Proof.
  unfold coords_step.
  destruct (split_rows t c) as [|rl [|rr [|??]]] eqn:E;
    [intros [= <-]; left; simpl; split; [lia|done]..| |done].
  intros Hrun. apply bind_Ok in Hrun as (xl & Hxl%getitem_Ok & Hrun).
  apply bind_Ok in Hrun as (xr & Hxr%getitem_Ok & [= <-]).
  right. by exists rl, rr, xl, xr.
Qed.

(** The loop writes [cluster_x_coords[c]] only while it visits [c], and
    only if [c] splits into two clusters. *)
Lemma coords_run_x_frame t (l : list Z) (xs0 ys0 xs ys : gmap Z F) (k : Z) :
  for_each (coords_step t) l (xs0, ys0) = Ok (xs, ys) →
  k ∉ l ∨ length (split_rows t k) ≠ 2%nat → xs !! k = xs0 !! k.
Proof.
  intros Hrun Hk.
  refine (for_each_invariant (λ s, s.1 !! k = xs0 !! k) _ _ _ (xs, ys) _ _ Hrun); [|done].
  intros c [xs1 ys1] xy2 Hc IH Hstep.
  apply coords_step_Ok in Hstep as [[_ ->]|(rl & rr & xl & xr & Hsplit & _ & _ & ->)];
    [done|]. simpl in *.
  rewrite lookup_insert_ne; [done|]. intros ->.
  destruct Hk as [Hk|Hk]; [done|]. by rewrite Hsplit in Hk.
Qed.

(** It writes [cluster_y_coords[k]] only for the children [k] of the splits
    it visits. *)
Lemma coords_run_y_frame t (l : list Z) (xs0 ys0 xs ys : gmap Z F) (k : Z) :
  for_each (coords_step t) l (xs0, ys0) = Ok (xs, ys) →
  (∀ c r, c ∈ l → length (split_rows t c) = 2%nat → r ∈ split_rows t c →
          child r ≠ k) →
  ys !! k = ys0 !! k.
Proof.
  intros Hrun Hk.
  refine (for_each_invariant (λ s, s.2 !! k = ys0 !! k) _ _ _ (xs, ys) _ _ Hrun); [|done].
  intros c [xs1 ys1] xy2 Hc IH Hstep.
  apply coords_step_Ok in Hstep as [[_ ->]|(rl & rr & xl & xr & Hsplit & _ & _ & ->)];
    [done|]. simpl in *.
  assert (Hlen : length (split_rows t c) = 2%nat) by by rewrite Hsplit.
  rewrite !lookup_insert_ne; [done| |].
  - apply (Hk c); [done..|]. rewrite Hsplit. by left.
  - apply (Hk c); [done..|]. rewrite Hsplit. right. by left.
Qed.

(** The cluster ids of the rows lie between [root] and [last_leaf]. *)
Lemma parent_in_range t (last_leaf root : Z) (r : CondensedTreeRecord F) :
  column_max (parent <$> t) = Ok last_leaf →
  column_min (parent <$> t) = Ok root →
  r ∈ t → parent r ∈ range_down last_leaf root.
Proof.
  intros Hmax Hmin Hr. apply elem_of_range_down.
  assert (parent r ∈ parent <$> t) by (apply list_elem_of_fmap; eauto).
  split; [by apply (column_min_le _ _ _ Hmin)|by apply (column_max_ge _ _ _ Hmax)].
Qed.

Lemma split_rows_parent t (c : Z) (r : CondensedTreeRecord F) :
  r ∈ split_rows t c → r ∈ t ∧ parent r = c.
Proof.
  intros [Hr Hp]%elem_of_split_rows. by apply elem_of_cluster_tree in Hr as [Hr _].
Qed.

(** The run of the loop, cut at the visit of [c]. *)
Lemma coords_run_split t (last_leaf root c : Z) (xy0 xy : gmap Z F * gmap Z F) :
  for_each (coords_step t) (range_down last_leaf root) xy0 = Ok xy →
  c ∈ range_down last_leaf root →
  ∃ pre post xy1 xy2,
    range_down last_leaf root = pre ++ c :: post ∧
    (c ∉ pre) ∧ (c ∉ post) ∧ (∀ m, m ∈ post → m < c) ∧
    for_each (coords_step t) pre xy0 = Ok xy1 ∧
    coords_step t c xy1 = Ok xy2 ∧
    for_each (coords_step t) post xy2 = Ok xy.
Proof.
  intros Hrun Hc. apply list_elem_of_split in Hc as (pre & post & Hsplit).
  rewrite Hsplit in Hrun. apply for_each_split in Hrun as (xy1 & xy2 & H1 & H2 & H3).
  destruct (range_down_descending _ _ _ _ _ Hsplit) as [Hpre Hpost].
  exists pre, post, xy1, xy2. split_and!; try done.
  - intros Hin. apply Hpre in Hin. lia.
  - intros Hin. apply Hpost in Hin. lia.
Qed.

(** X5.  After the loop of lines 51-60 the [i]-th leaf (counting from 0, a
    leaf listed more than once counting where it is listed last) has the x
    coordinate [leaf_separation * i]. *)
Theorem leaf_x_coordinate t (leaf_separation : F) (last_leaf root : Z)
    (xs ys : gmap Z F) (i : nat) (l : Z) :
  cluster_coords t leaf_separation = Ok (last_leaf, root, xs, ys) →
  get_leaves t !! i = Some l →
  (∀ j, (i < j)%nat → get_leaves t !! j ≠ Some l) →
  xs !! l = Some (s_mul leaf_separation (s_ofZ (Z.of_nat i))).
Proof.
  intros (_ & _ & Hrun)%cluster_coords_Ok Hi Hlast.
  apply (coords_run_x_frame _ _ _ _ _ _ l) in Hrun.
  - rewrite Hrun. by apply initial_x_lookup.
  - right. assert (Hl : l ∈ get_leaves t) by by eapply list_elem_of_lookup_2.
    apply elem_of_get_leaves in Hl as [_ ->]. done.
Qed.

(** X6.  If the children of the cluster tree have larger ids than their
    parents, then after the loop of lines 51-60 the x coordinate of a
    cluster that splits into two clusters is the mean of the final x
    coordinates of the two. *)
Theorem cluster_x_is_mean t (leaf_separation : F) (last_leaf root : Z)
    (xs ys : gmap Z F) (c : Z) (rl rr : CondensedTreeRecord F) :
  cluster_coords t leaf_separation = Ok (last_leaf, root, xs, ys) →
  ordered (cluster_tree_of t) →
  split_rows t c = [rl; rr] →
  ∃ xl xr, xs !! child rl = Some xl ∧ xs !! child rr = Some xr ∧
           xs !! c = Some (mean2 xl xr).
Proof.
  intros (Hmax & Hmin & Hrun)%cluster_coords_Ok Hord Hsplit.
  assert (Hrl : rl ∈ split_rows t c) by (rewrite Hsplit; by left).
  assert (Hrr : rr ∈ split_rows t c) by (rewrite Hsplit; right; by left).
  assert (Hc : c ∈ range_down last_leaf root).
  { apply split_rows_parent in Hrl as [Hrl <-]. by apply (parent_in_range t). }
  destruct (coords_run_split _ _ _ _ _ _ Hrun Hc)
    as (pre & post & [xs1 ys1] & xy2 & _ & _ & Hcpost & Hpost & _ & Hstep & Hrest).
  apply coords_step_Ok in Hstep
    as [[Hlen _]|(rl' & rr' & xl & xr & Hsplit' & Hxl & Hxr & ->)].
  { rewrite Hsplit in Hlen. simpl in Hlen. lia. }
  rewrite Hsplit in Hsplit'. injection Hsplit' as <- <-.
  assert (Hlt : ∀ r, r ∈ split_rows t c → child r ∉ post).
  { intros r [Hr Hp]%elem_of_split_rows Hin. apply Hpost in Hin.
    unfold ordered in Hord. rewrite Forall_forall in Hord. specialize (Hord r Hr). lia. }
  exists xl, xr. split_and!.
  - rewrite (coords_run_x_frame _ _ _ _ _ _ (child rl) Hrest); [|left; by apply Hlt].
    simpl. rewrite lookup_insert_ne; [done|].
    intros ->. apply elem_of_split_rows in Hrl as [Hrl Hp].
    unfold ordered in Hord. rewrite Forall_forall in Hord. specialize (Hord rl Hrl). lia.
  - rewrite (coords_run_x_frame _ _ _ _ _ _ (child rr) Hrest); [|left; by apply Hlt].
    simpl. rewrite lookup_insert_ne; [done|].
    intros ->. apply elem_of_split_rows in Hrr as [Hrr Hp].
    unfold ordered in Hord. rewrite Forall_forall in Hord. specialize (Hord rr Hrr). lia.
  - rewrite (coords_run_x_frame _ _ _ _ _ _ c Hrest); [|by left].
    simpl. by rewrite lookup_insert_eq.
Qed.

Lemma split_rows_sublist t (c : Z) : split_rows t c `sublist_of` cluster_tree_of t.
Proof.
  unfold split_rows, cluster_tree_of. induction t as [|r t IH]; [done|].
  rewrite !filter_cons. repeat case_decide; try (exfalso; tauto); try done.
  - by apply sublist_skip.
  - by apply sublist_cons.
Qed.

(** The keys of [cluster_y_coords]: the root and the children of the
    splits into two. *)
Lemma coords_run_y_keys t (l : list Z) (xs0 ys0 xs ys : gmap Z F) (k : Z) :
  for_each (coords_step t) l (xs0, ys0) = Ok (xs, ys) → is_Some (ys !! k) →
  is_Some (ys0 !! k) ∨
  ∃ r, r ∈ cluster_tree_of t ∧ child r = k ∧
       length (split_rows t (parent r)) = 2%nat.
Proof.
  intros Hrun.
  refine (for_each_invariant
            (λ s, is_Some (s.2 !! k) → is_Some (ys0 !! k) ∨
               ∃ r, r ∈ cluster_tree_of t ∧ child r = k ∧
                    length (split_rows t (parent r)) = 2%nat)
            _ _ _ (xs, ys) _ _ Hrun); [|by left].
  intros c [xs1 ys1] xy2 Hc IH Hstep.
  apply coords_step_Ok in Hstep as [[_ ->]|(rl & rr & xl & xr & Hsplit & _ & _ & ->)];
    [done|]. simpl in *.
  assert (Hin : ∀ r, r ∈ split_rows t c →
            r ∈ cluster_tree_of t ∧ length (split_rows t (parent r)) = 2%nat).
  { intros r [Hr Hp]%elem_of_split_rows. split; [done|]. by rewrite Hp, Hsplit. }
  rewrite !lookup_insert. repeat case_decide; subst; intros Hk.
  - right. exists rr. destruct (Hin rr); [rewrite Hsplit; right; by left|done].
  - right. exists rl. destruct (Hin rl); [rewrite Hsplit; by left|done].
  - by apply IH.
Qed.

(** X7.  The y coordinates after the loop of lines 51-60, when no cluster
    is the child of two rows of the cluster tree: the root keeps 0 unless it
    is itself a cluster child, each child of a split into two clusters has
    the lambda of its row, and nothing else has a y coordinate. *)
Theorem cluster_y_coordinates t (leaf_separation : F) (last_leaf root : Z)
    (xs ys : gmap Z F) :
  cluster_coords t leaf_separation = Ok (last_leaf, root, xs, ys) →
  NoDup (child <$> cluster_tree_of t) →
  (root ∉ child <$> cluster_tree_of t → ys !! root = Some (s_ofZ 0)) ∧
  (∀ r, r ∈ cluster_tree_of t → length (split_rows t (parent r)) = 2%nat →
        ys !! child r = Some (lambda r)) ∧
  (∀ k, is_Some (ys !! k) →
        k = root ∨ ∃ r, r ∈ cluster_tree_of t ∧ child r = k ∧
                        length (split_rows t (parent r)) = 2%nat).
Proof.
  intros (Hmax & Hmin & Hrun)%cluster_coords_Ok Hnd. split_and!.
  - intros Hroot. rewrite (coords_run_y_frame _ _ _ _ _ _ root Hrun).
    + by rewrite lookup_singleton_eq.
    + intros c r _ _ [Hr _]%elem_of_split_rows Heq. apply Hroot.
      apply list_elem_of_fmap. eauto.
  - intros r Hr Hlen.
    assert (Hc : parent r ∈ range_down last_leaf root).
    { apply elem_of_cluster_tree in Hr as [Hr _]. by apply (parent_in_range t). }
    destruct (coords_run_split _ _ _ _ _ _ Hrun Hc)
      as (pre & post & [xs1 ys1] & xy2 & _ & _ & Hcpost & _ & _ & Hstep & Hrest).
    apply coords_step_Ok in Hstep
      as [[Hlen' _]|(rl & rr & xl & xr & Hsplit & _ & _ & ->)]; [lia|].
    rewrite (coords_run_y_frame _ _ _ _ _ _ (child r) Hrest).
    + simpl. assert (Hin : r ∈ split_rows t (parent r)) by by apply elem_of_split_rows.
      assert (Hne : child rl ≠ child rr).
      { pose proof (split_rows_sublist t (parent r)) as Hsub. rewrite Hsplit in Hsub.
        apply (fmap_sublist child) in Hsub.
        assert (Hnd2 : NoDup (child <$> [rl; rr]))
          by (eapply sublist_NoDup; [exact Hnd|exact Hsub]).
        rewrite !fmap_cons in Hnd2. apply NoDup_cons in Hnd2 as [Hnd2 _].
        intros Heq. apply Hnd2. rewrite Heq. by left. }
      rewrite Hsplit in Hin. apply elem_of_cons in Hin as [->|Hin].
      * rewrite lookup_insert_ne by done. by rewrite lookup_insert_eq.
      * apply list_elem_of_singleton in Hin as ->. by rewrite lookup_insert_eq.
    + intros c r' Hcin _ [Hr' Hp]%elem_of_split_rows Heq.
      apply (NoDup_fmap_inj_on child _ r' r Hnd Hr' Hr) in Heq. subst r'.
      apply Hcpost. by rewrite Hp.
  - intros k Hk. destruct (coords_run_y_keys _ _ _ _ _ _ k Hrun Hk) as [Hk0|?]; [|by right].
    left. rewrite lookup_singleton in Hk0.
    case_decide; [done|]. by destruct Hk0.
Qed.

End Coordinates.

Lemma leaf_x_coordinate_witness :
  get_leaves scenario_tree !! 1%nat = Some 3 ∧
  scenario_x 1 !! 3 = Some (s_mul 1%Q (s_ofZ (Z.of_nat 1))).
Proof.
  split; [reflexivity|].
  apply (leaf_x_coordinate scenario_tree 1%Q 1 0 (scenario_x 1) scenario_y 1 3
           (scenario_coords 1)); [reflexivity|].
  intros [|[|[|[|j]]]] Hj; try lia; vm_compute; discriminate.
Defined.

Lemma cluster_x_is_mean_witness :
  ∃ xl xr, scenario_x 1 !! 3 = Some xl ∧ scenario_x 1 !! 4 = Some xr ∧
           scenario_x 1 !! 1 = Some (mean2 xl xr).
Proof.
  apply (cluster_x_is_mean scenario_tree 1%Q 1 0 (scenario_x 1) scenario_y 1
           (mkRec 1 3 1%Q 15) (mkRec 1 4 1%Q 25)
           (scenario_coords 1) scenario_ordered).
  reflexivity.
Defined.

Lemma cluster_y_coordinates_witness :
  (0 ∉ child <$> cluster_tree_of scenario_tree → scenario_y !! 0 = Some 0%Q) ∧
  (∀ r, r ∈ cluster_tree_of scenario_tree →
        length (split_rows scenario_tree (parent r)) = 2%nat →
        scenario_y !! child r = Some (lambda r)) ∧
  (∀ k, is_Some (scenario_y !! k) →
        k = 0 ∨ ∃ r, r ∈ cluster_tree_of scenario_tree ∧ child r = k ∧
                     length (split_rows scenario_tree (parent r)) = 2%nat).
Proof.
  apply (cluster_y_coordinates scenario_tree 1%Q 1 0 (scenario_x 1) scenario_y
           (scenario_coords 1)).
  by_evaluation.
Defined.
(** ** The dictionary returned by [get_plot_data] *)

(** Every pass through the body of a finished loop returned. *)
Lemma for_each_steps {A S : Type} (body : A → S → res S) (l : list A) (s s' : S)
    (a : A) :
  for_each body l s = Ok s' → a ∈ l → ∃ s1 s2, body a s1 = Ok s2.
Proof.
  intros Hrun (pre & post & ->)%list_elem_of_split.
  apply for_each_split in Hrun as (s1 & s2 & _ & Hstep & _). eauto.
Qed.

Lemma foldl_insert_keys {V : Type} (l : list (Z * V)) (d : gmap Z V) (k : Z) :
  is_Some (foldl (λ (d : gmap Z V) kv, <[kv.1:=kv.2]> d) d l !! k) →
  is_Some (d !! k) ∨ k ∈ l.*1.
Proof.
  revert d. induction l as [|[k0 v0] l IH]; intros d Hk; simpl in *; [by left|].
  apply IH in Hk as [Hk|Hk]; [|right; by right].
  rewrite lookup_insert in Hk. case_decide; [subst; right; by left|by left].
Qed.

Section PlotData.
Context {F : Type} `{Scalar F} `{Transcendental F}.
Implicit Types (t : list (CondensedTreeRecord F)).

Lemma bounds_step_unfold t (log_size : bool) (scaling : F) (xs ys : gmap Z F)
    (c : Z) (bs : gmap Z (bounds F)) (b : bars F) (x y top : F) :
  ys !! c = Some y → xs !! c = Some x →
  np_max (lambda <$> children_of t c) = Ok top →
  let size := size_value log_size (sum_sizes (children_of t c)) in
  let half := s_div size (s_ofZ 2) in
  bounds_step t log_size scaling xs ys c (bs, b)
  = Ok (<[c := mkBounds (s_sub (s_mul x scaling) half)
                        (s_add (s_mul x scaling) half) y top]> bs,
        (foldl (λ st row, bar_step log_size (s_mul x scaling) row st)
               (size, y, b) (rows_by_lambda (children_of t c))).2).
Proof.
  intros Hy Hx Htop. unfold bounds_step.
  apply getitem_Ok in Hy, Hx. rewrite Hy, Hx, Htop. cbn [mbind res_bind].
  by destruct (foldl _ _ _) as [[? ?] ?].
Qed.

Lemma bounds_step_inv t (log_size : bool) (scaling : F) (xs ys : gmap Z F)
    (c : Z) (st st' : gmap Z (bounds F) * bars F) :
  bounds_step t log_size scaling xs ys c st = Ok st' →
  ∃ x y top,
    ys !! c = Some y ∧ xs !! c = Some x ∧
    np_max (lambda <$> children_of t c) = Ok top.
Proof.
  destruct st as [bs b], st' as [bs' b'].
  intros (y & x & top & Hy & Hx & Htop & _)%bounds_step_Ok. eauto 6.
Qed.

(** *** The lists run in parallel *)

Lemma bar_step_balanced (log_size : bool) (center : F)
    (row : CondensedTreeRecord F) (size lam : F) (b : bars F) :
  length (b_tops b) = length (b_centers b) ∧
  length (b_bottoms b) = length (b_centers b) ∧
  length (b_widths b) = length (b_centers b) →
  let b' := (bar_step log_size center row (size, lam, b)).2 in
  length (b_tops b') = length (b_centers b') ∧
  length (b_bottoms b') = length (b_centers b') ∧
  length (b_widths b') = length (b_centers b').
Proof.
  intros (H1 & H2 & H3). unfold bar_step. cbn [snd].
  destruct (negb _); [|done]. cbn. rewrite !length_app. cbn. lia.
Qed.

Lemma bar_loop_balanced (log_size : bool) (center : F)
    (rows : list (CondensedTreeRecord F)) (size lam : F) (b : bars F) :
  length (b_tops b) = length (b_centers b) ∧
  length (b_bottoms b) = length (b_centers b) ∧
  length (b_widths b) = length (b_centers b) →
  let b' := (foldl (λ st row, bar_step log_size center row st)
               (size, lam, b) rows).2 in
  length (b_tops b') = length (b_centers b') ∧
  length (b_bottoms b') = length (b_centers b') ∧
  length (b_widths b') = length (b_centers b').
Proof.
  revert size lam b. induction rows as [|row rows IH]; intros size lam b Hb; [done|].
  cbn [foldl]. pose proof (bar_step_balanced log_size center row size lam b Hb) as Hb'.
  destruct (bar_step log_size center row (size, lam, b)) as [[size' lam'] b'].
  by apply IH.
Qed.

Lemma line_loop_horizontal (log_size : bool) (scaling : F) (xs ys : gmap Z F)
    (rows : list (CondensedTreeRecord F)) (st st' : list (F * F) * list (F * F)) :
  for_each (line_step log_size scaling xs ys) rows st = Ok st' →
  Forall (λ p, p.1 = p.2) st.2 → Forall (λ p, p.1 = p.2) st'.2.
Proof.
  intros Hrun Hst.
  refine (for_each_invariant (λ s, Forall (λ p, p.1 = p.2) s.2) _ _ _ st' _ Hst Hrun).
  intros row [lx ly] s2 _ IH Hstep. unfold line_step in Hstep.
  apply bind_Ok in Hstep as (xc & _ & Hstep).
  apply bind_Ok in Hstep as (xp & _ & Hstep).
  apply bind_Ok in Hstep as (yc & _ & [= <-]). cbn [snd] in *.
  apply Forall_app. split; [done|]. by apply Forall_singleton.
Qed.

(** X8.  In the dictionary [get_plot_data] returns, the four bar lists have
    the same length, there is one connector line per row of the cluster
    tree, and every connector line is horizontal. *)
Theorem plot_data_parallel t (leaf_separation : F) (log_size : bool)
    (data : plot_data F) :
  get_plot_data t leaf_separation log_size = Ok data →
  length (bar_tops data) = length (bar_centers data) ∧
  length (bar_bottoms data) = length (bar_centers data) ∧
  length (bar_widths data) = length (bar_centers data) ∧
  length (line_xs data) = length (cluster_tree_of t) ∧
  length (line_ys data) = length (cluster_tree_of t) ∧
  Forall (λ ys, ys.1 = ys.2) (line_ys data).
Proof.
  intros (last_leaf & root & xs & ys & bs & b & lx & ly & _ & Hbounds & Hlines & ->)
    %get_plot_data_Ok.
  cbn [bar_tops bar_centers bar_bottoms bar_widths line_xs line_ys].
  assert (Hbal : length (b_tops b) = length (b_centers b) ∧
                 length (b_bottoms b) = length (b_centers b) ∧
                 length (b_widths b) = length (b_centers b)).
  { refine (for_each_invariant
              (λ s, length (b_tops s.2) = length (b_centers s.2) ∧
                    length (b_bottoms s.2) = length (b_centers s.2) ∧
                    length (b_widths s.2) = length (b_centers s.2))
              _ _ _ (bs, b) _ _ Hbounds); [|done].
    intros c [bs1 b1] s2 _ IH Hstep.
    destruct (bounds_step_inv _ _ _ _ _ _ _ _ Hstep) as (x & y & top & Hy & Hx & Htop).
    rewrite (bounds_step_unfold _ _ _ _ _ _ _ _ _ _ _ Hy Hx Htop) in Hstep.
    injection Hstep as <-. cbn [snd] in *. by apply bar_loop_balanced. }
  destruct Hbal as (H1 & H2 & H3).
  pose proof (line_loop_length _ _ _ _ _ _ _ Hlines) as [Hlx Hly].
  pose proof (line_loop_horizontal _ _ _ _ _ _ _ Hlines) as Hhor.
  cbn in Hlx, Hly, Hhor. split_and!; try done. by apply Hhor.
Qed.

(** *** What a tree must look like for [get_plot_data] to return *)

Lemma initial_x_keys t (leaf_separation : F) (k : Z) :
  is_Some (initial_x t leaf_separation !! k) → k ∈ get_leaves t.
Proof.
  unfold initial_x, dict_of_zip. intros [Hk|Hk]%foldl_insert_keys.
  - rewrite lookup_empty in Hk. by destruct Hk.
  - apply list_elem_of_fmap in Hk as ([k' v] & -> & Hin). by apply elem_of_zip_l in Hin.
Qed.

Lemma coords_run_x_keys t (l : list Z) (xs0 ys0 xs ys : gmap Z F) (k : Z) :
  for_each (coords_step t) l (xs0, ys0) = Ok (xs, ys) → is_Some (xs !! k) →
  is_Some (xs0 !! k) ∨ length (split_rows t k) = 2%nat.
Proof.
  intros Hrun.
  refine (for_each_invariant
            (λ s, is_Some (s.1 !! k) →
                  is_Some (xs0 !! k) ∨ length (split_rows t k) = 2%nat)
            _ _ _ (xs, ys) _ _ Hrun); [|by left].
  intros c [xs1 ys1] xy2 Hc IH Hstep.
  apply coords_step_Ok in Hstep as [[_ ->]|(rl & rr & xl & xr & Hsplit & _ & _ & ->)];
    [done|]. cbn [fst] in *.
  rewrite lookup_insert. case_decide; [subst; right; by rewrite Hsplit|done].
Qed.

(** X9.  [get_plot_data] returns only if every id from the smallest to the
    largest parent owns rows of the tree, is the smallest parent or a child
    of the cluster tree, and either splits into exactly two clusters or is a
    leaf of the cluster tree. *)
Theorem get_plot_data_requires t (leaf_separation : F) (log_size : bool)
    (data : plot_data F) :
  get_plot_data t leaf_separation log_size = Ok data →
  ∃ last_leaf root,
    column_max (parent <$> t) = Ok last_leaf ∧
    column_min (parent <$> t) = Ok root ∧
    ∀ c, root ≤ c ≤ last_leaf →
      children_of t c ≠ [] ∧
      (c = root ∨ c ∈ child <$> cluster_tree_of t) ∧
      (length (split_rows t c) = 2%nat ∨ c ∈ get_leaves t).
Proof.
  intros (last_leaf & root & xs & ys & bs & b & lx & ly & Hcoords & Hbounds & _ & _)
    %get_plot_data_Ok.
  exists last_leaf, root.
  pose proof Hcoords as (Hmax & Hmin & Hrun)%cluster_coords_Ok.
  split_and!; [done..|]. intros c Hc%elem_of_range_down.
  destruct (bounds_loop_lookups _ _ _ _ _ _ _ _ Hbounds c Hc) as (Hx & Hy & Hne).
  split_and!; [done| |].
  - by eapply cluster_coords_y_keys.
  - destruct (coords_run_x_keys _ _ _ _ _ _ _ Hrun Hx) as [Hleaf|?]; [|by left].
    right. by eapply initial_x_keys.
Qed.

(** *** [log_size] changes the horizontal data only *)

Lemma bar_step_vertical (log1 log2 : bool) (center1 center2 : F)
    (row : CondensedTreeRecord F) (size1 size2 lam : F) (b1 b2 : bars F) :
  vertical_bars b1 = vertical_bars b2 →
  let st1 := bar_step log1 center1 row (size1, lam, b1) in
  let st2 := bar_step log2 center2 row (size2, lam, b2) in
  st1.1.2 = st2.1.2 ∧ vertical_bars st1.2 = vertical_bars st2.2.
Proof.
  unfold vertical_bars. intros [= Ht Hb]. unfold bar_step. cbn [fst snd].
  split; [done|]. destruct (negb _); cbn; by rewrite ?Ht, ?Hb.
Qed.

Lemma bar_loop_vertical (log1 log2 : bool) (center1 center2 : F)
    (rows : list (CondensedTreeRecord F)) (size1 size2 lam : F) (b1 b2 : bars F) :
  vertical_bars b1 = vertical_bars b2 →
  vertical_bars (foldl (λ st row, bar_step log1 center1 row st)
                   (size1, lam, b1) rows).2
  = vertical_bars (foldl (λ st row, bar_step log2 center2 row st)
                     (size2, lam, b2) rows).2.
Proof.
  revert size1 size2 lam b1 b2.
  induction rows as [|row rows IH]; intros size1 size2 lam b1 b2 Hb; [done|].
  cbn [foldl].
  pose proof (bar_step_vertical log1 log2 center1 center2 row size1 size2 lam b1 b2 Hb)
    as [Hlam Hb'].
  destruct (bar_step log1 center1 row (size1, lam, b1)) as [[s1 l1] b1'].
  destruct (bar_step log2 center2 row (size2, lam, b2)) as [[s2 l2] b2'].
  cbn [fst snd] in *. subst l2. by apply IH.
Qed.

Lemma bounds_loop_vertical t (log1 log2 : bool) (scaling1 scaling2 : F)
    (xs ys : gmap Z F) (l : list Z) (st1 st1' st2 : gmap Z (bounds F) * bars F) :
  for_each (bounds_step t log1 scaling1 xs ys) l st1 = Ok st1' →
  vertical_bounds st1.1 = vertical_bounds st2.1 →
  vertical_bars st1.2 = vertical_bars st2.2 →
  ∃ st2', for_each (bounds_step t log2 scaling2 xs ys) l st2 = Ok st2' ∧
    vertical_bounds st1'.1 = vertical_bounds st2'.1 ∧
    vertical_bars st1'.2 = vertical_bars st2'.2.
Proof.
  revert st1 st2. induction l as [|c l IH]; intros [bs1 b1] [bs2 b2] Hrun Hbs Hb.
  - injection Hrun as <-. by exists (bs2, b2).
  - rewrite for_each_cons in Hrun. apply bind_Ok in Hrun as (st & Hstep & Hrun).
    destruct (bounds_step_inv _ _ _ _ _ _ _ _ Hstep) as (x & y & top & Hy & Hx & Htop).
    rewrite (bounds_step_unfold _ _ _ _ _ _ _ _ _ _ _ Hy Hx Htop) in Hstep.
    injection Hstep as <-.
    rewrite for_each_cons, (bounds_step_unfold _ log2 _ _ _ _ _ _ _ _ _ Hy Hx Htop).
    cbn [mbind res_bind]. eapply IH; [exact Hrun| |].
    + cbn [fst] in *. unfold vertical_bounds in *. rewrite !fmap_insert. cbn.
      by rewrite Hbs.
    + cbn [snd] in *. by apply bar_loop_vertical.
Qed.

Lemma line_step_unfold (log_size : bool) (scaling : F) (xs ys : gmap Z F)
    (row : CondensedTreeRecord F) (lx ly : list (F * F)) (xc xp yc : F) :
  getitem xs (child row) = Ok xc → getitem xs (parent row) = Ok xp →
  getitem ys (child row) = Ok yc →
  line_step log_size scaling xs ys row (lx, ly)
  = Ok (lx ++ [(s_mul xp scaling,
                s_add (s_mul xc scaling)
                      (s_mul (s_sign (s_sub xc xp))
                             (s_div (size_value log_size (child_size row))
                                    (s_ofZ 2))))],
        ly ++ [(yc, yc)]).
Proof. intros Hxc Hxp Hyc. unfold line_step. by rewrite Hxc, Hxp, Hyc. Qed.

Lemma line_loop_vertical (log1 log2 : bool) (scaling1 scaling2 : F)
    (xs ys : gmap Z F) (rows : list (CondensedTreeRecord F))
    (st1 st1' st2 : list (F * F) * list (F * F)) :
  for_each (line_step log1 scaling1 xs ys) rows st1 = Ok st1' →
  st1.2 = st2.2 →
  ∃ st2', for_each (line_step log2 scaling2 xs ys) rows st2 = Ok st2' ∧
          st1'.2 = st2'.2.
Proof.
  revert st1 st2. induction rows as [|row rows IH]; intros [lx1 ly1] [lx2 ly2] Hrun Hly.
  - injection Hrun as <-. by exists (lx2, ly2).
  - rewrite for_each_cons in Hrun. apply bind_Ok in Hrun as (st & Hstep & Hrun).
    unfold line_step in Hstep.
    apply bind_Ok in Hstep as (xc & Hxc & Hstep).
    apply bind_Ok in Hstep as (xp & Hxp & Hstep).
    apply bind_Ok in Hstep as (yc & Hyc & [= <-]).
    rewrite for_each_cons, (line_step_unfold log2 _ _ _ _ _ _ _ _ _ Hxc Hxp Hyc).
    cbn [mbind res_bind]. eapply IH; [exact Hrun|]. cbn [snd] in *. by rewrite Hly.
Qed.

(** X10.  Whether [get_plot_data] returns does not depend on [log_size],
    and the two dictionaries agree on everything vertical: the heights and
    bottoms of the bars, the connector lines' y values, and the bottom and
    top of every bounding box. *)
Theorem log_size_vertical t (leaf_separation : F) (log_size : bool)
    (data : plot_data F) :
  get_plot_data t leaf_separation log_size = Ok data →
  ∃ data', get_plot_data t leaf_separation (negb log_size) = Ok data' ∧
    bar_tops data' = bar_tops data ∧
    bar_bottoms data' = bar_bottoms data ∧
    line_ys data' = line_ys data ∧
    vertical_bounds (cluster_bounds data') = vertical_bounds (cluster_bounds data).
Proof.
  intros (last_leaf & root & xs & ys & bs & b & lx & ly & Hcoords & Hbounds & Hlines & ->)
    %get_plot_data_Ok.
  unfold get_plot_data. rewrite Hcoords. cbn [mbind res_bind].
  destruct (bounds_loop_vertical t log_size (negb log_size) _
              (size_value (negb log_size) (sum_sizes (children_of t root)))
              xs ys _ _ _ (∅, mkBars [] [] [] []) Hbounds eq_refl eq_refl)
    as ([bs' b'] & -> & Hbs & Hb).
  destruct (line_loop_vertical log_size (negb log_size) _
              (size_value (negb log_size) (sum_sizes (children_of t root)))
              xs ys _ _ _ ([], []) Hlines eq_refl)
    as ([lx' ly'] & -> & Hly).
  cbn [mbind res_bind]. eexists. split; [done|].
  cbn [fst snd] in *. unfold vertical_bars in Hb. injection Hb as Ht Hb.
  cbn [bar_tops bar_bottoms line_ys cluster_bounds]. by rewrite Ht, Hb, Hly, Hbs.
Qed.

End PlotData.

Lemma plot_data_parallel_witness :
  ∃ data, get_plot_data (example_tree (F := R)) 1%R false = Ok data ∧
    length (bar_tops data) = length (bar_centers data) ∧
    length (bar_bottoms data) = length (bar_centers data) ∧
    length (bar_widths data) = length (bar_centers data) ∧
    length (line_xs data) = 4%nat ∧ length (line_ys data) = 4%nat.
Proof.
  destruct (get_plot_data_total (example_tree (F := R)) 4 0 1%R false
              example_tree_binary) as (xs & ys & data & _ & _ & _ & Hdata).
  exists data. split; [done|].
  destruct (plot_data_parallel example_tree 1%R false data Hdata)
    as (H1 & H2 & H3 & H4 & H5 & _).
  split_and!; [done..| |].
  - rewrite H4. by vm_compute.
  - rewrite H5. by vm_compute.
Defined.

Lemma get_plot_data_requires_witness :
  ∃ last_leaf root,
    column_max (parent <$> example_tree (F := R)) = Ok last_leaf ∧
    column_min (parent <$> example_tree (F := R)) = Ok root ∧
    ∀ c, root ≤ c ≤ last_leaf →
      children_of (example_tree (F := R)) c ≠ [] ∧
      (c = root ∨ c ∈ child <$> cluster_tree_of (example_tree (F := R))) ∧
      (length (split_rows (example_tree (F := R)) c) = 2%nat ∨
       c ∈ get_leaves (example_tree (F := R))).
Proof.
  destruct (get_plot_data_total (example_tree (F := R)) 4 0 1%R false
              example_tree_binary) as (xs & ys & data & _ & _ & _ & Hdata).
  exact (get_plot_data_requires example_tree 1%R false data Hdata).
Defined.

Lemma log_size_vertical_witness :
  ∃ data data',
    get_plot_data (example_tree (F := R)) 1%R false = Ok data ∧
    get_plot_data (example_tree (F := R)) 1%R true = Ok data' ∧
    bar_tops data' = bar_tops data ∧ line_ys data' = line_ys data.
Proof.
  destruct (get_plot_data_total (example_tree (F := R)) 4 0 1%R false
              example_tree_binary) as (xs & ys & data & _ & _ & _ & Hdata).
  destruct (log_size_vertical example_tree 1%R false data Hdata)
    as (data' & Hdata' & Ht & _ & Hl & _).
  by exists data, data'.
Defined.
(** ** Bounding boxes and bars in exact real arithmetic *)

Section Boxes.
Context {F : Type} `{Scalar F} `{Transcendental F}.
Implicit Types (t : list (CondensedTreeRecord F)).

(** A y coordinate is the initial 0 of the root or the lambda of a row of
    the cluster tree whose child it belongs to. *)
Lemma coords_run_y_values t (l : list Z) (xs0 ys0 xs ys : gmap Z F) (k : Z) (v : F) :
  for_each (coords_step t) l (xs0, ys0) = Ok (xs, ys) → ys !! k = Some v →
  ys0 !! k = Some v ∨ ∃ r, r ∈ cluster_tree_of t ∧ child r = k ∧ v = lambda r.
Proof.
  intros Hrun.
  refine (for_each_invariant
            (λ s, s.2 !! k = Some v → ys0 !! k = Some v ∨
               ∃ r, r ∈ cluster_tree_of t ∧ child r = k ∧ v = lambda r)
            _ _ _ (xs, ys) _ _ Hrun); [|by left].
  intros c [xs1 ys1] xy2 Hc IH Hstep.
  apply coords_step_Ok in Hstep as [[_ ->]|(rl & rr & xl & xr & Hsplit & _ & _ & ->)];
    [done|]. cbn [fst snd] in *.
  assert (Hin : ∀ r, r ∈ split_rows t c → r ∈ cluster_tree_of t).
  { by intros r [Hr _]%elem_of_split_rows. }
  rewrite !lookup_insert. repeat case_decide; subst; intros Hk.
  - right. exists rr. injection Hk as <-. split_and!; [|done..].
    apply Hin. rewrite Hsplit. right. by left.
  - right. exists rl. injection Hk as <-. split_and!; [|done..].
    apply Hin. rewrite Hsplit. by left.
  - by apply IH.
Qed.

(** The box of every cluster the loop of lines 77-104 visits. *)
Lemma bounds_loop_box t (log_size : bool) (scaling : F) (xs ys : gmap Z F)
    (l : list Z) (st st' : gmap Z (bounds F) * bars F) (c : Z) :
  for_each (bounds_step t log_size scaling xs ys) l st = Ok st' → c ∈ l →
  ∃ x y top,
    xs !! c = Some x ∧ ys !! c = Some y ∧
    np_max (lambda <$> children_of t c) = Ok top ∧
    st'.1 !! c
    = Some (mkBounds
              (s_sub (s_mul x scaling)
                 (s_div (size_value log_size (sum_sizes (children_of t c)))
                    (s_ofZ 2)))
              (s_add (s_mul x scaling)
                 (s_div (size_value log_size (sum_sizes (children_of t c)))
                    (s_ofZ 2)))
              y top).
Proof.
  revert st. induction l as [|a l IH]; intros [bs b] Hrun Hc.
  - by apply elem_of_nil in Hc.
  - rewrite for_each_cons in Hrun. apply bind_Ok in Hrun as (st1 & Hstep & Hrun).
    destruct (decide (c ∈ l)) as [Hin|Hnin]; [by apply (IH st1)|].
    apply elem_of_cons in Hc as [->|Hc]; [|done].
    destruct (bounds_step_inv _ _ _ _ _ _ _ _ Hstep) as (x & y & top & Hy & Hx & Htop).
    rewrite (bounds_step_unfold _ _ _ _ _ _ _ _ _ _ _ Hy Hx Htop) in Hstep.
    injection Hstep as <-. exists x, y, top. split_and!; [done..|].
    assert (Hframe : ∀ l' s s', for_each (bounds_step t log_size scaling xs ys) l' s = Ok s' →
              a ∉ l' → s'.1 !! a = s.1 !! a).
    { clear. induction l' as [|a' l' IH]; intros [bs b] s' Hrun Ha.
      - by injection Hrun as <-.
      - rewrite for_each_cons in Hrun. apply bind_Ok in Hrun as (s1 & Hstep & Hrun).
        apply not_elem_of_cons in Ha as [Hne Ha].
        rewrite (IH _ _ Hrun Ha).
        destruct (bounds_step_inv _ _ _ _ _ _ _ _ Hstep) as (x & y & top & Hy & Hx & Htop).
        rewrite (bounds_step_unfold _ _ _ _ _ _ _ _ _ _ _ Hy Hx Htop) in Hstep.
        injection Hstep as <-. cbn [fst]. by rewrite lookup_insert_ne. }
    rewrite (Hframe _ _ _ Hrun Hnin). cbn [fst]. by rewrite lookup_insert_eq.
Qed.

Lemma bar_at_app (b : bars F) (i : nat) (center height bottom width c h bo w : F) :
  balanced b →
  bar_at (mkBars (b_centers b ++ [c]) (b_tops b ++ [h]) (b_bottoms b ++ [bo])
                 (b_widths b ++ [w])) i center height bottom width →
  bar_at b i center height bottom width ∨
  (center = c ∧ height = h ∧ bottom = bo ∧ width = w).
Proof.
  intros (H1 & H2 & H3) (Hc & Hh & Hbo & Hw). cbn in *.
  apply lookup_app_Some in Hc as [Hc|[Hi Hc]].
  - left. pose proof (lookup_lt_Some _ _ _ Hc) as Hlt.
    rewrite lookup_app_l in Hh, Hbo, Hw by lia. done.
  - right. rewrite lookup_app_r in Hh, Hbo, Hw by lia.
    rewrite H1 in Hh. rewrite H2 in Hbo. rewrite H3 in Hw.
    destruct (i - length (b_centers b))%nat; [|done].
    cbn in *. by simplify_eq.
Qed.

Lemma balanced_app (b : bars F) (c h bo w : F) :
  balanced b →
  balanced (mkBars (b_centers b ++ [c]) (b_tops b ++ [h]) (b_bottoms b ++ [bo])
                   (b_widths b ++ [w])).
Proof. intros (H1 & H2 & H3). unfold balanced. cbn. rewrite !length_app. cbn. lia. Qed.

End Boxes.

(** [np.max] on real numbers is the maximum. *)
Lemma foldl_max_R (x : R) (l : list R) :
  (x <= foldl (λ a b : R, if s_ltb a b then b else a) x l)%R ∧
  (∀ y, y ∈ l → (y <= foldl (λ a b : R, if s_ltb a b then b else a) x l)%R) ∧
  foldl (λ a b : R, if s_ltb a b then b else a) x l ∈ x :: l.
Proof.
  revert x. induction l as [|z l IH]; intros x; cbn [foldl].
  - split_and!; [lra| |by left]. intros y Hy. by apply elem_of_nil in Hy.
  - assert (Hcase : (s_ltb x z = true ∧ (x < z)%R) ∨ (s_ltb x z = false ∧ (z <= x)%R)).
    { cbn [s_ltb R_scalar]. unfold R_ltb. destruct (Rlt_dec x z); [left|right]; split;
        [done..|lra]. }
    destruct Hcase as [[-> Hlt]|[-> Hge]].
    + destruct (IH z) as (Hz & Hl & Hin). split_and!.
      * lra.
      * intros y [->|Hy]%elem_of_cons; [done|by apply Hl].
      * by right.
    + destruct (IH x) as (Hx & Hl & Hin). split_and!; [done| |].
      * intros y [->|Hy]%elem_of_cons; [lra|by apply Hl].
      * apply elem_of_cons in Hin as [Hin|Hin]; [rewrite Hin; by left|]. right. by right.
Qed.

Lemma np_max_R (l : list R) (m : R) :
  np_max l = Ok m → (∀ y, y ∈ l → (y <= m)%R) ∧ m ∈ l.
Proof.
  destruct l as [|x l]; [done|]. intros [= <-].
  destruct (foldl_max_R x l) as (Hx & Hl & Hin). split; [|done].
  intros y [->|Hy]%elem_of_cons; [done|by apply Hl].
Qed.

(** X11.  In exact real arithmetic the bounding box of a cluster starts at
    the cluster's y coordinate and ends at the largest lambda of its rows;
    it is centred at the cluster's scaled x coordinate and as wide as the
    (logarithm of the) number of points of its rows. *)
Theorem cluster_bounds_geometry (t : list (CondensedTreeRecord R))
    (leaf_separation : R) (log_size : bool) (data : plot_data R)
    (last_leaf root c : Z) (xs ys : gmap Z R) :
  get_plot_data t leaf_separation log_size = Ok data →
  cluster_coords t leaf_separation = Ok (last_leaf, root, xs, ys) →
  root ≤ c ≤ last_leaf →
  ∃ box x y,
    cluster_bounds data !! c = Some box ∧ xs !! c = Some x ∧ ys !! c = Some y ∧
    cb_bottom box = y ∧
    (∀ r, r ∈ children_of t c → (lambda r <= cb_top box)%R) ∧
    (∃ r, r ∈ children_of t c ∧ cb_top box = lambda r) ∧
    (cb_right box - cb_left box
     = size_value log_size (sum_sizes (children_of t c)))%R ∧
    ((cb_left box + cb_right box) / 2
     = x * size_value log_size (sum_sizes (children_of t root)))%R.
Proof.
  intros (ll & rt & xs' & ys' & bs & b & lx & ly & Hcoords & Hbounds & _ & ->)
    %get_plot_data_Ok Hcoords' Hc.
  rewrite Hcoords' in Hcoords. injection Hcoords as <- <- <- <-.
  apply elem_of_range_down in Hc.
  destruct (bounds_loop_box _ _ _ _ _ _ _ _ c Hbounds Hc)
    as (x & y & top & Hx & Hy & Htop & Hbox).
  cbn [fst] in Hbox. eexists _, x, y. split_and!; [exact Hbox|done..| | | |];
    cbn [cb_bottom cb_top cb_left cb_right s_sub s_add s_mul s_div s_ofZ R_scalar].
  - apply np_max_R in Htop as [Hle _]. intros r Hr. apply Hle.
    apply list_elem_of_fmap. eauto.
  - apply np_max_R in Htop as [_ Hin].
    apply list_elem_of_fmap in Hin as (r & -> & Hr). eauto.
  - field.
  - field.
Qed.

(** [np.argsort] on real keys sorts: the rows come in ascending order of
    lambda. *)
Lemma insert_sorted_sorted (p : nat * R) (l : list (nat * R)) :
  StronglySorted (λ a b : nat * R, (a.2 <= b.2)%R) l →
  StronglySorted (λ a b : nat * R, (a.2 <= b.2)%R) (insert_sorted p l).
Proof.
  induction l as [|q l IH]; intros Hs; cbn [insert_sorted].
  - by repeat constructor.
  - apply StronglySorted_inv in Hs as [Hs Hq].
    assert (Hcase : (s_ltb q.2 p.2 = true ∧ (q.2 < p.2)%R) ∨
                    (s_ltb q.2 p.2 = false ∧ (p.2 <= q.2)%R)).
    { cbn [s_ltb R_scalar]. unfold R_ltb.
      destruct (Rlt_dec q.2 p.2); [left|right]; split; [done..|lra]. }
    destruct Hcase as [[-> Hlt]|[-> Hge]].
    + constructor; [by apply IH|].
      rewrite insert_sorted_Permutation. constructor; [lra|done].
    + constructor; [by constructor|]. constructor; [done|].
      eapply Forall_impl; [exact Hq|]. cbn. intros x Hx. lra.
Qed.

Lemma rows_by_lambda_sorted (rows : list (CondensedTreeRecord R)) :
  StronglySorted (λ a b, (lambda a <= lambda b)%R) (rows_by_lambda rows).
Proof.
  unfold rows_by_lambda, np_argsort.
  set (ps := foldr insert_sorted [] (zip (seq 0 (length (lambda <$> rows)))
                                         (lambda <$> rows))).
  assert (Hsorted : StronglySorted (λ a b : nat * R, (a.2 <= b.2)%R) ps).
  { unfold ps. generalize (zip (seq 0 (length (lambda <$> rows))) (lambda <$> rows)).
    induction l as [|p l IH]; cbn [foldr]; [constructor|by apply insert_sorted_sorted]. }
  assert (Hrows : Forall (λ p : nat * R, ∀ r, rows !! p.1 = Some r → lambda r = p.2) ps).
  { assert (Hperm : ps ≡ₚ zip (seq 0 (length (lambda <$> rows))) (lambda <$> rows)).
    { unfold ps. generalize (zip (seq 0 (length (lambda <$> rows))) (lambda <$> rows)).
      induction l as [|p l IH]; cbn [foldr]; [done|].
      by rewrite insert_sorted_Permutation, IH. }
    rewrite Hperm. apply Forall_forall. intros [i v] Hin r Hr. cbn [fst snd] in *.
    apply list_elem_of_lookup in Hin as [j Hj].
    apply lookup_zip_with_Some in Hj as (i' & v' & [= <- <-] & Hi & Hv).
    apply lookup_seq in Hi as [-> _]. cbn [Nat.add] in Hr.
    rewrite list_lookup_fmap, Hr in Hv. by injection Hv as <-. }
  clearbody ps. induction ps as [|p ps IH]; cbn; [constructor|].
  apply StronglySorted_inv in Hsorted as [Hsorted Hp].
  apply Forall_cons in Hrows as [Hp1 Hrows].
  destruct (rows !! p.1) as [r|] eqn:Hr; cbn; [|by apply IH].
  constructor; [by apply IH|].
  apply Forall_forall. intros r' Hr'.
  apply list_elem_of_omap in Hr' as (i & Hi & Hri).
  apply list_elem_of_fmap in Hi as (p' & -> & Hp').
  rewrite Forall_forall in Hp, Hrows.
  rewrite (Hp1 r eq_refl), (Hrows p' Hp' r' Hri). by apply Hp.
Qed.

(** The bars one cluster adds, in exact real arithmetic with
    [log_size = False]: each is centred at [center], starts at or above the
    running lambda, ends at the lambda of a row, and is at most as wide as
    the running size. *)
Lemma bar_loop_bars (center : R) (rows : list (CondensedTreeRecord R)) (S : Z)
    (lam : R) (b : bars R) :
  balanced b →
  StronglySorted (λ a b, (lambda a <= lambda b)%R) rows →
  (∀ r, r ∈ rows → (lam <= lambda r)%R) →
  Forall (λ r, 1 ≤ child_size r) rows → sum_sizes rows ≤ S →
  balanced (foldl (λ st row, bar_step false center row st) (IZR S, lam, b) rows).2 ∧
  ∀ i c h bo w,
    bar_at (foldl (λ st row, bar_step false center row st) (IZR S, lam, b) rows).2
           i c h bo w →
    bar_at b i c h bo w ∨
    (c = center ∧ (0 < h)%R ∧ (lam <= bo)%R ∧
     (∃ r, r ∈ rows ∧ (bo + h)%R = lambda r) ∧ (0 < w <= IZR S)%R).
Proof.
  revert S lam b. induction rows as [|row rows IH]; intros S lam b Hbal Hsorted Hlam Hpos HS.
  - cbn. split; [done|]. intros. by left.
  - apply StronglySorted_inv in Hsorted as [Hsorted Hrow].
    apply Forall_cons in Hpos as [Hrow1 Hpos]. rewrite sum_sizes_cons in HS.
    assert (0 ≤ sum_sizes rows).
    { clear -Hpos. induction Hpos as [|r l Hr _ IH']; [done|]. rewrite sum_sizes_cons. lia. }
    cbn [foldl]. unfold bar_step at 2 4.
    cbn [s_sub s_ofZ s_eqb R_scalar]. rewrite <- minus_IZR.
    set (b1 := if negb (R_eqb (lambda row) lam) then _ else b).
    assert (Hb1 : balanced b1 ∧ ∀ i c h bo w, bar_at b1 i c h bo w →
              bar_at b i c h bo w ∨
              (c = center ∧ (0 < h)%R ∧ (lam <= bo)%R ∧ (bo + h)%R = lambda row ∧
               (0 < w <= IZR S)%R)).
    { unfold b1, R_eqb. destruct (Req_dec_T (lambda row) lam) as [Heq|Hne]; cbn.
      - split; [done|]. intros. by left.
      - split; [by apply balanced_app|]. intros i c h bo w Hbar.
        apply bar_at_app in Hbar as [Hbar|(-> & -> & -> & ->)]; [by left| |done].
        right. assert (lam <= lambda row)%R by (apply Hlam; by left).
        split_and!; [done|lra|lra|lra| |apply Rle_refl].
        apply IZR_lt. lia. }
    destruct Hb1 as [Hbal1 Hbars1]. clearbody b1.
    destruct (IH (S - child_size row) (lambda row) b1) as [Hbal2 Hbars2];
      [done|done| |done|lia|].
    { intros r Hr. rewrite Forall_forall in Hrow. by apply Hrow. }
    split; [done|]. intros i c h bo w Hbar.
    apply Hbars2 in Hbar as [Hbar|(-> & Hh & Hbo & (r & Hr & Hrh) & Hw1 & Hw2)].
    + apply Hbars1 in Hbar as [Hbar|(-> & Hh & Hbo & Hrh & Hw)]; [by left|].
      right. destruct Hw. split_and!; try done. exists row. split; [by left|done].
    + right. assert (lam <= lambda row)%R by (apply Hlam; by left).
      split_and!; [done|done|lra| |done|].
      * exists r. split; [by right|done].
      * etrans; [exact Hw2|]. apply IZR_le. lia.
Qed.

Lemma elem_of_children_of {F : Type} (t : list (CondensedTreeRecord F)) (c : Z)
    (r : CondensedTreeRecord F) :
  r ∈ children_of t c ↔ r ∈ t ∧ parent r = c.
Proof. unfold children_of. rewrite list_elem_of_filter. tauto. Qed.

(** The loop of lines 77-104 keeps every bar inside the box of its cluster. *)
Lemma bounds_loop_bars (t : list (CondensedTreeRecord R)) (scaling : R)
    (xs ys : gmap Z R) (l : list Z) (st st' : gmap Z (bounds R) * bars R)
    (Good : R → R → R → R → Prop) :
  Forall (λ r, 1 ≤ child_size r) t →
  (∀ c y r, ys !! c = Some y → r ∈ children_of t c → (y <= lambda r)%R) →
  (∀ cl x y top center h bo w,
     cl ∈ l → xs !! cl = Some x → ys !! cl = Some y →
     np_max (lambda <$> children_of t cl) = Ok top →
     (0 < h)%R → (0 < w)%R →
     bar_in_box
       (mkBounds (x * scaling - IZR (sum_sizes (children_of t cl)) / 2)%R
                 (x * scaling + IZR (sum_sizes (children_of t cl)) / 2)%R y top)
       center h bo w →
     Good center h bo w) →
  for_each (bounds_step t false scaling xs ys) l st = Ok st' →
  balanced st.2 → (∀ i c h bo w, bar_at st.2 i c h bo w → Good c h bo w) →
  balanced st'.2 ∧ ∀ i c h bo w, bar_at st'.2 i c h bo w → Good c h bo w.
Proof.
  intros Hpos Hys Hgood Hrun Hbal Hbars.
  refine (for_each_invariant
            (λ s, balanced s.2 ∧ ∀ i c h bo w, bar_at s.2 i c h bo w → Good c h bo w)
            _ _ _ st' _ _ Hrun); [|done].
  intros a [bs1 b1] s2 Ha [Hbal1 Hbars1] Hstep. cbn [snd] in *.
  destruct (bounds_step_inv _ _ _ _ _ _ _ _ Hstep) as (x & y & top & Hy & Hx & Htop).
  rewrite (bounds_step_unfold _ _ _ _ _ _ _ _ _ _ _ Hy Hx Htop) in Hstep.
  injection Hstep as <-. cbn [snd size_value s_mul s_ofZ R_scalar].
  assert (Hperm := rows_by_lambda_Permutation (children_of t a)).
  destruct (bar_loop_bars (x * scaling)%R (rows_by_lambda (children_of t a))
              (sum_sizes (children_of t a)) y b1) as [Hbal2 Hbars2].
  - done.
  - apply rows_by_lambda_sorted.
  - intros r Hr. apply (Hys a); [done|]. by rewrite <- Hperm.
  - rewrite Hperm. by apply Forall_children_of.
  - by rewrite (sum_sizes_Permutation _ _ Hperm).
  - split; [done|]. intros i c h bo w Hbar.
    apply Hbars2 in Hbar as [Hbar|(-> & Hh & Hbo & (r & Hr & Hrh) & Hw1 & Hw2)];
      [by eapply Hbars1|].
    apply (Hgood a x y top); [done..|].
    apply np_max_R in Htop as [Hle _].
    assert (lambda r <= top)%R.
    { apply Hle, list_elem_of_fmap. exists r. split; [done|]. by rewrite <- Hperm. }
    unfold bar_in_box. cbn [cb_left cb_right cb_bottom cb_top]. split_and!; lra.
Qed.

(** X12.  In exact real arithmetic, with [log_size = False], on a tree
    whose sizes are at least 1 and whose lambda values are non-negative and
    do not decrease from the row that creates a cluster to the rows of that
    cluster: every bar has a positive height and width and lies within the
    bounding box of some cluster. *)
Theorem bars_within_bounds (t : list (CondensedTreeRecord R))
    (leaf_separation : R) (data : plot_data R) :
  Forall (λ r, 1 ≤ child_size r) t →
  (∀ r, r ∈ t → (0 <= lambda r)%R) →
  (∀ r1 r2, r1 ∈ cluster_tree_of t → r2 ∈ t → child r1 = parent r2 →
            (lambda r1 <= lambda r2)%R) →
  get_plot_data t leaf_separation false = Ok data →
  ∀ (i : nat) (center height bottom width : R),
    bar_centers data !! i = Some center → bar_tops data !! i = Some height →
    bar_bottoms data !! i = Some bottom → bar_widths data !! i = Some width →
    (0 < height)%R ∧ (0 < width)%R ∧
    ∃ c box, cluster_bounds data !! c = Some box ∧
             bar_in_box box center height bottom width.
Proof.
  intros Hpos Hnonneg Hmono
    (last_leaf & root & xs & ys & bs & b & lx & ly & Hcoords & Hbounds & _ & ->)
    %get_plot_data_Ok i center height bottom width Hc Hh Hbo Hw.
  cbn [bar_centers bar_tops bar_bottoms bar_widths cluster_bounds] in *.
  apply cluster_coords_Ok in Hcoords as (_ & _ & Hrun).
  assert (Hys : ∀ c y r, ys !! c = Some y → r ∈ children_of t c → (y <= lambda r)%R).
  { intros c y r Hy [Hr Hp]%elem_of_children_of.
    destruct (coords_run_y_values _ _ _ _ _ _ _ _ Hrun Hy) as [H0|(r1 & Hr1 & Hc1 & ->)].
    - rewrite lookup_singleton in H0. case_decide; [|done]. injection H0 as <-.
      cbn [s_ofZ R_scalar]. by apply Hnonneg.
    - apply Hmono; [done..|]. by rewrite Hp. }
  set (Good := λ center h bo w : R,
         (0 < h)%R ∧ (0 < w)%R ∧
         ∃ c box, bs !! c = Some box ∧ bar_in_box box center h bo w).
  assert (Hgood : ∀ cl x y top center h bo w,
     cl ∈ range_down last_leaf root → xs !! cl = Some x → ys !! cl = Some y →
     np_max (lambda <$> children_of t cl) = Ok top →
     (0 < h)%R → (0 < w)%R →
     bar_in_box
       (mkBounds (x * size_value false (sum_sizes (children_of t root))
                  - IZR (sum_sizes (children_of t cl)) / 2)%R
                 (x * size_value false (sum_sizes (children_of t root))
                  + IZR (sum_sizes (children_of t cl)) / 2)%R y top)
       center h bo w →
     Good center h bo w).
  { intros cl x y top c h bo w Hcl Hx Hy Htop Hh' Hw' Hbox.
    split_and!; [done..|]. exists cl. eexists. split; [|exact Hbox].
    destruct (bounds_loop_box _ _ _ _ _ _ _ _ cl Hbounds Hcl)
      as (x' & y' & top' & Hx' & Hy' & Htop' & Hlook).
    rewrite Hx in Hx'. rewrite Hy in Hy'. rewrite Htop in Htop'.
    injection Hx' as <-. injection Hy' as <-. injection Htop' as <-. exact Hlook. }
  destruct (bounds_loop_bars t _ xs ys _ _ _ Good Hpos Hys Hgood Hbounds)
    as [_ Hbars].
  - done.
  - intros j c h bo w (Hj & _). cbn in Hj. by rewrite lookup_nil in Hj.
  - by apply (Hbars i).
Qed.

Lemma example_tree_lambda_nonneg :
  ∀ r, r ∈ example_tree (F := R) → (0 <= lambda r)%R.
Proof.
  intros r Hr. unfold example_tree in Hr.
  repeat (apply elem_of_cons in Hr as [->|Hr]); try (by apply elem_of_nil in Hr);
    cbn; lra.
Qed.

Lemma example_tree_lambda_mono :
  ∀ r1 r2, r1 ∈ cluster_tree_of (example_tree (F := R)) → r2 ∈ example_tree (F := R) →
           child r1 = parent r2 → (lambda r1 <= lambda r2)%R.
Proof.
  intros r1 r2 [Hr1 _]%elem_of_cluster_tree Hr2 Heq. unfold example_tree in Hr1, Hr2.
  repeat (apply elem_of_cons in Hr1 as [->|Hr1]); try (by apply elem_of_nil in Hr1);
    repeat (apply elem_of_cons in Hr2 as [->|Hr2]); try (by apply elem_of_nil in Hr2);
    cbn in Heq |- *; try lia; lra.
Qed.

Lemma cluster_bounds_geometry_witness :
  ∃ data box,
    get_plot_data (example_tree (F := R)) 1%R false = Ok data ∧
    cluster_bounds data !! 1 = Some box ∧
    (cb_right box - cb_left box = 4)%R ∧ cb_top box = 2%R.
Proof.
  destruct (get_plot_data_total (example_tree (F := R)) 4 0 1%R false
              example_tree_binary) as (xs & ys & data & Hcoords & _ & _ & Hdata).
  destruct (cluster_bounds_geometry example_tree 1%R false data 4 0 1 xs ys
              Hdata Hcoords ltac:(lia))
    as (box & x & y & Hbox & _ & _ & _ & _ & (r & Hr & Htop) & Hwidth & _).
  exists data, box. split_and!; [done..| |].
  - rewrite Hwidth. vm_compute. lra.
  - rewrite Htop. apply elem_of_children_of in Hr as [Hr Hp]. unfold example_tree in Hr.
    repeat (apply elem_of_cons in Hr as [->|Hr]); try (by apply elem_of_nil in Hr);
      cbn in Hp |- *; try lia; reflexivity.
Defined.

Lemma bars_within_bounds_witness :
  ∃ data,
    get_plot_data (example_tree (F := R)) 1%R false = Ok data ∧
    ∀ (i : nat) (center height bottom width : R),
      bar_centers data !! i = Some center → bar_tops data !! i = Some height →
      bar_bottoms data !! i = Some bottom → bar_widths data !! i = Some width →
      (0 < height)%R ∧ (0 < width)%R ∧
      ∃ c box, cluster_bounds data !! c = Some box ∧
               bar_in_box box center height bottom width.
Proof.
  destruct (get_plot_data_total (example_tree (F := R)) 4 0 1%R false
              example_tree_binary) as (xs & ys & data & _ & _ & _ & Hdata).
  exists data. split; [done|].
  exact (bars_within_bounds example_tree 1%R data example_tree_sizes
           example_tree_lambda_nonneg example_tree_lambda_mono Hdata).
Defined.
(** ** Further properties of [_select_clusters] *)

(** An invariant that may depend on the part of the list already visited. *)
Lemma for_each_prefix_invariant {A S : Type} (P : list A → S → Prop)
    (body : A → S → res S) (l : list A) (s s' : S) :
  P [] s →
  (∀ pre a post s1 s2, l = pre ++ a :: post →
     for_each body pre s = Ok s1 → P pre s1 → body a s1 = Ok s2 →
     P (pre ++ [a]) s2) →
  for_each body l s = Ok s' → P l s'.
Proof.
  intros H0 Hstep.
  cut (∀ l2 l1 s1, l = l1 ++ l2 → for_each body l1 s = Ok s1 → P l1 s1 →
         for_each body l2 s1 = Ok s' → P l s').
  { intros Hgen. by apply (Hgen l [] s). }
  induction l2 as [|a l2 IH]; intros l1 s1 Hl Hpre Hs1 Hrun.
  - injection Hrun as <-. rewrite app_nil_r in Hl. by subst.
  - rewrite for_each_cons in Hrun. apply bind_Ok in Hrun as (s2 & Ha & Hrun).
    apply (IH (l1 ++ [a]) s2); [by rewrite <- app_assoc| | |done].
    + rewrite for_each_app, Hpre. cbn. by rewrite Ha.
    + by eapply Hstep.
Qed.

Section SelectMore.
Context {F : Type} `{Scalar F}.
Implicit Types (ct t : list (CondensedTreeRecord F)).
Implicit Types (stability : gmap Z F) (is_cluster : gmap Z bool).

Lemma stabilities_ext stability stability' (cs : list Z) :
  (∀ c, c ∈ cs → stability' !! c = stability !! c) →
  stabilities stability' cs = stabilities stability cs.
Proof.
  induction cs as [|c cs IH]; intros Hcs; cbn [stabilities]; [done|].
  unfold getitem. rewrite (Hcs c) by by left.
  rewrite IH; [done|]. intros ??. apply Hcs. by right.
Qed.

Lemma stabilities_Err stability (cs : list Z) (e : exn) :
  stabilities stability cs = Err e → e = KeyError.
Proof.
  induction cs as [|c cs IH]; cbn [stabilities]; [done|].
  unfold getitem. destruct (stability !! c); cbn; [|by intros [= <-]].
  destruct (stabilities stability cs); cbn; [done|]. intros [= <-]. by apply IH.
Qed.

Lemma stabilities_KeyError stability (cs : list Z) (c : Z) :
  c ∈ cs → c ∉ dom stability → stabilities stability cs = Err KeyError.
Proof.
  intros Hc Hdom. destruct (stabilities stability cs) as [vs|e] eqn:E.
  - exfalso. revert vs E. induction cs as [|c' cs IH]; intros vs E;
      [by apply elem_of_nil in Hc|].
    cbn [stabilities] in E. apply bind_Ok in E as (v & Hv%getitem_Ok & E).
    apply bind_Ok in E as (vs' & Hvs & _).
    apply elem_of_cons in Hc as [->|Hc]; [|by eapply IH].
    apply Hdom, elem_of_dom. by eexists.
  - by rewrite (stabilities_Err _ _ _ E).
Qed.

Lemma select_step_Err fuel ct (node : Z) stability is_cluster (e : exn) :
  bfs_total fuel ct →
  select_step fuel ct node (stability, is_cluster) = Err e → e = KeyError.
Proof.
  intros Hbfs. unfold select_step.
  destruct (stabilities _ _) as [vs|e'] eqn:E; cbn.
  - unfold getitem. destruct (stability !! node) as [own|]; cbn; [|by intros [= <-]].
    destruct (s_ltb own (np_sum vs)); [done|].
    destruct (Hbfs node) as [subs ->]. done.
  - intros [= <-]. by eapply stabilities_Err.
Qed.

Lemma select_step_total_at fuel ct (node : Z) stability is_cluster :
  bfs_total fuel ct →
  (∀ r, r ∈ ct → parent r = node → child r ∈ dom stability) →
  node ∈ dom stability →
  ∃ st', select_step fuel ct node (stability, is_cluster) = Ok st'.
Proof.
  intros Hbfs Hdom Hnode. unfold select_step.
  destruct (stabilities_total stability (child <$> children_of ct node)) as [vs ->].
  { intros c (r & -> & Hr)%list_elem_of_fmap.
    apply list_elem_of_filter in Hr as [Hp Hr]. by apply Hdom. }
  destruct (getitem_is_Some stability node) as [own ->]; [by apply elem_of_dom|].
  simpl. destruct (s_ltb own (np_sum vs)); [eauto|].
  destruct (Hbfs node) as [subs ->]. simpl. eauto.
Qed.

(** If a row of a candidate lacks its stability entry, the loop raises. *)
Lemma select_run_KeyError fuel ct (l : list Z) stability0
    (st : gmap Z F * gmap Z bool) (r : CondensedTreeRecord F) :
  bfs_total fuel ct →
  dom st.1 = dom stability0 →
  r ∈ ct → parent r ∈ l → child r ∉ dom stability0 →
  for_each (select_step fuel ct) l st = Err KeyError.
Proof.
  intros Hbfs Hdom Hr Hp Hc. revert st Hdom.
  induction l as [|a l IH]; intros [s i] Hdom; [by apply elem_of_nil in Hp|].
  rewrite for_each_cons.
  destruct (select_step fuel ct a (s, i)) as [[s' i']|e] eqn:Hstep; cbn.
  - destruct (decide (parent r = a)) as [Ha|Ha].
    + exfalso. apply select_step_Ok in Hstep as (vs & own & Hvs & _).
      rewrite (stabilities_KeyError _ _ (child r)) in Hvs; [done| |].
      * apply list_elem_of_fmap. exists r. split; [done|].
        by apply list_elem_of_filter.
      * cbn in Hdom. by rewrite Hdom.
    + apply IH.
      * apply elem_of_cons in Hp as [?|?]; done.
      * cbn in *. by rewrite (select_step_dom _ _ _ _ _ _ _ Hstep).
  - by rewrite (select_step_Err _ _ _ _ _ _ Hbfs Hstep).
Qed.

(** X13.  [_select_clusters] looks up the stability of every cluster child
    of every candidate.  If the loop of [bfs_from_cluster_tree] always ends,
    it returns when these entries all exist and raises [KeyError] when one
    of them is missing. *)
Theorem select_clusters_KeyError fuel t stability :
  bfs_total fuel (cluster_tree_of t) →
  ((∀ r, r ∈ cluster_tree_of t → parent r ∈ node_list_of stability →
         child r ∈ dom stability) →
   ∃ out, _select_clusters fuel t stability = Ok out) ∧
  ((∃ r, r ∈ cluster_tree_of t ∧ parent r ∈ node_list_of stability ∧
         child r ∉ dom stability) →
   _select_clusters fuel t stability = Err KeyError).
Proof.
  intros Hbfs. unfold _select_clusters, select_loop. split.
  - intros Hall.
    destruct (for_each_total (λ s : gmap Z F * gmap Z bool, dom s.1 = dom stability)
                (select_step fuel (cluster_tree_of t)) (node_list_of stability)
                (stability, all_selected (node_list_of stability)))
      as (st & -> & _); [|done|cbn; eauto].
    intros a [s i] Ha Hdom. cbn in Hdom.
    destruct (select_step_total_at fuel (cluster_tree_of t) a s i) as [[s' i'] Hstep].
    + done.
    + intros r Hr <-. rewrite Hdom. by apply Hall.
    + rewrite Hdom. by apply node_list_dom.
    + exists (s', i'). split; [done|]. cbn.
      by rewrite (select_step_dom _ _ _ _ _ _ _ Hstep).
  - intros (r & Hr & Hp & Hc).
    by rewrite (select_run_KeyError fuel _ _ stability _ r Hbfs).
Qed.

Lemma selected_NoDup is_cluster : NoDup (selected is_cluster).
Proof.
  unfold selected.
  apply (sublist_NoDup _ ((map_to_list is_cluster).*1));
    [apply NoDup_fst_map_to_list|apply fmap_sublist, sublist_filter].
Qed.

(** Only candidates can be returned. *)
Lemma selected_node_list fuel t stability (out : list Z) (c : Z) :
  _select_clusters fuel t stability = Ok out → c ∈ out →
  c ∈ node_list_of stability.
Proof.
  unfold _select_clusters. intros ([s i] & Hrun & [= <-])%bind_Ok. cbn [snd].
  intros Hc%elem_of_selected. unfold select_loop in Hrun.
  pose proof (select_run_true _ _ _ c _ _ Hrun Hc) as Hinit. cbn in Hinit.
  rewrite lookup_all_selected in Hinit. by case_decide.
Qed.

(** X14.  [_select_clusters] returns each cluster at most once, and only
    keys of the stability dictionary other than the smallest one: the root
    is never selected. *)
Theorem select_clusters_candidates fuel t stability (out : list Z) :
  _select_clusters fuel t stability = Ok out →
  NoDup out ∧
  ∀ c, c ∈ out → c ∈ dom stability ∧ ∃ m, m ∈ dom stability ∧ m < c.
Proof.
  intros Hrun. split.
  - unfold _select_clusters in Hrun.
    apply bind_Ok in Hrun as ([s i] & _ & [= <-]). apply selected_NoDup.
  - intros c Hc. apply elem_of_node_list. by eapply selected_node_list.
Qed.

(** The visit of one candidate, told with the stabilities the loop leaves
    behind. *)
Lemma select_visit fuel t stability stability' is_cluster (pre post : list Z)
    (m : Z) :
  ordered (cluster_tree_of t) →
  select_loop fuel t stability = Ok (stability', is_cluster) →
  node_list_of stability = pre ++ m :: post →
  ∃ s1 i1 st2 vs own,
    for_each (select_step fuel (cluster_tree_of t)) pre
      (stability, all_selected (node_list_of stability)) = Ok (s1, i1) ∧
    select_step fuel (cluster_tree_of t) m (s1, i1) = Ok st2 ∧
    for_each (select_step fuel (cluster_tree_of t)) post st2
      = Ok (stability', is_cluster) ∧
    i1 !! m = Some true ∧
    stabilities stability' (child <$> children_of (cluster_tree_of t) m) = Ok vs ∧
    stability !! m = Some own ∧
    ((s_ltb own (np_sum vs) = true ∧
      st2 = (<[m := np_sum vs]> s1, <[m := false]> i1) ∧
      stability' !! m = Some (np_sum vs)) ∨
     (s_ltb own (np_sum vs) = false ∧
      ∃ sub_nodes,
        bfs_from_cluster_tree fuel (cluster_tree_of t) m = Ok sub_nodes ∧
        st2 = (s1, absorb m sub_nodes i1) ∧
        stability' !! m = Some own)).
Proof.
  intros Hord Hrun Hsplit. unfold select_loop in Hrun. rewrite Hsplit in Hrun.
  apply for_each_split in Hrun as ([s1 i1] & st2 & Hpre & Hstep & Hpost).
  rewrite <- Hsplit in Hpre.
  destruct (node_list_descending _ _ _ _ Hsplit) as [Hgt Hlt].
  assert (Hm_pre : m ∉ pre) by (intros Hin; apply Hgt in Hin; lia).
  assert (Hm_post : m ∉ post) by (intros Hin; apply Hlt in Hin; lia).
  pose proof (select_run_stability _ _ _ m _ _ Hpre Hm_pre) as Hs1m. cbn in Hs1m.
  pose proof (select_run_below _ _ _ m _ _ Hord Hpre Hgt) as Hi1m. cbn in Hi1m.
  rewrite lookup_all_selected, decide_True in Hi1m
    by (rewrite Hsplit; apply elem_of_app; right; by left).
  pose proof Hstep as (vs & own & Hvs & Hown & Hcase)%select_step_Ok.
  pose proof (select_run_stability _ _ _ m _ _ Hpost Hm_post) as Hs3m. cbn in Hs3m.
  assert (Hvs' : stabilities stability'
                   (child <$> children_of (cluster_tree_of t) m) = Ok vs).
  { rewrite <- Hvs. apply stabilities_ext.
    intros c (r & -> & [Hp Hr]%list_elem_of_filter)%list_elem_of_fmap.
    unfold ordered in Hord. rewrite Forall_forall in Hord. specialize (Hord r Hr).
    assert (Hc_post : child r ∉ post) by (intros Hin; apply Hlt in Hin; lia).
    pose proof (select_run_stability _ _ _ (child r) _ _ Hpost Hc_post) as E1.
    destruct st2 as [s2 i2]. cbn in E1. rewrite E1.
    apply (select_step_stability_ne _ _ _ _ _ _ _ _ Hstep). lia. }
  exists s1, i1, st2, vs, own. rewrite <- Hs1m. split_and!; [done..|].
  destruct Hcase as [[Hlt' ->]|[Hge (subs & Hsubs & ->)]]; cbn in Hs3m.
  - left. split_and!; [done..|]. by rewrite Hs3m, lookup_insert_eq.
  - right. split; [done|]. exists subs. split_and!; [done..|]. by rewrite Hs3m.
Qed.

(** X15.  When the children of the cluster tree have larger ids than their
    parents, the stabilities the loop leaves behind satisfy the recurrence
    of the excess-of-mass selection: the value of a candidate is the larger
    of its own stability and the sum of the values of its cluster
    children. *)
Theorem subtree_stability_recurrence fuel t stability stability' is_cluster
    (n : Z) :
  ordered (cluster_tree_of t) →
  select_loop fuel t stability = Ok (stability', is_cluster) →
  n ∈ node_list_of stability →
  ∃ vs own,
    stabilities stability' (child <$> children_of (cluster_tree_of t) n) = Ok vs ∧
    stability !! n = Some own ∧
    stability' !! n
    = Some (if s_ltb own (np_sum vs) then np_sum vs else own).
Proof.
  intros Hord Hrun (pre & post & Hsplit)%list_elem_of_split.
  destruct (select_visit _ _ _ _ _ _ _ _ Hord Hrun Hsplit)
    as (s1 & i1 & st2 & vs & own & _ & _ & _ & _ & Hvs & Hown & Hcase).
  exists vs, own. split_and!; [done..|].
  by destruct Hcase as [(-> & _ & ->)|(-> & _ & _ & _ & ->)].
Qed.

(** Which flags are still set when the loop ends. *)
Lemma selected_iff fuel t stability stability' is_cluster (n : Z) :
  ordered (cluster_tree_of t) →
  select_loop fuel t stability = Ok (stability', is_cluster) →
  n ∈ selected is_cluster ↔
  n ∈ node_list_of stability ∧
  keeps (cluster_tree_of t) stability stability' n ∧
  ∀ a, a ∈ node_list_of stability → tc (edge (cluster_tree_of t)) a n →
       ¬ keeps (cluster_tree_of t) stability stability' a.
Proof.
  intros Hord Hrun. rewrite elem_of_selected. split.
  - intros Hn.
    assert (Hin : n ∈ node_list_of stability).
    { pose proof (select_run_true _ _ _ n _ _ Hrun Hn) as Hinit. cbn in Hinit.
      rewrite lookup_all_selected in Hinit. by case_decide. }
    split_and!; [done| |].
    + pose proof Hin as (pre & post & Hsplit)%list_elem_of_split.
      destruct (select_visit _ _ _ _ _ _ _ _ Hord Hrun Hsplit)
        as (s1 & i1 & st2 & vs & own & _ & _ & Hpost & _ & Hvs & Hown & Hcase).
      destruct Hcase as [(_ & -> & _)|(Hge & _)]; [|by exists vs, own].
      pose proof (select_run_false _ _ _ n _ _ Hpost) as Hf. cbn in Hf.
      rewrite lookup_insert_eq in Hf. specialize (Hf eq_refl). congruence.
    + intros a (pre & post & Hsplit)%list_elem_of_split Htc (vs' & own' & Hvs' & Hown' & Hge').
      destruct (select_visit _ _ _ _ _ _ _ _ Hord Hrun Hsplit)
        as (s1 & i1 & st2 & vs & own & _ & _ & Hpost & _ & Hvs & Hown & Hcase).
      rewrite Hvs in Hvs'. rewrite Hown in Hown'.
      injection Hvs' as <-. injection Hown' as <-.
      destruct Hcase as [(Hlt & _)|(_ & subs & Hsubs & -> & _)]; [congruence|].
      pose proof (select_run_false _ _ _ n _ _ Hpost) as Hf. cbn in Hf.
      rewrite lookup_absorb, decide_True in Hf.
      * specialize (Hf eq_refl). congruence.
      * split; [eapply bfs_complete; [done|by apply tc_rtc]|].
        apply (ordered_tc _ _ _ Hord) in Htc. lia.
  - intros (Hin & (vsn & ownn & Hvsn & Hownn & Hgen) & Hanc).
    refine (for_each_prefix_invariant
              (λ _ (s : gmap Z F * gmap Z bool), s.2 !! n = Some true)
              _ _ _ (stability', is_cluster) _ _ Hrun).
    + cbn. by rewrite lookup_all_selected, decide_True.
    + intros pre m post [s1' i1'] s2 Hsplit Hpre Htrue Hstep. cbn in Htrue.
      destruct (select_visit _ _ _ _ _ _ _ _ Hord Hrun Hsplit)
        as (s1 & i1 & st2 & vs & own & Hpre' & Hstep' & _ & _ & Hvs & Hown & Hcase).
      rewrite Hpre in Hpre'. injection Hpre' as <- <-.
      rewrite Hstep in Hstep'. injection Hstep' as <-.
      destruct Hcase as [(Hlt & -> & _)|(Hge & subs & Hsubs & -> & _)]; cbn.
      * rewrite lookup_insert_ne; [done|]. intros ->.
        rewrite Hvs in Hvsn. rewrite Hown in Hownn.
        injection Hvsn as <-. injection Hownn as <-. congruence.
      * rewrite lookup_absorb, decide_False; [done|]. intros [Hsub Hne].
        apply (Hanc m).
        -- rewrite Hsplit. apply elem_of_app. right. by left.
        -- pose proof (bfs_sound _ _ _ _ _ Hsubs Hsub) as Hreach.
           apply rtc_tc in Hreach as [?|?]; [congruence|done].
        -- by exists vs, own.
Qed.

(** X16.  When the children of the cluster tree have larger ids than their
    parents, the clusters [_select_clusters] returns are exactly the
    candidates that keep their own stability and have no ancestor among the
    candidates that keeps its own. *)
Theorem select_clusters_characterisation fuel t stability stability' is_cluster
    (n : Z) :
  ordered (cluster_tree_of t) →
  select_loop fuel t stability = Ok (stability', is_cluster) →
  _select_clusters fuel t stability = Ok (selected is_cluster) ∧
  (n ∈ selected is_cluster ↔
   n ∈ node_list_of stability ∧
   keeps (cluster_tree_of t) stability stability' n ∧
   ∀ a, a ∈ node_list_of stability → tc (edge (cluster_tree_of t)) a n →
        ¬ keeps (cluster_tree_of t) stability stability' a).
Proof.
  intros Hord Hrun. split.
  - unfold _select_clusters. by rewrite Hrun.
  - by apply (selected_iff fuel).
Qed.

(** X17.  When the children of the cluster tree have larger ids than their
    parents, a candidate without cluster children whose own stability is
    not negative ends up covered: [_select_clusters] returns it or one of
    its ancestors. *)
Theorem select_clusters_cover fuel t stability stability' is_cluster (l : Z)
    (own : F) :
  ordered (cluster_tree_of t) →
  select_loop fuel t stability = Ok (stability', is_cluster) →
  l ∈ node_list_of stability →
  children_of (cluster_tree_of t) l = [] →
  stability !! l = Some own → s_ltb own (s_ofZ 0) = false →
  ∃ a, a ∈ selected is_cluster ∧ rtc (edge (cluster_tree_of t)) a l.
Proof.
  intros Hord Hrun Hl Hleaf Hown Hge.
  cut (l ∈ node_list_of stability →
       ∃ a, a ∈ node_list_of stability ∧ rtc (edge (cluster_tree_of t)) a l ∧
            is_cluster !! a = Some true).
  { intros Hcut. destruct (Hcut Hl) as (a & _ & Hreach & Ha).
    exists a. split; [by apply elem_of_selected|done]. }
  refine (for_each_prefix_invariant
            (λ pre (s : gmap Z F * gmap Z bool),
               l ∈ pre → ∃ a, a ∈ pre ∧ rtc (edge (cluster_tree_of t)) a l ∧
                              s.2 !! a = Some true)
            _ _ _ (stability', is_cluster) _ _ Hrun).
  - intros Hin. by apply elem_of_nil in Hin.
  - intros pre m post [s1' i1'] s2 Hsplit Hpre IH Hstep Hin. cbn in IH.
    destruct (select_visit _ _ _ _ _ _ _ _ Hord Hrun Hsplit)
      as (s1 & i1 & st2 & vs & own' & Hpre' & Hstep' & _ & Hm & Hvs & Hown' & Hcase).
    rewrite Hpre in Hpre'. injection Hpre' as <- <-.
    rewrite Hstep in Hstep'. injection Hstep' as <-.
    destruct (node_list_descending _ _ _ _ Hsplit) as [Hgt _].
    assert (Hm_pre : m ∉ pre) by (intros Hin'; apply Hgt in Hin'; lia).
    apply elem_of_app in Hin as [Hin|Hin%list_elem_of_singleton].
    + destruct (IH Hin) as (a & Ha & Hreach & Htrue).
      destruct Hcase as [(Hlt & -> & _)|(Hge' & subs & Hsubs & -> & _)]; cbn.
      * exists a. split_and!; [apply elem_of_app; by left|done|].
        rewrite lookup_insert_ne; [done|]. by intros ->.
      * destruct (decide (a ∈ subs)) as [Hsub|Hsub].
        -- exists m. split_and!; [apply elem_of_app; right; by left| |].
           ++ etrans; [|exact Hreach]. by eapply bfs_sound.
           ++ rewrite lookup_absorb, decide_False; [done|]. by intros [_ ?].
        -- exists a. split_and!; [apply elem_of_app; by left|done|].
           rewrite lookup_absorb, decide_False; [done|]. by intros [? _].
    + subst m. exists l. split_and!; [apply elem_of_app; right; by left|done|].
      rewrite Hleaf in Hvs. cbn in Hvs. injection Hvs as <-.
      rewrite Hown in Hown'. injection Hown' as <-.
      destruct Hcase as [(Hlt & _)|(_ & subs & Hsubs & -> & _)]; cbn.
      * unfold np_sum in Hlt. cbn in Hlt. congruence.
      * rewrite lookup_absorb, decide_False; [done|]. by intros [_ ?].
Qed.

End SelectMore.

Lemma scenario_bfs_total : bfs_total 10 (cluster_tree_of scenario_tree).
Proof. exact (bfs_terminates _ 10 scenario_ordered scenario_fuel). Qed.

Lemma scenario_select_loop :
  ∃ stability' is_cluster,
    select_loop 10 scenario_tree scenario_stability = Ok (stability', is_cluster).
Proof.
  destruct (select_loop 10 scenario_tree scenario_stability) as [[s i]|e] eqn:E;
    [by exists s, i|].
  vm_compute in E. discriminate.
Qed.

Lemma select_clusters_KeyError_witness :
  ((∀ r, r ∈ cluster_tree_of scenario_tree →
         parent r ∈ node_list_of scenario_stability →
         child r ∈ dom scenario_stability) →
   ∃ out, _select_clusters 10 scenario_tree scenario_stability = Ok out) ∧
  ((∃ r, r ∈ cluster_tree_of scenario_tree ∧
         parent r ∈ node_list_of scenario_stability ∧
         child r ∉ dom scenario_stability) →
   _select_clusters 10 scenario_tree scenario_stability = Err KeyError).
Proof.
  exact (select_clusters_KeyError 10 scenario_tree scenario_stability
           scenario_bfs_total).
Defined.

Lemma select_clusters_candidates_witness :
  NoDup [2; 1] ∧
  ∀ c, c ∈ [2; 1] →
       c ∈ dom scenario_stability ∧ ∃ m, m ∈ dom scenario_stability ∧ m < c.
Proof.
  exact (select_clusters_candidates 10 scenario_tree scenario_stability [2; 1]
           scenario_selection).
Defined.

Lemma subtree_stability_recurrence_witness :
  ∃ stability' is_cluster vs own,
    select_loop 10 scenario_tree scenario_stability = Ok (stability', is_cluster) ∧
    stabilities stability' (child <$> children_of (cluster_tree_of scenario_tree) 1)
    = Ok vs ∧
    scenario_stability !! 1 = Some own ∧
    stability' !! 1 = Some (if s_ltb own (np_sum vs) then np_sum vs else own).
Proof.
  destruct scenario_select_loop as (s & i & Hrun).
  destruct (subtree_stability_recurrence 10 scenario_tree scenario_stability s i 1
              scenario_ordered Hrun) as (vs & own & Hvs & Hown & Hfinal).
  - by_evaluation.
  - by exists s, i, vs, own.
Defined.

Lemma select_clusters_characterisation_witness :
  ∃ stability' is_cluster,
    select_loop 10 scenario_tree scenario_stability = Ok (stability', is_cluster) ∧
    _select_clusters 10 scenario_tree scenario_stability = Ok (selected is_cluster) ∧
    (1 ∈ selected is_cluster ↔
     1 ∈ node_list_of scenario_stability ∧
     keeps (cluster_tree_of scenario_tree) scenario_stability stability' 1 ∧
     ∀ a, a ∈ node_list_of scenario_stability →
          tc (edge (cluster_tree_of scenario_tree)) a 1 →
          ¬ keeps (cluster_tree_of scenario_tree) scenario_stability stability' a).
Proof.
  destruct scenario_select_loop as (s & i & Hrun). exists s, i. split; [done|].
  exact (select_clusters_characterisation 10 scenario_tree scenario_stability s i 1
           scenario_ordered Hrun).
Defined.

Lemma select_clusters_cover_witness :
  ∃ stability' is_cluster a,
    select_loop 10 scenario_tree scenario_stability = Ok (stability', is_cluster) ∧
    a ∈ selected is_cluster ∧ rtc (edge (cluster_tree_of scenario_tree)) a 3.
Proof.
  destruct scenario_select_loop as (s & i & Hrun).
  destruct (select_clusters_cover 10 scenario_tree scenario_stability s i 3 2%Q
              scenario_ordered Hrun) as (a & Ha & Hreach).
  - by_evaluation.
  - reflexivity.
  - reflexivity.
  - reflexivity.
  - by exists s, i, a.
Defined.
(** ** [CondensedTree.plot] *)

Lemma bind_Returns {A B : Type} (m : plot_res A) (f : A → plot_res B) (b : B) :
  m ≫= f = Returns b ↔ ∃ a, m = Returns a ∧ f a = Returns b.
Proof.
  destruct m as [a|e]; cbn; split.
  - eauto.
  - intros (a' & [= <-] & ?); done.
  - done.
  - intros (? & ? & ?); done.
Qed.

Lemma lift_Returns {A : Type} (m : res A) (a : A) :
  lift m = Returns a ↔ m = Ok a.
Proof. destruct m; cbn; split; congruence. Qed.

Section Plot.
Context {F : Type} `{Scalar F} `{Transcendental F}.
Implicit Types (t : list (CondensedTreeRecord F)).

(** The loop of lines 197-215 adds one ellipse per chosen cluster, drawn
    from the bounding box of that cluster. *)
Lemma ellipse_loop_Ok (bs : gmap Z (bounds F)) (l : list Z)
    (calls calls' : list (call F)) :
  for_each (ellipse_step bs) l calls = Ok calls' →
  ∃ boxes, Forall2 (λ c box, bs !! c = Some box) l boxes ∧
           calls' = calls ++ (ellipse_call <$> boxes).
Proof.
  revert calls. induction l as [|c l IH]; intros calls Hrun.
  - injection Hrun as <-. exists []. split; [constructor|]. by rewrite app_nil_r.
  - rewrite for_each_cons in Hrun. apply bind_Ok in Hrun as (calls1 & Hstep & Hrun).
    unfold ellipse_step in Hstep.
    apply bind_Ok in Hstep as (box & Hbox%getitem_Ok & [= <-]).
    apply IH in Hrun as (boxes & Hboxes & ->).
    exists (box :: boxes). split; [by constructor|].
    by rewrite <- app_assoc.
Qed.

Lemma ellipse_step_lookup (bs : gmap Z (bounds F)) (c : Z) (calls : list (call F)) :
  ellipse_step bs c calls
  = match bs !! c with
    | Some box => Ok (calls ++ [ellipse_call box])
    | None => Err KeyError
    end.
Proof. unfold ellipse_step, getitem. by destruct (bs !! c). Qed.

Lemma ellipse_loop_total (bs : gmap Z (bounds F)) (l : list Z)
    (calls : list (call F)) :
  (∀ c, c ∈ l → is_Some (bs !! c)) →
  ∃ calls', for_each (ellipse_step bs) l calls = Ok calls'.
Proof.
  revert calls. induction l as [|c l IH]; intros calls Hl; [by eexists|].
  rewrite for_each_cons, ellipse_step_lookup.
  destruct (Hl c) as [box ->]; [by left|]. cbn.
  apply IH. intros ??. apply Hl. by right.
Qed.

Lemma ellipse_loop_KeyError (bs : gmap Z (bounds F)) (l : list Z)
    (calls : list (call F)) (c : Z) :
  c ∈ l → bs !! c = None → for_each (ellipse_step bs) l calls = Err KeyError.
Proof.
  intros Hc Hnone. revert calls. induction l as [|a l IH]; intros calls;
    [by apply elem_of_nil in Hc|].
  rewrite for_each_cons, ellipse_step_lookup.
  destruct (bs !! a) as [box|] eqn:Ha; cbn; [|done].
  apply IH. apply elem_of_cons in Hc as [->|Hc]; [congruence|done].
Qed.

(** X18.  With [cmap='none'] and [colorbar=True] (the default) [plot]
    never returns: unless something raises earlier, the colour bar is asked
    of the variable [sm], which this path has not assigned. *)
Theorem plot_colorbar_without_cmap (pyplot patches : bool) (fuel : nat) t
    (stability : gmap Z F) (leaf_separation : F) (select_clusters log_size : bool) :
  (∀ calls,
     plot pyplot patches fuel t stability leaf_separation "none"
          select_clusters true log_size ≠ Returns calls) ∧
  (pyplot = true → select_clusters = false →
   ∀ data, get_plot_data t leaf_separation log_size = Ok data →
     plot pyplot patches fuel t stability leaf_separation "none"
          select_clusters true log_size = Raises UnboundLocalError).
Proof.
  split.
  - intros calls. unfold plot. destruct pyplot; [|done]. cbn [negb].
    destruct (get_plot_data t leaf_separation log_size) as [data|e]; [|done].
    cbn. destruct select_clusters; [|done].
    destruct patches; [|done]. cbn.
    destruct (_select_clusters fuel t stability) as [chosen|e]; [|done]. cbn.
    by destruct (for_each _ _ _).
  - intros -> -> data Hdata. unfold plot. by rewrite Hdata.
Qed.


(** Every ellipse [plot] draws is the ellipse of the bounding box of a
    chosen cluster. *)
Lemma plot_ellipse_calls (pyplot patches : bool) (fuel : nat) t
    (stability : gmap Z F) (leaf_separation : F) (cmap : string)
    (select_clusters colorbar log_size : bool) (calls : list (call F))
    (center : F * F) (width height : F) :
  plot pyplot patches fuel t stability leaf_separation cmap select_clusters
       colorbar log_size = Returns calls →
  AddEllipse center width height ∈ calls →
  ∃ data chosen c box,
    get_plot_data t leaf_separation log_size = Ok data ∧
    _select_clusters fuel t stability = Ok chosen ∧
    c ∈ chosen ∧ cluster_bounds data !! c = Some box ∧
    ellipse_call box = AddEllipse center width height.
Proof.
  unfold plot. destruct pyplot; [|done]. cbn [negb].
  intros (data & Hdata%lift_Returns & Hrun)%bind_Returns Hin.
  apply bind_Returns in Hrun as ([sm colors] & _ & Hrun).
  apply bind_Returns in Hrun as (calls1 & Hcalls1 & Hrun).
  apply bind_Returns in Hrun as (calls2 & Hcalls2 & [= <-]).
  assert (Hin2 : AddEllipse center width height ∈ calls2).
  { apply elem_of_app in Hin as [Hin|Hin]; [done|].
    repeat (apply elem_of_cons in Hin as [Hin|Hin]; [done|]).
    by apply elem_of_nil in Hin. }
  assert (Hin1 : AddEllipse center width height ∈ calls1).
  { destruct colorbar; [|by injection Hcalls2 as <-].
    destruct sm as [[cm vmax]|]; [|done]. injection Hcalls2 as <-.
    apply elem_of_app in Hin2 as [Hin2|Hin2]; [done|].
    apply list_elem_of_singleton in Hin2. done. }
  assert (Hbase : AddEllipse center width height
                  ∉ AxisBar (bar_centers data) (bar_tops data) (bar_bottoms data)
                      (bar_widths data) colors
                    :: zip_with AxisPlot (line_xs data) (line_ys data)).
  { intros [Hb|Hb]%elem_of_cons; [done|].
    apply elem_of_zip_with in Hb as (? & ? & ? & _). done. }
  destruct select_clusters; [|by injection Hcalls1 as <-].
  destruct patches; [|done]. cbn [negb] in Hcalls1.
  apply bind_Returns in Hcalls1 as (chosen & Hsel%lift_Returns & Hloop%lift_Returns).
  apply ellipse_loop_Ok in Hloop as (boxes & Hboxes & ->).
  apply elem_of_app in Hin1 as [Hin1|Hin1]; [done|].
  apply list_elem_of_fmap in Hin1 as (box & Hbox & Hbin).
  exists data, chosen.
  assert (Hc : ∃ c, c ∈ chosen ∧ cluster_bounds data !! c = Some box).
  { clear -Hboxes Hbin. induction Hboxes as [|c b l boxes Hc _ IH];
      [by apply elem_of_nil in Hbin|].
    apply elem_of_cons in Hbin as [->|Hbin].
    - exists c. split; [by left|done].
    - destruct (IH Hbin) as (c' & ? & ?). exists c'. split; [by right|done]. }
  destruct Hc as (c & Hc & Hlook). by exists c, box.
Qed.

End Plot.

(** Every point of a bounding box lies strictly inside the ellipse drawn
    for it. *)
Lemma ellipse_call_encloses (box : bounds R) (center : R * R) (w h x y : R) :
  ellipse_call box = AddEllipse center w h →
  (cb_left box < cb_right box)%R → (cb_bottom box < cb_top box)%R →
  (cb_left box <= x <= cb_right box)%R → (cb_bottom box <= y <= cb_top box)%R →
  inside_ellipse center w h x y.
Proof.
  unfold ellipse_call. cbn [s_sub s_mul s_div s_ofZ mean2 s_add R_scalar].
  intros [= <- <- <-] Hw Hh Hx Hy. unfold inside_ellipse. cbn [fst snd].
  set (W := (cb_right box - cb_left box)%R).
  set (Hh' := (cb_top box - cb_bottom box)%R).
  set (u := ((x - (cb_left box + cb_right box) / 2) / (2 * W / 2))%R).
  set (v := ((y - (cb_top box + cb_bottom box) / 2) / (12 / 10 * Hh' / 2))%R).
  assert (HW : (0 < W)%R) by (unfold W; lra).
  assert (HH : (0 < Hh')%R) by (unfold Hh'; lra).
  assert (Hu : (u * W = x - (cb_left box + cb_right box) / 2)%R).
  { unfold u. field. lra. }
  assert (Hv : (v * (6 / 10 * Hh') = y - (cb_top box + cb_bottom box) / 2)%R).
  { unfold v. field. lra. }
  assert (Hu2 : (-(1/2) <= u <= 1/2)%R).
  { split; apply (Rmult_le_reg_r W); try done; unfold W in *; lra. }
  assert (Hv2 : (-(5/6) <= v <= 5/6)%R).
  { split; apply (Rmult_le_reg_r (6 / 10 * Hh')); try lra; unfold Hh' in *; lra. }
  nra.
Qed.

(** X20.  In exact real arithmetic, every ellipse [plot] draws belongs to a
    chosen cluster and encloses the bounding box of that cluster: each
    point of a box with positive width and height lies strictly inside the
    ellipse. *)
Theorem plot_ellipse_encloses_box (pyplot patches : bool) (fuel : nat)
    (t : list (CondensedTreeRecord R)) (stability : gmap Z R)
    (leaf_separation : R) (cmap : string)
    (select_clusters colorbar log_size : bool) (calls : list (call R))
    (center : R * R) (width height : R) :
  plot pyplot patches fuel t stability leaf_separation cmap select_clusters
       colorbar log_size = Returns calls →
  AddEllipse center width height ∈ calls →
  ∃ data chosen c box,
    get_plot_data t leaf_separation log_size = Ok data ∧
    _select_clusters fuel t stability = Ok chosen ∧
    c ∈ chosen ∧ cluster_bounds data !! c = Some box ∧
    ((cb_left box < cb_right box)%R → (cb_bottom box < cb_top box)%R →
     ∀ x y, (cb_left box <= x <= cb_right box)%R →
            (cb_bottom box <= y <= cb_top box)%R →
            inside_ellipse center width height x y).
Proof.
  intros Hplot Hin.
  destruct (plot_ellipse_calls _ _ _ _ _ _ _ _ _ _ _ _ _ _ Hplot Hin)
    as (data & chosen & c & box & Hdata & Hsel & Hc & Hbox & Hcall).
  exists data, chosen, c, box. split_and!; [done..|].
  intros Hw Hh x y Hx Hy. by eapply ellipse_call_encloses.
Qed.

Lemma plot_colorbar_without_cmap_witness :
  plot true true 10 (example_tree (F := R)) ∅ 1%R "none" false true false
  = Raises UnboundLocalError.
Proof.
  destruct (get_plot_data_total (example_tree (F := R)) 4 0 1%R false
              example_tree_binary) as (xs & ys & data & _ & _ & _ & Hdata).
  destruct (plot_colorbar_without_cmap true true 10 (example_tree (F := R)) ∅ 1%R
              false false) as [_ Hraise].
  exact (Hraise eq_refl eq_refl data Hdata).
Defined.


Lemma R_ltb_false (a b : R) : (b <= a)%R → s_ltb a b = false.
Proof. intros Hle. cbn. unfold R_ltb. destruct (Rlt_dec a b); [lra|done]. Qed.

(** With stabilities for the root and for cluster 4 alone, cluster 4 is
    selected. *)
Lemma example_tree_select_4 :
  _select_clusters 10 (example_tree (F := R)) {[ 0 := 0%R; 4 := 1%R ]} = Ok [4].
Proof.
  unfold _select_clusters, select_loop.
  assert (Hnl : node_list_of ({[ 0 := 0%R; 4 := 1%R ]} : gmap Z R) = [4])
    by (vm_compute; reflexivity).
  rewrite Hnl, for_each_cons. unfold select_step.
  assert (Hch : children_of (cluster_tree_of (example_tree (F := R))) 4 = [])
    by (vm_compute; reflexivity).
  rewrite Hch. cbn [fmap list_fmap stabilities mbind res_bind np_sum foldl].
  assert (Hown : getitem ({[ 0 := 0%R; 4 := 1%R ]} : gmap Z R) 4 = Ok 1%R)
    by (apply getitem_Ok; vm_compute; reflexivity).
  rewrite Hown. cbn [mbind res_bind].
  rewrite R_ltb_false by (cbn; lra).
  assert (Hbfs : bfs_from_cluster_tree 10 (cluster_tree_of (example_tree (F := R))) 4
                 = Ok [4]) by (vm_compute; reflexivity).
  rewrite Hbfs. cbn [mbind res_bind for_each snd].
  reflexivity.
Qed.

Lemma plot_black_run {F : Type} `{Scalar F} `{Transcendental F} (fuel : nat)
    (t : list (CondensedTreeRecord F)) (stability : gmap Z F) (leaf_separation : F)
    (log_size : bool) (data : plot_data F) (chosen : list Z)
    (calls : list (call F)) :
  get_plot_data t leaf_separation log_size = Ok data →
  _select_clusters fuel t stability = Ok chosen →
  for_each (ellipse_step (cluster_bounds data)) chosen
    (AxisBar (bar_centers data) (bar_tops data) (bar_bottoms data)
       (bar_widths data) (Named "black")
     :: zip_with AxisPlot (line_xs data) (line_ys data)) = Ok calls →
  plot true true fuel t stability leaf_separation "none" true false log_size
  = Returns (calls ++ [SetXticks; HideSpine "right"; HideSpine "top";
                       HideSpine "bottom"; InvertYaxis;
                       SetYlabel "$\lambda$ value"]).
Proof. intros Hdata Hsel Hloop. unfold plot. rewrite Hdata. cbn. rewrite Hsel. cbn. by rewrite Hloop. Qed.

Lemma plot_ellipse_encloses_box_witness :
  ∃ calls box,
    plot true true 10 (example_tree (F := R)) {[ 0 := 0%R; 4 := 1%R ]} 1%R "none"
         true false false = Returns calls ∧
    ellipse_call box ∈ calls ∧
    ((cb_left box < cb_right box)%R → (cb_bottom box < cb_top box)%R →
     ∀ x y, (cb_left box <= x <= cb_right box)%R →
            (cb_bottom box <= y <= cb_top box)%R →
            ∃ center w h, ellipse_call box = AddEllipse center w h ∧
                          inside_ellipse center w h x y).
Proof.
  destruct (get_plot_data_total (example_tree (F := R)) 4 0 1%R false
              example_tree_binary) as (xs & ys & data & _ & _ & _ & Hdata).
  destruct (cluster_bounds_range _ _ _ _ Hdata) as (ll & rt & Hmax & Hmin & Hdom & _).
  injection Hmax as <-. injection Hmin as <-.
  assert (Hbox : is_Some (cluster_bounds data !! 4)).
  { apply elem_of_dom. rewrite Hdom, elem_of_list_to_set, elem_of_range_down.
    vm_compute. split; discriminate. }
  destruct Hbox as [box Hbox].
  set (base := AxisBar (bar_centers data) (bar_tops data) (bar_bottoms data)
                  (bar_widths data) (Named "black")
                :: zip_with AxisPlot (line_xs data) (line_ys data)).
  assert (Hloop : for_each (ellipse_step (cluster_bounds data)) [4] base
                  = Ok (base ++ [ellipse_call box])).
  { by rewrite for_each_cons, ellipse_step_lookup, Hbox. }
  pose proof (plot_black_run 10 example_tree {[ 0 := 0%R; 4 := 1%R ]} 1%R false data
                [4] _ Hdata example_tree_select_4 Hloop) as Hplot.
  eexists _, box. split; [exact Hplot|].
  assert (Hin : ellipse_call box
                ∈ (base ++ [ellipse_call box])
                  ++ [SetXticks; HideSpine "right"; HideSpine "top";
                      HideSpine "bottom"; InvertYaxis; SetYlabel "$\lambda$ value"]).
  { rewrite !elem_of_app. left. right. by left. }
  split; [exact Hin|].
  intros Hw Hh x y Hx Hy.
  destruct (plot_ellipse_encloses_box _ _ _ _ _ _ _ _ _ _ _ _ _ _ Hplot Hin)
    as (data' & chosen & c & box' & Hdata' & Hsel & Hc & Hbox' & Hinside).
  rewrite Hdata in Hdata'. injection Hdata' as <-.
  rewrite example_tree_select_4 in Hsel. injection Hsel as <-.
  apply list_elem_of_singleton in Hc as ->.
  rewrite Hbox in Hbox'. injection Hbox' as <-.
  eexists _, _, _. split; [reflexivity|]. by apply Hinside.
Defined.
(** ** The selection maximises the summed stability *)

Lemma mass_nil (s : gmap Z R) : mass s [] = 0%R.
Proof. done. Qed.

Lemma mass_cons (s : gmap Z R) (a : Z) (A : list Z) :
  mass s (a :: A) = (default 0 (s !! a) + mass s A)%R.
Proof. done. Qed.

Lemma mass_app (s : gmap Z R) (A B : list Z) :
  mass s (A ++ B) = (mass s A + mass s B)%R.
Proof.
  induction A as [|a A IH]; cbn [app]; [rewrite mass_nil; lra|].
  rewrite !mass_cons, IH. lra.
Qed.

Lemma mass_Permutation (s : gmap Z R) (A B : list Z) :
  A ≡ₚ B → mass s A = mass s B.
Proof.
  induction 1 as [|a A B _ IH|a b A|A B C _ IH1 _ IH2];
    rewrite ?mass_cons; [done|by rewrite IH|lra|congruence].
Qed.

Lemma mass_nonneg (s : gmap Z R) (A : list Z) :
  (∀ a, a ∈ A → (0 <= default 0 (s !! a))%R) → (0 <= mass s A)%R.
Proof.
  induction A as [|a A IH]; intros Hpos; [rewrite mass_nil; lra|].
  rewrite mass_cons.
  assert (0 <= default 0 (s !! a))%R by (apply Hpos; by left).
  assert (0 <= mass s A)%R by (apply IH; intros ??; apply Hpos; by right). lra.
Qed.

(** A list splits, up to the order, into the members that satisfy a
    predicate and the others. *)
Lemma split_by (P : Z → Prop) (A : list Z) :
  ∃ A1 A2, A ≡ₚ A1 ++ A2 ∧ Forall P A1 ∧ Forall (λ a, ¬ P a) A2.
Proof.
  induction A as [|a A (A1 & A2 & Hperm & H1 & H2)].
  - by exists [], [].
  - destruct (classic (P a)) as [Ha|Ha].
    + exists (a :: A1), A2. split_and!; [by rewrite Hperm|by constructor|done].
    + exists A1, (a :: A2). split_and!; [|done|by constructor].
      rewrite Hperm. by rewrite Permutation_middle.
Qed.

Lemma antichain_Permutation {F : Type} (ct : list (CondensedTreeRecord F))
    (A B : list Z) :
  A ≡ₚ B → antichain ct A → antichain ct B.
Proof.
  intros Hperm Hanti a b Ha Hb. apply Hanti; by rewrite Hperm.
Qed.

Lemma antichain_app {F : Type} (ct : list (CondensedTreeRecord F)) (A B : list Z) :
  antichain ct (A ++ B) → antichain ct A ∧ antichain ct B.
Proof.
  intros Hanti. split; intros a b Ha Hb; apply Hanti; apply elem_of_app; auto.
Qed.

Section Tree.
Context {F : Type} `{Scalar F}.
Variable ct : list (CondensedTreeRecord F).
Hypothesis Hord : ordered ct.
Hypothesis Hnd : NoDup (child <$> ct).

Lemma edge_children (p c : Z) : edge ct p c ↔ c ∈ child <$> children_of ct p.
Proof.
  unfold edge, children_of. rewrite list_elem_of_fmap. split.
  - intros (r & Hr & Hp & Hc). exists r. split; [done|]. by apply list_elem_of_filter.
  - intros (r & -> & [Hp Hr]%list_elem_of_filter). by exists r.
Qed.

Lemma edge_parent_unique (p p' c : Z) : edge ct p c → edge ct p' c → p = p'.
Proof using Hnd.
  intros (r & Hr & <- & <-) (r' & Hr' & <- & Hc).
  by rewrite (NoDup_fmap_inj_on child ct r' r Hnd Hr' Hr Hc).
Qed.

Lemma tc_first_child (n a : Z) :
  tc (edge ct) n a → ∃ c, edge ct n c ∧ rtc (edge ct) c a.
Proof.
  intros Htc. inversion Htc as [? ? Hna|? c ? Hnc Hca]; subst.
  - by exists a.
  - exists c. split; [done|]. by apply tc_rtc.
Qed.

Lemma rtc_last_parent (b p a : Z) :
  rtc (edge ct) b a → edge ct p a → b = a ∨ rtc (edge ct) b p.
Proof using Hnd.
  intros Hba Hpa. apply rtc_inv_r in Hba as [->|(y & Hby & Hya)]; [by left|].
  right. by rewrite (edge_parent_unique p y a Hpa Hya).
Qed.

(** Two ancestors of a node lie on one path. *)
Lemma ancestors_comparable (c b a : Z) :
  rtc (edge ct) c a → rtc (edge ct) b a → rtc (edge ct) c b ∨ rtc (edge ct) b c.
Proof using Hnd.
  intros Hca. revert b. revert a Hca. apply (rtc_ind_r (λ a, ∀ b, _ → _ ∨ _)).
  - intros b Hba. by right.
  - intros y a Hcy Hya IH b Hba.
    destruct (rtc_last_parent b y a Hba Hya) as [->|Hby].
    + left. by eapply rtc_r.
    + by apply IH.
Qed.

Lemma rtc_antisym (a b : Z) : rtc (edge ct) a b → rtc (edge ct) b a → a = b.
Proof using Hord.
  intros Hab%(ordered_rtc _ _ _ Hord) Hba%(ordered_rtc _ _ _ Hord). lia.
Qed.

Lemma rtc_tc_ne (a b : Z) : rtc (edge ct) a b → a ≠ b → tc (edge ct) a b.
Proof. intros [->|?]%rtc_tc Hne; done. Qed.

(** The subtrees of two children of one node are disjoint. *)
Lemma siblings_disjoint (n c c' a : Z) :
  edge ct n c → edge ct n c' → rtc (edge ct) c a → rtc (edge ct) c' a → c = c'.
Proof using Hord Hnd.
  intros Hnc Hnc' Hca Hc'a.
  assert (Hup : ∀ x y, edge ct n x → edge ct n y → rtc (edge ct) x y → x = y).
  { intros x y Hx Hy Hxy. destruct (rtc_last_parent x n y Hxy Hy) as [?|Hxn]; [done|].
    apply (ordered_rtc _ _ _ Hord) in Hxn. apply (ordered_edge _ _ _ Hord) in Hx. lia. }
  destruct (ancestors_comparable c c' a Hca Hc'a) as [?|?];
    [by apply Hup|symmetry; by apply Hup].
Qed.

End Tree.

Lemma foldl_Rplus (x : R) (l : list R) :
  foldl Rplus x l = (x + foldr Rplus 0 l)%R.
Proof.
  revert x. induction l as [|y l IH]; intros x; cbn; [lra|]. rewrite IH. lra.
Qed.

Lemma stabilities_mass (s : gmap Z R) (cs : list Z) (vs : list R) :
  stabilities s cs = Ok vs →
  np_sum vs = mass s cs ∧ ∀ c, c ∈ cs → c ∈ dom s.
Proof.
  intros Hvs.
  assert (Hval : vs = (λ a, default 0%R (s !! a)) <$> cs ∧ ∀ c, c ∈ cs → c ∈ dom s).
  { revert vs Hvs. induction cs as [|c cs IH]; intros vs Hvs; cbn [stabilities] in Hvs.
    - injection Hvs as <-. split; [done|]. intros c Hc. by apply elem_of_nil in Hc.
    - apply bind_Ok in Hvs as (v & Hv%getitem_Ok & Hvs).
      apply bind_Ok in Hvs as (vs' & Hvs' & [= <-]).
      destruct (IH vs' Hvs') as [-> Hdom]. split.
      + cbn. by rewrite Hv.
      + intros c' [->|Hc']%elem_of_cons; [|by apply Hdom].
        apply elem_of_dom. by eexists. }
  destruct Hval as [-> Hdom]. split; [|done].
  unfold np_sum, mass. cbn [s_add s_ofZ R_scalar]. rewrite foldl_Rplus. lra.
Qed.

Lemma select_run_dom {F : Type} `{Scalar F} (fuel : nat)
    (ct : list (CondensedTreeRecord F)) (l : list Z)
    (st st' : gmap Z F * gmap Z bool) :
  for_each (select_step fuel ct) l st = Ok st' → dom st'.1 = dom st.1.
Proof.
  intros Hrun.
  refine (for_each_invariant (λ s, dom s.1 = dom st.1) _ _ _ st' _ _ Hrun); [|done].
  intros a [s1 i1] [s2 i2] _ IH Hstep. cbn in *.
  by rewrite (select_step_dom _ _ _ _ _ _ _ Hstep).
Qed.

Section ExcessOfMass.
Variables (fuel : nat) (t : list (CondensedTreeRecord R)).
Variables (stability final : gmap Z R) (is_cluster : gmap Z bool).
Hypothesis Hord : ordered (cluster_tree_of t).
Hypothesis Hnd : NoDup (child <$> cluster_tree_of t).
Hypothesis Hpos : ∀ k v, stability !! k = Some v → (0 <= v)%R.
Hypothesis Hrun : select_loop fuel t stability = Ok (final, is_cluster).

(** What the visit of a candidate leaves behind. *)
Lemma final_value (n : Z) :
  n ∈ node_list_of stability →
  ∃ own,
    stability !! n = Some own ∧
    (∀ c, edge (cluster_tree_of t) n c → c ∈ dom stability) ∧
    (keeps (cluster_tree_of t) stability final n ↔
     (mass final (child <$> children_of (cluster_tree_of t) n) <= own)%R) ∧
    final !! n
    = Some (Rmax own (mass final (child <$> children_of (cluster_tree_of t) n))).
Proof using Hord Hrun.
  intros (pre & post & Hsplit)%list_elem_of_split.
  destruct (select_visit _ _ _ _ _ _ _ _ Hord Hrun Hsplit)
    as (s1 & i1 & st2 & vs & own & _ & _ & _ & _ & Hvs & Hown & Hcase).
  destruct (stabilities_mass _ _ _ Hvs) as [Hsum Hdom]. rewrite Hsum in Hcase.
  exists own. split_and!; [done| | |].
  - intros c Hc%edge_children. apply Hdom in Hc.
    pose proof (select_run_dom _ _ _ _ _ Hrun) as Hd. cbn in Hd. by rewrite Hd in Hc.
  - split.
    + intros (vs' & own' & Hvs' & Hown' & Hge).
      rewrite Hvs in Hvs'. rewrite Hown in Hown'.
      injection Hvs' as <-. injection Hown' as <-. rewrite Hsum in Hge.
      cbn in Hge. unfold R_ltb in Hge. destruct (Rlt_dec _ _); [done|lra].
    + intros Hle. exists vs, own. split_and!; [done..|]. rewrite Hsum.
      by apply R_ltb_false.
  - destruct Hcase as [(Hlt & _ & ->)|(Hge & _ & _ & _ & ->)]; f_equal;
      cbn in Hlt || cbn in Hge; unfold R_ltb in *; destruct (Rlt_dec _ _); try done.
    + rewrite Rmax_right; lra.
    + rewrite Rmax_left; lra.
Qed.

Lemma candidate_child (n c : Z) :
  n ∈ node_list_of stability → edge (cluster_tree_of t) n c →
  c ∈ node_list_of stability.
Proof using Hord Hrun.
  intros Hn Hnc. destruct (final_value n Hn) as (own & Hown & Hdom & _).
  apply elem_of_node_list. split; [by apply Hdom|].
  exists n. split; [by apply node_list_dom|]. by apply (ordered_edge _ _ _ Hord).
Qed.

Lemma candidate_descendant (n a : Z) :
  n ∈ node_list_of stability → rtc (edge (cluster_tree_of t)) n a →
  a ∈ node_list_of stability.
Proof using Hord Hrun.
  intros Hn Hna. induction Hna as [|n c a Hnc _ IH]; [done|].
  apply IH. by eapply candidate_child.
Qed.

Lemma final_bounds (n : Z) :
  n ∈ node_list_of stability →
  (0 <= default 0 (stability !! n) <= default 0 (final !! n))%R ∧
  (mass final (child <$> children_of (cluster_tree_of t) n)
   <= default 0 (final !! n))%R.
Proof using Hord Hrun Hpos.
  intros Hn. destruct (final_value n Hn) as (own & Hown & _ & _ & Hfinal).
  rewrite Hown, Hfinal. cbn. pose proof (Hpos _ _ Hown).
  pose proof (Rmax_l own (mass final (child <$> children_of (cluster_tree_of t) n))).
  pose proof (Rmax_r own (mass final (child <$> children_of (cluster_tree_of t) n))).
  lra.
Qed.

(** *** No antichain weighs more than the final values above it *)

Lemma forest_bound (rs A : list Z) :
  (∀ r, r ∈ rs →
     ∀ A', NoDup A' → antichain (cluster_tree_of t) A' →
           (∀ a, a ∈ A' → rtc (edge (cluster_tree_of t)) r a) →
           (mass stability A' <= default 0 (final !! r))%R) →
  NoDup A → antichain (cluster_tree_of t) A →
  (∀ a, a ∈ A → ∃ r, r ∈ rs ∧ rtc (edge (cluster_tree_of t)) r a) →
  (mass stability A <= mass final rs)%R.
Proof.
  revert A. induction rs as [|r rs IH]; intros A Hrs HndA Hanti Hbelow.
  - destruct A as [|a A]; [rewrite !mass_nil; lra|].
    destruct (Hbelow a) as (r & Hr & _); [by left|]. by apply elem_of_nil in Hr.
  - destruct (split_by (λ a, rtc (edge (cluster_tree_of t)) r a) A)
      as (A1 & A2 & Hperm & H1 & H2).
    rewrite Forall_forall in H1, H2.
    rewrite Hperm in HndA. apply NoDup_app in HndA as (Hnd1 & _ & Hnd2).
    apply (antichain_Permutation _ _ _ Hperm), antichain_app in Hanti as [Hanti1 Hanti2].
    rewrite (mass_Permutation _ _ _ Hperm), mass_app, mass_cons.
    assert (mass stability A1 <= default 0 (final !! r))%R.
    { apply Hrs; [by left|done..]. }
    assert (mass stability A2 <= mass final rs)%R.
    { apply IH; [|done..|].
      - intros r' Hr'. apply Hrs. by right.
      - intros a Ha. destruct (Hbelow a) as (r' & Hr' & Hra).
        { rewrite Hperm. apply elem_of_app. by right. }
        apply elem_of_cons in Hr' as [->|Hr']; [by apply H2 in Ha|eauto]. }
    lra.
Qed.

(** An antichain below [n] that contains [n] is [[n]]. *)
Lemma antichain_top (n : Z) (A : list Z) :
  n ∈ A → NoDup A → antichain (cluster_tree_of t) A →
  (∀ a, a ∈ A → rtc (edge (cluster_tree_of t)) n a) → A = [n].
Proof.
  intros Hin HndA Hanti Hbelow.
  assert (Hall : ∀ a, a ∈ A → a = n).
  { intros a Ha. destruct (decide (a = n)) as [|Hne]; [done|exfalso].
    apply (Hanti n a Hin Ha), rtc_tc_ne; [by apply Hbelow|done]. }
  destruct A as [|a A]; [by apply elem_of_nil in Hin|].
  assert (a = n) as -> by (apply Hall; by left). f_equal.
  destruct A as [|a' A]; [done|exfalso].
  apply NoDup_cons in HndA as [Hna _]. apply Hna.
  rewrite (Hall a') by (right; by left). by left.
Qed.

Lemma node_bound_step (n : Z) (A : list Z) :
  n ∈ node_list_of stability →
  (∀ c, edge (cluster_tree_of t) n c →
     ∀ A', NoDup A' → antichain (cluster_tree_of t) A' →
           (∀ a, a ∈ A' → rtc (edge (cluster_tree_of t)) c a) →
           (mass stability A' <= default 0 (final !! c))%R) →
  NoDup A → antichain (cluster_tree_of t) A →
  (∀ a, a ∈ A → rtc (edge (cluster_tree_of t)) n a) →
  (mass stability A <= default 0 (final !! n))%R.
Proof using Hord Hrun Hpos.
  intros Hn Hchildren HndA Hanti Hbelow.
  destruct (decide (n ∈ A)) as [Hin|Hnin].
  - rewrite (antichain_top n A Hin HndA Hanti Hbelow), mass_cons, mass_nil.
    destruct (final_bounds n Hn) as [? _]. lra.
  - etrans; [|apply (final_bounds n Hn)].
    apply forest_bound; [|done..|].
    + intros c Hc%edge_children. by apply Hchildren.
    + intros a Ha. destruct (tc_first_child (cluster_tree_of t) n a) as (c & Hnc & Hca).
      { apply rtc_tc_ne; [by apply Hbelow|]. by intros ->. }
      exists c. split; [by apply edge_children|done].
Qed.

Lemma node_bound_aux (k : nat) (n : Z) (A : list Z) :
  n ∈ node_list_of stability →
  (Z.to_nat (max_child (cluster_tree_of t) - n) ≤ k)%nat →
  NoDup A → antichain (cluster_tree_of t) A →
  (∀ a, a ∈ A → rtc (edge (cluster_tree_of t)) n a) →
  (mass stability A <= default 0 (final !! n))%R.
Proof using Hord Hrun Hpos.
  revert n A. induction k as [|k IH]; intros n A Hn Hk;
    apply node_bound_step; try done; intros c Hc;
    pose proof (ordered_edge _ _ _ Hord Hc) as Hlt;
    pose proof Hc as (r & Hr & _ & <-);
    pose proof (max_child_ge _ _ Hr) as Hmax.
  - lia.
  - intros A' ???. apply IH; [by eapply candidate_child|lia|done..].
Qed.

Lemma node_bound (n : Z) (A : list Z) :
  n ∈ node_list_of stability →
  NoDup A → antichain (cluster_tree_of t) A →
  (∀ a, a ∈ A → rtc (edge (cluster_tree_of t)) n a) →
  (mass stability A <= default 0 (final !! n))%R.
Proof using Hord Hrun Hpos.
  intros Hn. by apply (node_bound_aux (Z.to_nat (max_child (cluster_tree_of t) - n))).
Qed.

(** *** The final values are attained *)

Lemma forest_attained (rs : list Z) :
  NoDup rs →
  (∀ r r' a, r ∈ rs → r' ∈ rs → rtc (edge (cluster_tree_of t)) r a →
             rtc (edge (cluster_tree_of t)) r' a → r = r') →
  (∀ r, r ∈ rs →
     ∃ L, NoDup L ∧
          (∀ a, a ∈ L ↔ chosen_below (cluster_tree_of t) stability final r a) ∧
          mass stability L = default 0%R (final !! r)) →
  ∃ L, NoDup L ∧
       (∀ a, a ∈ L ↔
             ∃ r, r ∈ rs ∧ chosen_below (cluster_tree_of t) stability final r a) ∧
       mass stability L = mass final rs.
Proof.
  induction rs as [|r rs IH]; intros Hndrs Hdisj Hnodes.
  - exists []. split_and!; [constructor| |done].
    intros a. split; [by intros ?%elem_of_nil|]. intros (r & Hr & _).
    by apply elem_of_nil in Hr.
  - apply NoDup_cons in Hndrs as [Hr Hndrs].
    destruct (Hnodes r) as (L1 & Hnd1 & Hin1 & Hmass1); [by left|].
    destruct IH as (L2 & Hnd2 & Hin2 & Hmass2); [done| | |].
    { intros r1 r2 a H1 H2. apply Hdisj; by right. }
    { intros r' Hr'. apply Hnodes. by right. }
    exists (L1 ++ L2). split_and!.
    + apply NoDup_app. split_and!; [done| |done].
      intros a [Hra _]%Hin1 (r' & Hr' & [Hr'a _])%Hin2.
      apply Hr. rewrite (Hdisj r r' a); [done|by left|by right|done..].
    + intros a. rewrite elem_of_app, Hin1, Hin2. split.
      * intros [Ha|(r' & Hr' & Ha)]; [exists r; split; [by left|done]|].
        exists r'. split; [by right|done].
      * intros (r' & [->|Hr']%elem_of_cons & Ha); [by left|right; eauto].
    + by rewrite mass_app, mass_cons, Hmass1, Hmass2.
Qed.

Lemma node_attained_step (n : Z) :
  n ∈ node_list_of stability →
  (∀ c, edge (cluster_tree_of t) n c →
     ∃ L, NoDup L ∧
          (∀ a, a ∈ L ↔ chosen_below (cluster_tree_of t) stability final c a) ∧
          mass stability L = default 0%R (final !! c)) →
  ∃ L, NoDup L ∧
       (∀ a, a ∈ L ↔ chosen_below (cluster_tree_of t) stability final n a) ∧
       mass stability L = default 0%R (final !! n).
Proof using Hord Hnd Hrun.
  intros Hn Hchildren.
  destruct (final_value n Hn) as (own & Hown & _ & Hkeeps & Hfinal).
  destruct (Rle_dec (mass final (child <$> children_of (cluster_tree_of t) n)) own)
    as [Hle|Hgt].
  - exists [n]. split_and!; [apply NoDup_singleton| |].
    + intros a. rewrite list_elem_of_singleton. split.
      * intros ->. split_and!; [done|by apply Hkeeps|].
        intros b Hnb%(ordered_rtc _ _ _ Hord) Hbn%(ordered_tc _ _ _ Hord). lia.
      * intros (Hna & _ & Hnone). destruct (decide (a = n)) as [|Hne]; [done|exfalso].
        apply (Hnone n); [done|by apply rtc_tc_ne|by apply Hkeeps].
    + rewrite mass_cons, mass_nil, Hown, Hfinal. cbn. rewrite Rmax_left; lra.
  - assert (Hnot : ¬ keeps (cluster_tree_of t) stability final n)
      by (by intros ?%Hkeeps).
    destruct (forest_attained (child <$> children_of (cluster_tree_of t) n))
      as (L & HndL & HinL & HmassL).
    + eapply sublist_NoDup; [exact Hnd|]. apply fmap_sublist, sublist_filter.
    + intros c c' a Hc%edge_children Hc'%edge_children.
      by apply (siblings_disjoint _ Hord Hnd n).
    + intros c Hc%edge_children. by apply Hchildren.
    + exists L. split_and!; [done| |].
      * intros a. rewrite HinL. split.
        -- intros (c & Hc%edge_children & Hca & Hka & Hnone). split_and!.
           ++ by eapply rtc_l.
           ++ done.
           ++ intros b Hnb Hba. destruct (decide (b = n)) as [->|Hne]; [done|].
              destruct (tc_first_child (cluster_tree_of t) n b) as (c' & Hc' & Hc'b).
              { apply rtc_tc_ne; [done|]. by intros ->. }
              assert (c' = c) as ->.
              { apply (siblings_disjoint _ Hord Hnd n c' c a); [done..| |done].
                etrans; [exact Hc'b|]. by apply tc_rtc. }
              by apply Hnone.
        -- intros (Hna & Hka & Hnone).
           destruct (tc_first_child (cluster_tree_of t) n a) as (c & Hc & Hca).
           { apply rtc_tc_ne; [done|]. by intros ->. }
           exists c. split; [by apply edge_children|]. split_and!; [done..|].
           intros b Hcb. apply Hnone. by eapply rtc_l.
      * rewrite HmassL, Hfinal. cbn. rewrite Rmax_right; lra.
Qed.

Lemma node_attained_aux (k : nat) (n : Z) :
  n ∈ node_list_of stability →
  (Z.to_nat (max_child (cluster_tree_of t) - n) ≤ k)%nat →
  ∃ L, NoDup L ∧
       (∀ a, a ∈ L ↔ chosen_below (cluster_tree_of t) stability final n a) ∧
       mass stability L = default 0%R (final !! n).
Proof using Hord Hnd Hrun.
  revert n. induction k as [|k IH]; intros n Hn Hk;
    apply node_attained_step; try done; intros c Hc;
    pose proof (ordered_edge _ _ _ Hord Hc) as Hlt;
    pose proof Hc as (r & Hr & _ & <-);
    pose proof (max_child_ge _ _ Hr) as Hmax.
  - lia.
  - apply IH; [by eapply candidate_child|lia].
Qed.

(** *** The candidates at the top *)

Lemma top_candidates :
  ∃ T, NoDup T ∧ ∀ r, r ∈ T ↔ top_candidate (cluster_tree_of t) stability r.
Proof.
  destruct (split_by (λ r, ∀ p, edge (cluster_tree_of t) p r →
                                p ∉ node_list_of stability)
              (node_list_of stability)) as (T & T' & Hperm & HT & HT').
  rewrite Forall_forall in HT, HT'.
  pose proof (node_list_NoDup stability) as Hnodup. rewrite Hperm in Hnodup.
  apply NoDup_app in Hnodup as (HndT & _ & _).
  exists T. split; [done|]. intros r. unfold top_candidate. split.
  - intros Hr. split; [|by apply HT]. rewrite Hperm. apply elem_of_app. by left.
  - intros [Hr Htop]. rewrite Hperm in Hr.
    apply elem_of_app in Hr as [?|Hr]; [done|]. by apply HT' in Hr.
Qed.

Lemma top_above_aux (k : nat) (a : Z) :
  a ∈ node_list_of stability →
  (Z.to_nat (a - min_parent (cluster_tree_of t)) ≤ k)%nat →
  ∃ r, top_candidate (cluster_tree_of t) stability r ∧
       rtc (edge (cluster_tree_of t)) r a.
Proof using Hord.
  revert a. induction k as [|k IH]; intros a Ha Hk;
    (destruct (classic (∀ p, edge (cluster_tree_of t) p a →
                             p ∉ node_list_of stability)) as [Htop|Hnot];
     [by exists a|]);
    apply not_all_ex_not in Hnot as (p & Hnot);
    apply imply_to_and in Hnot as [Hpa Hp]; apply NNPP in Hp;
    pose proof (ordered_edge _ _ _ Hord Hpa) as Hlt;
    pose proof Hpa as (r & Hr & <- & _);
    pose proof (min_parent_le _ _ Hr) as Hmin.
  - lia.
  - destruct (IH (parent r) Hp) as (r' & Htop & Hreach); [lia|].
    exists r'. split; [done|]. by eapply rtc_r.
Qed.

Lemma top_no_candidate_above (r b : Z) :
  top_candidate (cluster_tree_of t) stability r →
  b ∈ node_list_of stability → rtc (edge (cluster_tree_of t)) b r → b = r.
Proof using Hord Hrun.
  intros [Hr Htop] Hb Hbr.
  apply rtc_inv_r in Hbr as [->|(y & Hby & Hyr)]; [done|exfalso].
  apply (Htop y Hyr). by apply (candidate_descendant b).
Qed.

End ExcessOfMass.

(** X21.  In exact real arithmetic, on a cluster tree in which children
    have larger ids than their parents and every cluster has one parent,
    with stabilities that are not negative: the clusters [_select_clusters]
    returns have the largest summed stability among all sets of candidates
    in which no cluster is a descendant of another. *)
Theorem select_clusters_optimal (fuel : nat) (t : list (CondensedTreeRecord R))
    (stability : gmap Z R) (out A : list Z) :
  ordered (cluster_tree_of t) →
  NoDup (child <$> cluster_tree_of t) →
  (∀ k v, stability !! k = Some v → (0 <= v)%R) →
  _select_clusters fuel t stability = Ok out →
  NoDup A → (∀ a, a ∈ A → a ∈ node_list_of stability) →
  antichain (cluster_tree_of t) A →
  (mass stability A <= mass stability out)%R.
Proof.
  intros Hord Hnd Hpos Hout HndA HA Hanti. unfold _select_clusters in Hout.
  apply bind_Ok in Hout as ([final is_cluster] & Hrun & [= <-]). cbn [snd].
  destruct (top_candidates t stability) as (T & HndT & HT).
  assert (Hdisj : ∀ r r' a, r ∈ T → r' ∈ T → rtc (edge (cluster_tree_of t)) r a →
                    rtc (edge (cluster_tree_of t)) r' a → r = r').
  { intros r r' a Hr%HT Hr'%HT Hra Hr'a.
    destruct (ancestors_comparable _ Hnd r r' a Hra Hr'a) as [Hrr'|Hr'r].
    - by apply (top_no_candidate_above fuel t stability final is_cluster Hord Hrun r' r Hr');
        [apply Hr|].
    - symmetry.
      by apply (top_no_candidate_above fuel t stability final is_cluster Hord Hrun r r' Hr);
        [apply Hr'|]. }
  destruct (forest_attained t stability final T HndT Hdisj) as (L & HndL & HinL & HmassL).
  { intros r [Hr _]%HT.
    by apply (node_attained_aux fuel t stability final is_cluster Hord Hnd Hrun
                (Z.to_nat (max_child (cluster_tree_of t) - r))). }
  assert (Habove : ∀ a, a ∈ node_list_of stability →
            ∃ r, r ∈ T ∧ top_candidate (cluster_tree_of t) stability r ∧
                 rtc (edge (cluster_tree_of t)) r a).
  { intros a Ha.
    destruct (top_above_aux t stability Hord
                (Z.to_nat (a - min_parent (cluster_tree_of t))) a Ha)
      as (r & Htop & Hra); [done|].
    exists r. split_and!; [by apply HT|done..]. }
  assert (Hdesc := candidate_descendant fuel t stability final is_cluster Hord Hrun).
  assert (Hperm : selected is_cluster ≡ₚ L).
  { apply NoDup_Permutation; [apply selected_NoDup|done|].
    intros a. rewrite (selected_iff fuel t stability final is_cluster a Hord Hrun), HinL.
    split.
    - intros (Ha & Hka & Hnone). destruct (Habove a Ha) as (r & Hr & Htop & Hra).
      exists r. split; [done|]. split_and!; [done..|].
      intros b Hrb Hba. apply Hnone; [|done]. apply (Hdesc r); [apply Htop|done].
    - intros (r & Htop%HT & Hra & Hka & Hnone). split_and!.
      + apply (Hdesc r); [apply Htop|done].
      + done.
      + intros b Hb Hba.
        destruct (ancestors_comparable _ Hnd r b a Hra (tc_rtc _ _ Hba)) as [Hrb|Hbr].
        * by apply Hnone.
        * rewrite (top_no_candidate_above fuel t stability final is_cluster Hord Hrun
                     r b Htop Hb Hbr) in Hba |- *.
          by apply Hnone. }
  rewrite (mass_Permutation _ _ _ Hperm), HmassL.
  apply (forest_bound t); [|done..|].
  - intros r [Hr _]%HT A' ???.
    by apply (node_bound fuel t stability final is_cluster Hord Hpos Hrun).
  - intros a Ha%HA. destruct (Habove a Ha) as (r & Hr & _ & Hra). eauto.
Qed.

Lemma select_step_keep {F : Type} `{Scalar F} (fuel : nat)
    (ct : list (CondensedTreeRecord F)) (node : Z) (stability : gmap Z F)
    (is_cluster : gmap Z bool) (vs : list F) (own : F) (sub_nodes : list Z) :
  stabilities stability (child <$> children_of ct node) = Ok vs →
  stability !! node = Some own →
  s_ltb own (np_sum vs) = false →
  bfs_from_cluster_tree fuel ct node = Ok sub_nodes →
  select_step fuel ct node (stability, is_cluster)
  = Ok (stability, absorb node sub_nodes is_cluster).
Proof.
  intros Hvs Hown%getitem_Ok Hge Hbfs. unfold select_step.
  rewrite Hvs. cbn. rewrite Hown. cbn. rewrite Hge, Hbfs. done.
Qed.

(** On the example tree the clusters 1 and 2 are selected: the children 3
    and 4 of cluster 1 sum to 4, less than its own 5. *)
Lemma example_tree_select :
  _select_clusters 10 (example_tree (F := R)) example_stability = Ok [2; 1].
Proof.
  unfold _select_clusters, select_loop.
  assert (Hnl : node_list_of example_stability = [4; 3; 2; 1])
    by (vm_compute; reflexivity).
  rewrite Hnl.
  rewrite for_each_cons, (select_step_keep _ _ 4 _ _ [] 2%R [4]);
    [|vm_compute; reflexivity|vm_compute; reflexivity|apply R_ltb_false; cbn; lra
     |vm_compute; reflexivity].
  cbn [mbind res_bind].
  rewrite for_each_cons, (select_step_keep _ _ 3 _ _ [] 2%R [3]);
    [|vm_compute; reflexivity|vm_compute; reflexivity|apply R_ltb_false; cbn; lra
     |vm_compute; reflexivity].
  cbn [mbind res_bind].
  rewrite for_each_cons, (select_step_keep _ _ 2 _ _ [] 5%R [2]);
    [|vm_compute; reflexivity|vm_compute; reflexivity|apply R_ltb_false; cbn; lra
     |vm_compute; reflexivity].
  cbn [mbind res_bind].
  rewrite for_each_cons, (select_step_keep _ _ 1 _ _ [2%R; 2%R] 5%R [1; 3; 4]);
    [|vm_compute; reflexivity|vm_compute; reflexivity|apply R_ltb_false; cbn; lra
     |vm_compute; reflexivity].
  reflexivity.
Qed.

Lemma select_clusters_optimal_witness :
  _select_clusters 10 (example_tree (F := R)) example_stability = Ok [2; 1] ∧
  Rle (mass example_stability [3; 4; 2]) (mass example_stability [2; 1]).
Proof.
  split; [exact example_tree_select|].
  destruct (example_tree_binary (F := R)) as (_ & _ & Hord & _).
  apply (select_clusters_optimal 10 (example_tree (F := R)) example_stability
           [2; 1] [3; 4; 2] Hord).
  - by_evaluation.
  - intros k v Hk. unfold example_stability in Hk. cbn [list_to_map foldr fst snd] in Hk.
    repeat (apply lookup_insert_Some in Hk as [[_ <-]|[_ Hk]]; [lra|]).
    by rewrite lookup_empty in Hk.
  - exact example_tree_select.
  - by_evaluation.
  - assert (Hnl : node_list_of example_stability = [4; 3; 2; 1])
      by (vm_compute; reflexivity).
    rewrite Hnl. apply Forall_forall. by_evaluation.
  - intros a b Ha _ Htc.
    destruct (tc_first_child _ a b Htc) as (c & Hc%edge_children & _).
    assert (Hleaf : children_of (cluster_tree_of (example_tree (F := R))) a = []).
    { repeat (apply elem_of_cons in Ha as [->|Ha]; [vm_compute; reflexivity|]).
      by apply elem_of_nil in Ha. }
    rewrite Hleaf in Hc. by apply elem_of_nil in Hc.
Defined.
